(** * Blue Marble (modded): template reconciliation and write scheduling

    A shallow embedding of the analysis, scheduling and controller code of
    the userscript and the properties its specification states.

    Conventions.  Channel values, palette ids and pixel coordinates are
    integers ([Z]).  JavaScript numbers that carry fractional values
    (priorities, weights, sampling keys, colour distances) are idealised
    as real numbers ([R]); rounding of IEEE doubles is outside the model
    (module [Double] evaluates one formula on binary64 numbers).
    JavaScript objects used as dictionaries, [Map] and [Set] are [gmap]
    and [gset].
    Asynchronous waits, the DOM and the network are represented by the
    outcomes the code observes from them. *)

From Stdlib Require Import ZArith List Reals Lra Lia Permutation Sorted Ascii.
From Stdlib Require PrimFloat.
From stdpp Require Import gmap strings pretty list.

Open Scope Z_scope.

(** ** Built-in functions on numbers *)

(** [Math.pow(u, e)] for a base [u >= 0] and an exponent [e > 0]. *)
Definition Math_pow (u e : R) : R :=
  if Req_dec_T u 0 then 0%R else Rpower u e.

(** [Math.atan2(y, x)], in radians within [-PI, PI].  (A real number has
    no signed zero: [y = 0] with [x < 0] gives [PI].) *)
Definition Math_atan2 (y x : R) : R :=
  if Rlt_dec 0 x then atan (y / x)
  else if Rlt_dec x 0 then
    if Rle_dec 0 y then (atan (y / x) + PI)%R else (atan (y / x) - PI)%R
  else if Rlt_dec 0 y then (PI / 2)%R
  else if Rlt_dec y 0 then (- (PI / 2))%R
  else 0%R.

(** [a % b] on integers: the remainder takes the sign of the dividend;
    [None] is [NaN], the result for a zero divisor. *)
Definition jsRem (a b : Z) : option Z :=
  if b =? 0 then None else Some (Z.rem a b).

(** The binary64 number nearest to the integer [z], ties to even: what an
    integer sum is rounded to.  Integers below [2 ^ 53] in magnitude are
    binary64 numbers; from there on 53 bits are kept.  [None] is an
    infinity. *)
Definition roundBinary64 (z : Z) : option Z :=
  let m := Z.abs z in
  if m <? 2 ^ 53 then Some z
  else
    let ulp := 2 ^ (Z.log2 m - 52) in
    let q := m / ulp in
    let r := m mod ulp in
    let q' := if 2 * r <? ulp then q
              else if ulp <? 2 * r then q + 1
              else if Z.even q then q else q + 1 in
    if 2 ^ 1024 <=? q' * ulp then None else Some (Z.sgn z * (q' * ulp)).

(** [Math.floor] *)
Definition Math_floor (x : R) : Z := Int_part x.

(** ** utils.js: palette and colour distances *)

Module Utils.

Definition RGB : Type := (Z * Z * Z)%type.

Record color := mkColor { name : string; rgb : RGB }.

(** [colorpalette]: index = palette id, id 0 is "Transparent". *)
Definition colorpalette : list color :=
  [
    mkColor "Transparent" (0, 0, 0);
    mkColor "Black" (0, 0, 0);
    mkColor "Dark Gray" (60, 60, 60);
    mkColor "Gray" (120, 120, 120);
    mkColor "Light Gray" (210, 210, 210);
    mkColor "White" (255, 255, 255);
    mkColor "Deep Red" (96, 0, 24);
    mkColor "Red" (237, 28, 36);
    mkColor "Orange" (255, 127, 39);
    mkColor "Gold" (246, 170, 9);
    mkColor "Yellow" (249, 221, 59);
    mkColor "Light Yellow" (255, 250, 188);
    mkColor "Dark Green" (14, 185, 104);
    mkColor "Green" (19, 230, 123);
    mkColor "Light Green" (135, 255, 94);
    mkColor "Dark Teal" (12, 129, 110);
    mkColor "Teal" (16, 174, 166);
    mkColor "Light Teal" (19, 225, 190);
    mkColor "Dark Blue" (40, 80, 158);
    mkColor "Blue" (64, 147, 228);
    mkColor "Cyan" (96, 247, 242);
    mkColor "Indigo" (107, 80, 246);
    mkColor "Light Indigo" (153, 177, 251);
    mkColor "Dark Purple" (120, 12, 153);
    mkColor "Purple" (170, 56, 185);
    mkColor "Light Purple" (224, 159, 249);
    mkColor "Dark Pink" (203, 0, 122);
    mkColor "Pink" (236, 31, 128);
    mkColor "Light Pink" (243, 141, 169);
    mkColor "Dark Brown" (104, 70, 52);
    mkColor "Brown" (149, 104, 42);
    mkColor "Beige" (248, 178, 119);
    mkColor "Medium Gray" (170, 170, 170);
    mkColor "Dark Red" (165, 14, 30);
    mkColor "Light Red" (250, 128, 114);
    mkColor "Dark Orange" (228, 92, 26);
    mkColor "Light Tan" (214, 181, 148);
    mkColor "Dark Goldenrod" (156, 132, 49);
    mkColor "Goldenrod" (197, 173, 49);
    mkColor "Light Goldenrod" (232, 212, 95);
    mkColor "Dark Olive" (74, 107, 58);
    mkColor "Olive" (90, 148, 74);
    mkColor "Light Olive" (132, 197, 115);
    mkColor "Dark Cyan" (15, 121, 159);
    mkColor "Light Cyan" (187, 250, 242);
    mkColor "Light Blue" (125, 199, 255);
    mkColor "Dark Indigo" (77, 49, 184);
    mkColor "Dark Slate Blue" (74, 66, 132);
    mkColor "Slate Blue" (122, 113, 196);
    mkColor "Light Slate Blue" (181, 174, 241);
    mkColor "Light Brown" (219, 164, 99);
    mkColor "Dark Beige" (209, 128, 81);
    mkColor "Light Beige" (255, 197, 165);
    mkColor "Dark Peach" (155, 82, 73);
    mkColor "Peach" (209, 128, 120);
    mkColor "Light Peach" (250, 182, 164);
    mkColor "Dark Tan" (123, 99, 82);
    mkColor "Tan" (156, 132, 107);
    mkColor "Dark Slate" (51, 57, 65);
    mkColor "Slate" (109, 117, 141);
    mkColor "Light Slate" (179, 185, 209);
    mkColor "Dark Stone" (109, 100, 63);
    mkColor "Stone" (148, 140, 107);
    mkColor "Light Stone" (205, 197, 158)
  ].

(** The module-level cache [colorpaletteRGB] is [null] until the first
    lookup; [None] below stands for that [null], and an entry [None] of the
    cached array stands for the [null] stored for "Transparent". *)
Definition paletteCache : Type := option (list (option RGB)).

Definition initializePalettes (colorpaletteRGB : paletteCache) : paletteCache :=
  match colorpaletteRGB with
  | Some p => Some p
  | None =>
      Some (map (fun c => if String.eqb (name c) "Transparent" then None
                          else Some (rgb c)) colorpalette)
  end.

(** Loop variables of [findClosestColor]; [minDistanceSq = None] is the
    initial [Infinity]. *)
Record search := mkSearch { minDistanceSq : option Z; closestColorIndex : Z }.

Definition distanceSq (c p : RGB) : Z :=
  let '(r, g, b) := c in
  let '(pr, pg, pb) := p in
  let dr := r - pr in
  let dg := g - pg in
  let db := b - pb in
  dr * dr + dg * dg + db * db.

Definition below (d : Z) (m : option Z) : bool :=
  match m with
  | None => true
  | Some m' => d <? m'
  end.

(** The [forEach] callback run over the cached array from position
    [index] on.  Indexing a [null] entry other than entry 0 raises a
    [TypeError]; that is the result [None]. *)
Fixpoint forEach (c : RGB) (index : Z) (l : list (option RGB)) (st : search)
  : option search :=
  match l with
  | [] => Some st
  | paletteRgb :: rest =>
      if index =? 0 then forEach c (index + 1) rest st
      else
        match paletteRgb with
        | None => None
        | Some p =>
            let d := distanceSq c p in
            if below d (minDistanceSq st)
            then forEach c (index + 1) rest (mkSearch (Some d) index)
            else forEach c (index + 1) rest st
        end
  end.

(** [findClosestColor] with the cache threaded through: the returned id
    ([None] when the loop raised) and the cache it leaves behind. *)
Definition findClosestColor_run (colorpaletteRGB : paletteCache) (c : RGB)
  : option Z * paletteCache :=
  let cache := initializePalettes colorpaletteRGB in
  match cache with
  | Some p =>
      (closestColorIndex <$> forEach c 0 p (mkSearch None (-1)), cache)
  | None => (None, cache)
  end.

(** The id returned on a fresh module.  The palette is a constant with its
    only "Transparent" entry at index 0, so the loop never raises (lemma
    [findClosestColor_run_fresh]); -1 is the initial [closestColorIndex]. *)
Definition findClosestColor (c : RGB) : Z :=
  match fst (findClosestColor_run None c) with
  | Some i => i
  | None => -1
  end.

Section ColorDistance.
Open Scope R_scope.

Definition K_L : R := 1.
Definition K_C : R := 1.
Definition K_H : R := 1.
Definition DEG_TO_RAD : R := PI / 180.
Definition RAD_TO_DEG : R := 180 / PI.
Definition POW25_7 : R := 25 ^ 7.

(** sRGB (0..255 per channel) to CIE XYZ. *)
Definition rgbToXyz (r g b : R) : R * R * R :=
  let r := r / 255 in
  let g := g / 255 in
  let b := b / 255 in
  let r := if Rlt_dec 0.04045 r then Math_pow ((r + 0.055) / 1.055) 2.4
           else r / 12.92 in
  let g := if Rlt_dec 0.04045 g then Math_pow ((g + 0.055) / 1.055) 2.4
           else g / 12.92 in
  let b := if Rlt_dec 0.04045 b then Math_pow ((b + 0.055) / 1.055) 2.4
           else b / 12.92 in
  let r := r * 100 in
  let g := g * 100 in
  let b := b * 100 in
  (r * 0.4124564 + g * 0.3575761 + b * 0.1804375,
   r * 0.2126729 + g * 0.7151522 + b * 0.0721750,
   r * 0.0193339 + g * 0.1191920 + b * 0.9503041).

(** CIE XYZ to CIE LAB, with the D65 reference white. *)
Definition xyzToLab (x y z : R) : R * R * R :=
  let refX := 95.047 in
  let refY := 100.000 in
  let refZ := 108.883 in
  let x := x / refX in
  let y := y / refY in
  let z := z / refZ in
  let x := if Rlt_dec 0.008856 x then Math_pow x (1 / 3)
           else 7.787 * x + 16 / 116 in
  let y := if Rlt_dec 0.008856 y then Math_pow y (1 / 3)
           else 7.787 * y + 16 / 116 in
  let z := if Rlt_dec 0.008856 z then Math_pow z (1 / 3)
           else 7.787 * z + 16 / 116 in
  (116 * y - 16, 500 * (x - y), 200 * (y - z)).

Definition rgbToLab (r g b : R) : R * R * R :=
  let '(x, y, z) := rgbToXyz r g b in xyzToLab x y z.

(** The CIEDE2000 difference of two LAB colours [(l, a, b)]. *)
Definition ciede2000 (lab1 lab2 : R * R * R) : R :=
  let '(l1, a1, b1) := lab1 in
  let '(l2, a2, b2) := lab2 in
  let c1 := sqrt (a1 * a1 + b1 * b1) in
  let c2 := sqrt (a2 * a2 + b2 * b2) in
  let cBar := (c1 + c2) / 2 in
  let g := 0.5 * (1 - sqrt (cBar ^ 7 / (cBar ^ 7 + POW25_7))) in
  let a1Prime := (1 + g) * a1 in
  let a2Prime := (1 + g) * a2 in
  let c1Prime := sqrt (a1Prime * a1Prime + b1 * b1) in
  let c2Prime := sqrt (a2Prime * a2Prime + b2 * b2) in
  let h1Prime := Math_atan2 b1 a1Prime * RAD_TO_DEG in
  let h1Prime := if Rlt_dec h1Prime 0 then h1Prime + 360 else h1Prime in
  let h2Prime := Math_atan2 b2 a2Prime * RAD_TO_DEG in
  let h2Prime := if Rlt_dec h2Prime 0 then h2Prime + 360 else h2Prime in
  let deltaLPrime := l2 - l1 in
  let deltaCPrime := c2Prime - c1Prime in
  let deltaHPrime :=
    if Req_dec_T (c1Prime * c2Prime) 0 then 0
    else
      let hDiff := h2Prime - h1Prime in
      if Rle_dec (Rabs hDiff) 180 then hDiff
      else if Rlt_dec 180 hDiff then hDiff - 360
      else hDiff + 360 in
  let deltaHPrime :=
    2 * sqrt (c1Prime * c2Prime) * sin ((deltaHPrime * DEG_TO_RAD) / 2) in
  let lBarPrime := (l1 + l2) / 2 in
  let cBarPrime := (c1Prime + c2Prime) / 2 in
  let hBarPrime :=
    if Req_dec_T (c1Prime * c2Prime) 0 then h1Prime + h2Prime
    else
      let hSum := h1Prime + h2Prime in
      if Rle_dec (Rabs (h1Prime - h2Prime)) 180 then hSum / 2
      else if Rlt_dec hSum 360 then (hSum + 360) / 2
      else (hSum - 360) / 2 in
  let t := 1 - 0.17 * cos ((hBarPrime - 30) * DEG_TO_RAD)
             + 0.24 * cos ((2 * hBarPrime) * DEG_TO_RAD)
             + 0.32 * cos ((3 * hBarPrime + 6) * DEG_TO_RAD)
             - 0.20 * cos ((4 * hBarPrime - 63) * DEG_TO_RAD) in
  let deltaTheta := 30 * exp (- (((hBarPrime - 275) / 25) ^ 2)) in
  let rC := 2 * sqrt (cBarPrime ^ 7 / (cBarPrime ^ 7 + POW25_7)) in
  let sL := 1 + (0.015 * (lBarPrime - 50) ^ 2)
                / sqrt (20 + (lBarPrime - 50) ^ 2) in
  let sC := 1 + 0.045 * cBarPrime in
  let sH := 1 + 0.015 * cBarPrime * t in
  let rT := - sin ((2 * deltaTheta) * DEG_TO_RAD) * rC in
  let termL := deltaLPrime / (K_L * sL) in
  let termC := deltaCPrime / (K_C * sC) in
  let termH := deltaHPrime / (K_H * sH) in
  sqrt (termL * termL + termC * termC + termH * termH + rT * termC * termH).

(** The LAB colour of an RGB triple. *)
Definition labOf (rgb : RGB) : R * R * R :=
  let '(r, g, b) := rgb in rgbToLab (IZR r) (IZR g) (IZR b).

(** [calculateColorDifference]: the CIEDE2000 difference of two RGB
    colours, scaled by 5000. *)
Definition calculateColorDifference (rgb1 rgb2 : RGB) : R :=
  let lab1 := labOf rgb1 in
  let lab2 := labOf rgb2 in
  let deltaE := ciede2000 lab1 lab2 in
  deltaE * 5000.

End ColorDistance.

(** *** Coordinates, modulo and number encoding *)

(** [serverTPtoDisplayTP(tile, pixel)]; the arguments are the integers
    that [parseInt] reads from the four strings. *)
Definition serverTPtoDisplayTP (tile pixel : Z * Z) : Z * Z :=
  (Z.rem tile.1 4 * 1000 + pixel.1, Z.rem tile.2 4 * 1000 + pixel.2).

(** [negativeSafeModulo(a, b)]: [(a % b + b) % b] on integer-valued
    numbers.  The two remainders are exact; the sum is rounded to
    binary64, and the remainder of an infinite sum is [NaN]. *)
Definition negativeSafeModulo (a b : Z) : option Z :=
  r ← jsRem a b; s ← roundBinary64 (r + b); jsRem s b.

(** A value that is a string or [undefined]. *)
Inductive value := Undefined | Str (s : list ascii).

(** The values the variable [number] of [numberToEncoded] takes: an
    integer, or [Infinity] after a division by zero. *)
Inductive loopNumber := Finite (n : Z) | Infinity.

(** [encoding[i] + result], where [i] is [None] for [NaN]: a missing
    character is [undefined], which the concatenation spells out. *)
Definition prepend (encoding : list ascii) (i : option Z)
    (result : list ascii) : list ascii :=
  match i ≫= (fun k => if k <? 0 then None else encoding !! Z.to_nat k) with
  | Some c => c :: result
  | None => String.list_ascii_of_string "undefined" ++ result
  end.

(** The [while (number > 0)] loop, run for at most [fuel] iterations;
    [None] when it is still running then. *)
Fixpoint encodeLoop (fuel : nat) (encoding result : list ascii)
    (number : loopNumber) : option (list ascii) :=
  match number with
  | Finite n =>
      if 0 <? n then
        match fuel with
        | O => None
        | S fuel' =>
            let base := Z.of_nat (length encoding) in
            encodeLoop fuel' encoding (prepend encoding (jsRem n base) result)
                       (if base =? 0 then Infinity else Finite (n / base))
        end
      else Some result
  | Infinity =>
      match fuel with
      | O => None
      | S fuel' => encodeLoop fuel' encoding (prepend encoding None result) Infinity
      end
  end.

(** [numberToEncoded(number, encoding)] for an integer [number]. *)
Definition numberToEncoded (fuel : nat) (number : Z) (encoding : list ascii)
  : option value :=
  if number =? 0 then
    Some match encoding !! 0%nat with Some c => Str [c] | None => Undefined end
  else Str <$> encodeLoop fuel encoding [] (Finite number).

End Utils.

(** ** templateManager.js: the tile diff analyzer

    Embedded from the revision of the file that main.js constructs
    ([new TemplateManager(name, version, overlay, autoPainter)]), in which
    the colour score of a correction is normalised and capped.  (An
    earlier revision added the uncapped colour difference to the centre
    bonus and still had [analyzeVisibleTiles].) *)

Module TemplateManager.
Import Utils.

(** A queue entry: [{tileCoords, pixelCoords, colorId, priority}]. *)
Record pixelData := mkPixelData {
  tileCoords : Z * Z;
  pixelCoords : Z * Z;
  colorId : Z;
  priority : R
}.

(** The fields of the manager that the analysis reads or writes. *)
Record manager := mkManager {
  analyzeTransparentPixels : bool;
  templateColorCache : gmap Z Z;
  pixelQueue : list pixelData
}.

Definition tileSize : Z := 1000.
Definition drawMult : Z := 3.

(** The constructor: grief-clean off, an empty colour cache, the queue as
    read back from local storage. *)
Definition constructor (storedQueue : list pixelData) : manager :=
  mkManager false ∅ storedQueue.

Definition setAnalyzeTransparentPixels (value : bool) (m : manager) : manager :=
  mkManager value (templateColorCache m) (pixelQueue m).

(** An element of [templatesToDraw]: the position of the chunk inside the
    tile and the size of its bitmap.  Chunk bitmaps are rendered at
    [drawMult] magnification, so the sizes are multiples of [drawMult] and
    the divisions below are exact. *)
Record chunk := mkChunk {
  startX : Z; startY : Z; bitmapWidth : Z; bitmapHeight : Z
}.

Record rect := mkRect { minX : Z; minY : Z; maxX : Z; maxY : Z }.

(** The first loop of [analyzeTile]: the bounding rectangle of the chunks. *)
Definition boundingRect (templatesToDraw : list chunk) : rect :=
  fold_left
    (fun b t =>
       let templateWidth := bitmapWidth t / drawMult in
       let templateHeight := bitmapHeight t / drawMult in
       mkRect (Z.min (minX b) (startX t)) (Z.min (minY b) (startY t))
              (Z.max (maxX b) (startX t + templateWidth))
              (Z.max (maxY b) (startY t + templateHeight)))
    templatesToDraw (mkRect tileSize tileSize 0 0).

(** [ToInt32], the result type of [<<] and [|]. *)
Definition toInt32 (z : Z) : Z := (z + 2 ^ 31) mod 2 ^ 32 - 2 ^ 31.

Definition templateColorKey (templateAlpha templateR templateG templateB : Z) : Z :=
  Z.lor (Z.lor (Z.lor (toInt32 (Z.shiftl templateAlpha 24))
                      (toInt32 (Z.shiftl templateB 16)))
               (toInt32 (Z.shiftl templateG 8)))
        (toInt32 templateR).

Definition MAX_PRIORITY_SCORE : R := 500000.

(** [Math.min(colorDifference / 100.0, 1.0) * MAX_PRIORITY_SCORE]. *)
Definition colorPriority (colorDifference : R) : R :=
  (Rmin (colorDifference / 100) 1 * MAX_PRIORITY_SCORE)%R.

Definition centerX (b : rect) : R := (IZR (minX b) + (IZR (maxX b) - IZR (minX b)) / 2)%R.
Definition centerY (b : rect) : R := (IZR (minY b) + (IZR (maxY b) - IZR (minY b)) / 2)%R.
Definition maxDist (b : rect) : R :=
  sqrt ((IZR (maxX b) - centerX b) ^ 2 + (IZR (maxY b) - centerY b) ^ 2).

Definition centerBonus (b : rect) (x y : Z) : R :=
  let distFromCenter := sqrt ((IZR x - centerX b) ^ 2 + (IZR y - centerY b) ^ 2) in
  let normalizedDist :=
    if Rlt_dec 0 (maxDist b) then (distFromCenter / maxDist b)%R else 0%R in
  ((1 - normalizedDist) * 500000)%R.

(** The byte index of the centre sub-pixel of the block of pixel [(x, y)]. *)
Definition centerIndex (x y : Z) : Z :=
  let drawSize := tileSize * drawMult in
  ((y * drawMult + 1) * drawSize + (x * drawMult + 1)) * 4.

Section Analysis.

(** The rasters read back with [getImageData], as maps from byte index to
    channel value. *)
Variables (templateImageData gameImageData : Z -> Z).
Variable tileCoords0 : Z * Z.
Variable analyzeTransparent : bool.
Variable b : rect.

(** The body of the two nested loops for the pixel [(x, y)]: the candidate
    pushed on [newPixelsForQueue], if any, and the colour cache it leaves.
    (The block that only builds a log message is left out: the message is
    always empty.) *)
Definition analyzePixel (cache : gmap Z Z) (x y : Z)
  : option pixelData * gmap Z Z :=
  let index := centerIndex x y in
  let templateR := templateImageData index in
  let templateG := templateImageData (index + 1) in
  let templateB := templateImageData (index + 2) in
  let templateAlpha := templateImageData (index + 3) in
  let gameR := gameImageData index in
  let gameG := gameImageData (index + 1) in
  let gameB := gameImageData (index + 2) in
  let gameAlpha := gameImageData (index + 3) in
  if analyzeTransparent && (templateAlpha <? 128) && (0 <? gameAlpha) then
    (Some (mkPixelData tileCoords0 (x, y) 0 2000000), cache)
  else if 128 <? templateAlpha then
    let isTransparent := gameAlpha <? 128 in
    let key := templateColorKey templateAlpha templateR templateG templateB in
    let '(targetColorId, cache') :=
      match cache !! key with
      | Some cached => (cached, cache)
      | None =>
          let found := findClosestColor (templateR, templateG, templateB) in
          (found, <[key := found]> cache)
      end in
    let isWrongColor :=
      if isTransparent then false
      else negb (findClosestColor (gameR, gameG, gameB) =? targetColorId) in
    if isTransparent || isWrongColor then
      let bonus := centerBonus b x y in
      if isTransparent then
        (Some (mkPixelData tileCoords0 (x, y) targetColorId (1000000 + bonus)), cache')
      else
        let colorDifference :=
          calculateColorDifference (gameR, gameG, gameB)
                                   (templateR, templateG, templateB) in
        (Some (mkPixelData tileCoords0 (x, y) targetColorId
                           (colorPriority colorDifference + bonus)), cache')
    else (None, cache')
  else (None, cache).

(** One step of the inner loop: run the body, push the candidate. *)
Definition pushPixel (y : Z) (acc : list pixelData * gmap Z Z) (x : Z)
  : list pixelData * gmap Z Z :=
  let '(newPixelsForQueue, cache) := acc in
  match analyzePixel cache x y with
  | (Some pixel, cache') => (newPixelsForQueue ++ [pixel], cache')
  | (None, cache') => (newPixelsForQueue, cache')
  end.

(** [for (x = minX; x < maxX; x++)] *)
Definition rowLoop (acc : list pixelData * gmap Z Z) (y : Z)
  : list pixelData * gmap Z Z :=
  fold_left (pushPixel y) (seqZ (minX b) (maxX b - minX b)) acc.

(** [for (y = minY; y < maxY; y++)] *)
Definition tileLoop (cache : gmap Z Z) : list pixelData * gmap Z Z :=
  fold_left rowLoop (seqZ (minY b) (maxY b - minY b)) ([], cache).

End Analysis.

(** [analyzeTile]: the candidates of one tile and the manager afterwards.
    [templateImageData] and [gameImageData] stand for the two canvases the
    function draws and reads back. *)
Definition analyzeTile (m : manager)
    (gameImageData templateImageData : Z -> Z)
    (templatesToDraw : list chunk) (tileCoords0 : Z * Z)
  : list pixelData * manager :=
  match templatesToDraw with
  | [] => ([], m)
  | _ =>
      let '(newPixelsForQueue, cache) :=
        tileLoop templateImageData gameImageData tileCoords0
                 (analyzeTransparentPixels m) (boundingRect templatesToDraw)
                 (templateColorCache m) in
      (newPixelsForQueue,
       mkManager (analyzeTransparentPixels m) cache (pixelQueue m))
  end.


(** *** drawTemplateOnTile: hiding the template pixels that are in place *)

(** [data[i]] on a typed array; [None] is [undefined]. *)
Definition typedGet (data : list Z) (i : Z) : option Z :=
  if i <? 0 then None else data !! Z.to_nat i.

(** [data[i] = v] on a typed array: nothing happens out of range. *)
Definition typedSet (data : list Z) (i : Z) (v : Z) : list Z :=
  if i <? 0 then data else <[Z.to_nat i := v]> data.

(** [a > 128], false for [undefined]. *)
Definition above128 (a : option Z) : bool :=
  match a with Some v => 128 <? v | None => false end.

Section Filter.

(** The size of the chunk bitmap, its offset on the tile canvas (both in
    canvas pixels) and the pixel data of the live tile. *)
Variables (tempW tempH offsetX offsetY : Z).
Variable gameData : list Z.

(** The test of the innermost block: the template pixel [(x, y)] is
    visible, lies on the tile, and the live pixel under it is visible and
    has the same colour. *)
Definition inPlace (tData : list Z) (x y : Z) : bool :=
  let drawSize := tileSize * drawMult in
  let tIdx := (y * tempW + x) * 4 in
  let tAlpha := typedGet tData (tIdx + 3) in
  if above128 tAlpha then
    let gX := x + offsetX in
    let gY := y + offsetY in
    if (gX <? drawSize) && (gY <? drawSize) then
      let gIdx := (gY * drawSize + gX) * 4 in
      let tR := typedGet tData tIdx in
      let tG := typedGet tData (tIdx + 1) in
      let tB := typedGet tData (tIdx + 2) in
      let gR := typedGet gameData gIdx in
      let gG := typedGet gameData (gIdx + 1) in
      let gB := typedGet gameData (gIdx + 2) in
      let gAlpha := typedGet gameData (gIdx + 3) in
      above128 gAlpha && bool_decide (tR = gR) && bool_decide (tG = gG)
      && bool_decide (tB = gB)
    else false
  else false.

(** The body of the two loops over the chunk. *)
Definition hidePixel (y : Z) (tData : list Z) (x : Z) : list Z :=
  if inPlace tData x y then typedSet tData ((y * tempW + x) * 4 + 3) 0
  else tData.

(** [for (y = 0; y < tempH; y++) for (x = 0; x < tempW; x++)] on the pixel
    data of the chunk. *)
Definition hideInPlace (tData : list Z) : list Z :=
  fold_left (fun d y => fold_left (hidePixel y) (seqZ 0 tempW) d)
            (seqZ 0 tempH) tData.

End Filter.

End TemplateManager.

(** The colour score of a correction once more, on binary64 numbers with
    the operations the script applies to them; used to evaluate the score
    at given distances. *)
Module Double.
Import PrimFloat.

(** [Math.min] (the sign of zero is not distinguished). *)
Definition Math_min (a b : float) : float :=
  if orb (is_nan a) (is_nan b) then nan else if ltb b a then b else a.

Definition calculateColorDifference (deltaE : float) : float :=
  (deltaE * 5000)%float.

Definition colorPriority (colorDifference : float) : float :=
  (Math_min (colorDifference / 100) 1 * 500000)%float.

End Double.

(** ** apiManager.js: available colours and the write scheduler

    Embedded from the revision of the file that main.js constructs
    ([new ApiManager(templateManager, autoPainter)]): [executeQuickPaint]
    analyses the tiles it fetches itself, samples the pixels to paint and
    reports to the controller through [onQuickPaintFinished].  (An earlier
    revision called [analyzeVisibleTiles] and painted the first
    [paintCount] entries of the priority-sorted queue; the table of
    available colours and the queue update are the same in both.) *)

Module ApiManager.
Import TemplateManager.

(** *** The available-colour table built from the "me" response *)

Definition totalColors : Z := 66.
Definition mediumGrayIndex : Z := 32.

(** [x >>> 0] on an integer. *)
Definition toUint32 (z : Z) : Z := z mod 2 ^ 32.

Fixpoint digitsOf (p : positive) : list bool :=
  match p with
  | xH => [true]
  | xO p' => false :: digitsOf p'
  | xI p' => true :: digitsOf p'
  end.

(** [v.toString(2).split('').reverse().join('')] for [v >= 0]: the binary
    digits of [v], least significant first ([true] is the character '1');
    zero prints as the single digit '0'. *)
Definition binaryBitmap (v : Z) : list bool :=
  match v with
  | Zpos p => digitsOf p
  | _ => [false]
  end.

(** [for (let i = lo; i < hi; i++) body], on an accumulator. *)
Definition forRange {S : Type} (lo hi : Z) (body : S -> Z -> S) (s : S) : S :=
  fold_left body (seqZ lo (hi - lo)) s.

(** The object [availableColors] stored under 'bm-available-colors'.
    [extraColorsBitmap] is the result of [parseInt(..., 10)]: an integer,
    or [None] for [NaN] (field missing or not numeric). *)
Definition availableColors (extraColorsBitmap : option Z) : gmap Z bool :=
  let always :=
    forRange 0 mediumGrayIndex (fun acc i => <[i := true]> acc) ∅ in
  match extraColorsBitmap with
  | Some n =>
      let bits := binaryBitmap (toUint32 n) in
      let fromBits :=
        forRange 0 (Z.of_nat (length bits))
          (fun acc i =>
             let colorIndex := mediumGrayIndex + i in
             if colorIndex <? totalColors
             then <[colorIndex := bool_decide (bits !! Z.to_nat i = Some true)]> acc
             else acc)
          always in
      forRange (mediumGrayIndex + Z.of_nat (length bits)) totalColors
        (fun acc i => <[i := false]> acc) fromBits
  | None =>
      forRange mediumGrayIndex totalColors (fun acc i => <[i := false]> acc) always
  end.

(** *** executeQuickPaint: filtering, sampling, queue update *)

(** [pixel.colorId === 0 || availableColors[pixel.colorId]] *)
Definition paintable (available : gmap Z bool) (pixel : pixelData) : bool :=
  (colorId pixel =? 0) || bool_decide (available !! colorId pixel = Some true).

Definition filteredQueue (available : gmap Z bool)
    (fullPixelQueue : list pixelData) : list pixelData :=
  List.filter (paintable available) fullPixelQueue.

(** [Array.prototype.sort] with a comparator [(a, b) => score(b) - score(a)]:
    the stable sort by descending score.  An element is moved behind the
    elements of strictly larger score only. *)
Fixpoint insertDesc {A : Type} (score : A -> R) (x : A) (l : list A) : list A :=
  match l with
  | [] => [x]
  | y :: l' =>
      if Rlt_dec (score x) (score y) then y :: insertDesc score x l'
      else x :: y :: l'
  end.

Fixpoint sortDesc {A : Type} (score : A -> R) (l : list A) : list A :=
  match l with
  | [] => []
  | x :: l' => insertDesc score x (sortDesc score l')
  end.

(** The weight of rank [i] in a sorted queue of length [L]. *)
Definition weight (L : nat) (i : nat) : R :=
  if (1 <? L)%nat then (-2 / (INR L - 1) * INR i + 3)%R else 1%R.

Record weightedItem := mkItem { pixel : pixelData; key : R }.

(** [sortedQueue.map((pixel, i) => ...)]; [random i] is the value of the
    call of [Math.random()] made for index [i]. *)
Definition weightedItems (random : nat -> R) (sortedQueue : list pixelData)
  : list weightedItem :=
  imap (fun i pixel =>
          let u := random i in
          mkItem pixel (Math_pow u (1 / weight (length sortedQueue) i)))
       sortedQueue.

(** The pixels chosen by step 4 of [executeQuickPaint]; the function
    returns before this step, painting nothing, when the filtered queue is
    empty or [paintCount] is zero. *)
Definition pixelsToPaint (random : nat -> R) (filtered : list pixelData)
    (paintCount : Z) : list pixelData :=
  if (length filtered =? 0)%nat || (paintCount =? 0) then []
  else
    let sortedQueue := sortDesc priority filtered in
    let numToPaint := Z.min paintCount (Z.of_nat (length sortedQueue)) in
    if 0 <? numToPaint then
      pixel <$> take (Z.to_nat numToPaint)
                     (sortDesc key (weightedItems random sortedQueue))
    else [].

(** [`${p.tileCoords.join(',')}-${p.pixelCoords.join(',')}`] *)
Definition pixelKey (p : pixelData) : string :=
  pretty (tileCoords p).1 +:+ "," +:+ pretty (tileCoords p).2 +:+ "-" +:+
  pretty (pixelCoords p).1 +:+ "," +:+ pretty (pixelCoords p).2.

Definition removeKeys (keys : gset string) (queue : list pixelData)
  : list pixelData :=
  filter (fun p => pixelKey p ∉ keys) queue.

(** Step 6: the queue after the pixels in [painted] have been submitted. *)
Definition removePainted (painted queue : list pixelData) : list pixelData :=
  let paintedPixelKeys : gset string := list_to_set (pixelKey <$> painted) in
  removeKeys paintedPixelKeys queue.

(** *** executeQuickPaint: the budget *)

(** [parseInt(paintCountInput?.value, 10) || 0]; the argument is the result
    of [parseInt], [None] for [NaN]. *)
Definition reservedCharges (parsed : option Z) : Z :=
  match parsed with
  | Some n => if n =? 0 then 0 else n
  | None => 0
  end.

(** [Math.max(0, this.currentCharges - reservedCharges)] *)
Definition paintCount (currentCharges : Z) (parsed : option Z) : Z :=
  Z.max 0 (currentCharges - reservedCharges parsed).

(** *** executeQuickPaint: the requests *)

(** The value of a [tilesToPaint] entry. *)
Record group := mkGroup { colors : list Z; coords : list Z }.

(** [pixel.tileCoords.join(',')] *)
Definition tileKey (p : pixelData) : string :=
  pretty (tileCoords p).1 +:+ "," +:+ pretty (tileCoords p).2.

(** One iteration of the grouping loop on the [Map], kept as the list of
    its entries in insertion order: the entry of the key is created at the
    end if missing, then the pixel is pushed on it. *)
Fixpoint pushToGroup (tile : string) (p : pixelData)
    (tiles : list (string * group)) : list (string * group) :=
  match tiles with
  | [] => [(tile, mkGroup [colorId p] [(pixelCoords p).1; (pixelCoords p).2])]
  | (k, g) :: rest =>
      if String.eqb k tile
      then (k, mkGroup (colors g ++ [colorId p])
                       (coords g ++ [(pixelCoords p).1; (pixelCoords p).2]))
           :: rest
      else (k, g) :: pushToGroup tile p rest
  end.

Definition tilesToPaint (selected : list pixelData)
  : list (string * group) :=
  fold_left (fun tiles p => pushToGroup (tileKey p) p tiles) selected [].

(** The payload of [burnTenCharges]: ten transparent pixels at random
    coordinates; [random k] is the value of the [k]-th call of
    [Math.random()]. *)
Definition burnPayload (random : nat -> R) : group :=
  fold_left
    (fun g i =>
       let px := Math_floor (random (2 * i)%nat * 1000) in
       let py := Math_floor (random (2 * i + 1)%nat * 1000) in
       mkGroup (colors g ++ [0]) (coords g ++ [px; py]))
    (seq 0 10) (mkGroup [] []).

(** *** The selection of the earlier revision

    [executeQuickPaint] of the earlier revision (src/src/apiManager.js)
    takes the head of the queue sorted by descending priority:
    [sortedQueue.slice(0, Math.min(paintCount, sortedQueue.length))]; it
    returns before that when the filtered queue is empty. *)
Definition pixelsToPaintEarlier (filtered : list pixelData)
    (currentCharges : Z) (parsed : option Z) : list pixelData :=
  if (length filtered =? 0)%nat then []
  else
    let sortedQueue := sortDesc priority filtered in
    take (Z.to_nat (Z.min (paintCount currentCharges parsed)
                          (Z.of_nat (length sortedQueue))))
         sortedQueue.

End ApiManager.

(** ** autoPainter.js: the controller *)

Module AutoPainter.

(** What the controller does to the page and to local storage. *)
Inductive action :=
| Reload                (* window.location.reload() *)
| SetNetworkPaused      (* localStorage 'bm-network-paused' := 'true' *)
| ClearNetworkPaused    (* localStorage.removeItem('bm-network-paused') *)
| Wait (ms : Z).        (* waitUnlessStopped(ms) *)

Record painter := mkPainter {
  isPainting : bool;
  failureCount : Z;
  failureThreshold : Z;
  trace : list action
}.

Definition constructor : painter := mkPainter false 0 3 [].

Definition emit (acts : list action) (s : painter) : painter :=
  mkPainter (isPainting s) (failureCount s) (failureThreshold s)
            (trace s ++ acts).

Definition setPainting (v : bool) (s : painter) : painter :=
  mkPainter v (failureCount s) (failureThreshold s) (trace s).

Definition setFailureCount (n : Z) (s : painter) : painter :=
  mkPainter (isPainting s) n (failureThreshold s) (trace s).

(** [stop()] *)
Definition stop (s : painter) : painter :=
  if isPainting s then setPainting false s else s.

(** [onQuickPaintFinished()] *)
Definition onQuickPaintFinished (s : painter) : painter := setFailureCount 0 s.

(** How a call of [waitUnlessStopped] ends: the time elapsed, with
    [isPainting] as it is then, or the wait was cut short because [stop()]
    had been called. *)
Inductive waitResult := Elapsed (stillPainting : bool) | Aborted.

Definition waitUnlessStopped (ms : Z) (w : waitResult) (s : painter)
  : bool * painter :=
  match w with
  | Elapsed still => (true, setPainting still (emit [Wait ms] s))
  | Aborted => (false, setPainting false (emit [Wait ms] s))
  end.

(** What one iteration of the [while] loop of [paintCycle] meets: no map
    canvas on the page; an awaited step of the [try] block rejecting
    (a button that never became clickable, or the cancellation poll), with
    [isPainting] as the [catch] block finds it; or the quick-paint promise
    resolving, with the interval read by [getIntervalMs].  Each carries the
    result of the wait the iteration may perform. *)
Inductive attempt :=
| CanvasMissing (w : waitResult)
| StepFailed (stillPainting : bool) (w : waitResult)
| QuickPaintDone (ms : Z) (w : waitResult).

Inductive control := Continue | Break.

(** The body of the loop. *)
Definition cycle (a : attempt) (s : painter) : control * painter :=
  match a with
  | CanvasMissing w =>
      let '(ok, s1) := waitUnlessStopped 5000 w s in
      if ok then (Continue, s1) else (Break, s1)
  | QuickPaintDone ms w =>
      let s1 := setFailureCount 0 s in
      if 0 <? ms then
        let '(waited, s2) := waitUnlessStopped ms w (emit [SetNetworkPaused] s1) in
        if waited then (Break, emit [ClearNetworkPaused; Reload] s2)
        else (Break, emit [ClearNetworkPaused] s2)
      else (Continue, s1)
  | StepFailed stillPainting w =>
      let s0 := setPainting stillPainting s in
      if negb (isPainting s0) then (Break, s0)
      else
        let s1 := setFailureCount (failureCount s0 + 1) s0 in
        if failureThreshold s1 <=? failureCount s1 then (Break, emit [Reload] s1)
        else
          let '(ok, s2) :=
            waitUnlessStopped 10000 w (emit [SetNetworkPaused] s1) in
          let s3 := emit [ClearNetworkPaused] s2 in
          if ok then (Continue, s3) else (Break, s3)
  end.

(** [paintCycle()] against a script of attempts.  [Break] together with
    the final painter when the loop has been left, [Continue] when the
    script ends with the loop still running. *)
Fixpoint paintCycle (attempts : list attempt) (s : painter) : control * painter :=
  if isPainting s then
    match attempts with
    | [] => (Continue, s)
    | a :: rest =>
        match cycle a s with
        | (Continue, s') => paintCycle rest s'
        | (Break, s') => (Break, setPainting false s')
        end
    end
  else (Break, setPainting false s).

(** [start()], followed by the loop it launches. *)
Definition start (s : painter) : painter :=
  if isPainting s then s else setFailureCount 0 (setPainting true s).

Definition run (attempts : list attempt) (s : painter) : control * painter :=
  if isPainting s then (Continue, s) else paintCycle attempts (start s).

Definition reloads (s : painter) : nat :=
  length (List.filter (fun a => match a with Reload => true | _ => false end)
                      (trace s)).

End AutoPainter.

(** * Properties *)

(** ** Nearest palette colour *)

Section ClosestColor.
Import Utils.

Definition colorpaletteRGB0 : list (option RGB) :=
  Eval vm_compute in
    match initializePalettes None with Some p => p | None => [] end.

(** What the loop has established after visiting the entries of [l]. *)
Definition scanned (c : RGB) (l : list (option RGB)) (st : search) : Prop :=
  match minDistanceSq st with
  | None => closestColorIndex st = -1 /\ (length l <= 1)%nat
  | Some d =>
      exists (i : nat) (p : RGB),
        closestColorIndex st = Z.of_nat i /\ (1 <= i)%nat /\
        l !! i = Some (Some p) /\ d = distanceSq c p /\
        forall (j : nat) (q : RGB),
          (1 <= j)%nat -> l !! j = Some (Some q) ->
          d <= distanceSq c q /\ ((j < i)%nat -> d < distanceSq c q)
  end.

Lemma scanned_snoc_skip c pre x st :
  length pre = 0%nat -> scanned c pre st -> minDistanceSq st = None ->
  scanned c (pre ++ [x]) st.
Proof.
  unfold scanned. intros Hlen Hs Hm. rewrite Hm in *.
  destruct Hs as [Hi _]. split; [exact Hi|].
  rewrite length_app, Hlen. simpl. lia.
Qed.

Lemma scanned_snoc_keep c pre p st d :
  (1 <= length pre)%nat -> minDistanceSq st = Some d ->
  d <= distanceSq c p -> scanned c pre st -> scanned c (pre ++ [Some p]) st.
Proof.
  unfold scanned. intros Hlen Hm Hle Hs. rewrite Hm in *.
  destruct Hs as (i & p0 & Hi & Hi1 & Hlk & Hd & Hmin).
  exists i, p0. split; [exact Hi|]. split; [exact Hi1|].
  split; [rewrite lookup_app_l; [exact Hlk|]; eapply lookup_lt_Some; eauto|].
  split; [exact Hd|].
  intros j q Hj1 Hq.
  destruct (decide (j < length pre)%nat) as [Hj|Hj].
  - rewrite lookup_app_l in Hq by exact Hj. apply (Hmin j q Hj1 Hq).
  - rewrite lookup_app_r in Hq by lia.
    destruct (j - length pre)%nat eqn:E; simpl in Hq;
      [|rewrite lookup_nil in Hq; discriminate].
    injection Hq as <-. split; [exact Hle|].
    intros Hji. apply lookup_lt_Some in Hlk. lia.
Qed.

Lemma scanned_snoc_take c pre p st :
  (1 <= length pre)%nat -> below (distanceSq c p) (minDistanceSq st) = true ->
  scanned c pre st ->
  scanned c (pre ++ [Some p])
    (mkSearch (Some (distanceSq c p)) (Z.of_nat (length pre))).
Proof.
  unfold scanned. intros Hlen Hb Hs. simpl.
  exists (length pre), p. split; [reflexivity|]. split; [exact Hlen|].
  split; [rewrite lookup_app_r by lia; rewrite Nat.sub_diag; reflexivity|].
  split; [reflexivity|].
  intros j q Hj Hq.
  destruct (decide (j < length pre)%nat) as [Hjl|Hjl].
  - rewrite lookup_app_l in Hq by exact Hjl.
    destruct (minDistanceSq st) as [d|] eqn:Hm.
    + simpl in Hb. apply Z.ltb_lt in Hb.
      destruct Hs as (i & p0 & _ & _ & _ & Hd & Hmin).
      destruct (Hmin j q Hj Hq) as [Hle _]. lia.
    + destruct Hs as [_ Hl]. lia.
  - rewrite lookup_app_r in Hq by lia.
    destruct (j - length pre)%nat eqn:E; simpl in Hq; [|rewrite lookup_nil in Hq; discriminate].
    injection Hq as <-. split; [lia|]. intros; lia.
Qed.

(** The loop invariant carried through the whole array. *)
Lemma forEach_scanned c suf : forall pre st,
  (forall j : nat, (1 <= j)%nat -> (pre ++ suf) !! j <> Some None) ->
  (length pre = 0%nat -> minDistanceSq st = None) ->
  scanned c pre st ->
  exists st', forEach c (Z.of_nat (length pre)) suf st = Some st' /\
              scanned c (pre ++ suf) st'.
Proof.
  induction suf as [|x suf IH]; intros pre st Hnn H0 Hs.
  - exists st. rewrite app_nil_r. split; [reflexivity|exact Hs].
  - simpl. replace (Z.of_nat (length pre) + 1) with (Z.of_nat (length (pre ++ [x])))
      by (rewrite length_app; simpl; lia).
    replace (pre ++ x :: suf) with ((pre ++ [x]) ++ suf) in * by (rewrite <- app_assoc; reflexivity).
    destruct (Z.eqb_spec (Z.of_nat (length pre)) 0) as [Hz|Hz].
    + apply (IH (pre ++ [x]) st); [exact Hnn| |].
      * rewrite length_app. simpl. lia.
      * apply scanned_snoc_skip; [lia|exact Hs|apply H0; lia].
    + destruct x as [p|].
      2:{ exfalso. apply (Hnn (length pre)); [lia|].
          rewrite <- app_assoc. rewrite lookup_app_r by lia.
          rewrite Nat.sub_diag. reflexivity. }
      destruct (below (distanceSq c p) (minDistanceSq st)) eqn:Hb.
      * apply (IH (pre ++ [Some p])); [exact Hnn| |].
        -- rewrite length_app. simpl. lia.
        -- apply (scanned_snoc_take c pre p st); [lia|exact Hb|exact Hs].
      * apply (IH (pre ++ [Some p]) st); [exact Hnn| |].
        -- rewrite length_app. simpl. lia.
        -- destruct (minDistanceSq st) as [d|] eqn:Hm; [|discriminate].
           simpl in Hb. apply Z.ltb_ge in Hb.
           eapply scanned_snoc_keep; eauto. lia.
Qed.

Lemma colorpaletteRGB0_no_null (j : nat) :
  (1 <= j)%nat -> colorpaletteRGB0 !! j <> Some None.
Proof.
  intros Hj.
  do 64 (destruct j as [|j]; [first [lia | discriminate]|]).
  discriminate.
Qed.

Lemma findClosestColor_scanned (c : RGB) :
  exists st, forEach c 0 colorpaletteRGB0 (mkSearch None (-1)) = Some st /\
             scanned c colorpaletteRGB0 st.
Proof.
  apply (forEach_scanned c colorpaletteRGB0 [] (mkSearch None (-1))).
  - intros j Hj. apply colorpaletteRGB0_no_null, Hj.
  - reflexivity.
  - simpl. split; [reflexivity|simpl; lia].
Qed.

Lemma findClosestColor_run_fresh (c : RGB) :
  findClosestColor_run None c = (Some (findClosestColor c), Some colorpaletteRGB0).
Proof.
  unfold findClosestColor, findClosestColor_run.
  change (initializePalettes None) with (Some colorpaletteRGB0).
  destruct (findClosestColor_scanned c) as (st & -> & _). reflexivity.
Qed.

Lemma colorpaletteRGB0_lookup (j : nat) (col : color) :
  (1 <= j)%nat -> colorpalette !! j = Some col ->
  colorpaletteRGB0 !! j = Some (Some (rgb col)).
Proof.
  intros Hj.
  do 64 (destruct j as [|j];
         [first [lia | intros [= <-]; reflexivity]|]).
  discriminate.
Qed.

Lemma colorpaletteRGB0_lookup_inv (j : nat) (p : RGB) :
  colorpaletteRGB0 !! j = Some (Some p) ->
  exists col, colorpalette !! j = Some col /\ rgb col = p.
Proof.
  do 64 (destruct j as [|j];
         [first [discriminate | intros [= <-]; eexists; split; reflexivity]|]).
  discriminate.
Qed.

(** C8.  [findClosestColor] never returns the transparent id 0: for every
    RGB triple it returns the index [i >= 1] of a palette entry whose
    squared Euclidean distance to the triple is minimal among all entries
    other than entry 0, and every such entry placed before [i] is strictly
    farther (first minimal entry in palette order).  The id does not depend
    on whether the palette cache has been filled already, so repeated calls
    on the same triple return the same id. *)
Theorem findClosestColor_nearest (c : RGB) :
  findClosestColor c <> 0 /\
  (exists (i : nat) (col : color),
      findClosestColor c = Z.of_nat i /\ (1 <= i)%nat /\
      colorpalette !! i = Some col /\
      forall (j : nat) (col' : color),
        (1 <= j)%nat -> colorpalette !! j = Some col' ->
        distanceSq c (rgb col) <= distanceSq c (rgb col') /\
        ((j < i)%nat -> distanceSq c (rgb col) < distanceSq c (rgb col'))) /\
  findClosestColor_run None c
    = (Some (findClosestColor c), Some colorpaletteRGB0) /\
  findClosestColor_run (Some colorpaletteRGB0) c
    = (Some (findClosestColor c), Some colorpaletteRGB0).
Proof.
  pose proof (findClosestColor_run_fresh c) as Hrun.
  assert (Hex : exists (i : nat) (col : color),
      findClosestColor c = Z.of_nat i /\ (1 <= i)%nat /\
      colorpalette !! i = Some col /\
      forall (j : nat) (col' : color),
        (1 <= j)%nat -> colorpalette !! j = Some col' ->
        distanceSq c (rgb col) <= distanceSq c (rgb col') /\
        ((j < i)%nat -> distanceSq c (rgb col) < distanceSq c (rgb col'))).
  { destruct (findClosestColor_scanned c) as (st & Hst & Hsc).
    assert (Hid : findClosestColor c = closestColorIndex st).
    { unfold findClosestColor, findClosestColor_run.
      change (initializePalettes None) with (Some colorpaletteRGB0).
      cbv beta iota zeta. rewrite Hst. reflexivity. }
    unfold scanned in Hsc. destruct (minDistanceSq st) as [d|].
    - destruct Hsc as (i & p & Hi & Hi1 & Hlk & Hd & Hmin).
      destruct (colorpaletteRGB0_lookup_inv i p Hlk) as (col & Hcol & Hrgb).
      exists i, col. split; [congruence|]. split; [exact Hi1|].
      split; [exact Hcol|]. intros j col' Hj Hcol'.
      rewrite Hrgb, <- Hd.
      apply (Hmin j (rgb col') Hj), colorpaletteRGB0_lookup; assumption.
    - destruct Hsc as [_ Hlen]. simpl in Hlen. lia. }
  split; [|split; [exact Hex|split; [exact Hrun|]]].
  - destruct Hex as (i & _ & Hi & Hi1 & _). lia.
  - rewrite <- Hrun. reflexivity.
Qed.

(** Pure red maps to "Red"; black maps to "Black", not to the transparent
    entry that carries the same RGB; (20, 70, 0) is equally far from
    "Black" and "Dark Gray" and maps to the earlier of the two. *)
Example findClosestColor_red : findClosestColor (255, 0, 0) = 7.
Proof. vm_compute. reflexivity. Qed.

Example findClosestColor_black : findClosestColor (0, 0, 0) = 1.
Proof. vm_compute. reflexivity. Qed.

Example findClosestColor_tie :
  distanceSq (20, 70, 0) (0, 0, 0) = distanceSq (20, 70, 0) (60, 60, 60) /\
  findClosestColor (20, 70, 0) = 1.
Proof. vm_compute. split; reflexivity. Qed.

End ClosestColor.

(** ** The colour-cache key *)

Section ColorKey.
Import Utils TemplateManager.

(** Channel values of a [Uint8ClampedArray]. *)
Definition isByte (z : Z) : Prop := 0 <= z < 256.

Lemma land_shifted_low (x y k : Z) :
  0 <= k -> 0 <= y < 2 ^ k -> Z.land (x * 2 ^ k) y = 0.
Proof.
  intros Hk Hy. apply Z.bits_inj'. intros n Hn.
  rewrite Z.land_spec, Z.bits_0.
  destruct (Z.lt_ge_cases n k) as [Hlt|Hge].
  - rewrite Z.mul_pow2_bits_low by lia. reflexivity.
  - replace y with (y mod 2 ^ k) by (apply Z.mod_small; lia).
    rewrite Z.mod_pow2_bits_high by lia. apply andb_false_r.
Qed.

Lemma toInt32_small (z : Z) : - 2 ^ 31 <= z < 2 ^ 31 -> toInt32 z = z.
Proof. intros Hz. unfold toInt32. rewrite Z.mod_small; lia. Qed.

Lemma toInt32_wrap (z : Z) : 2 ^ 31 <= z < 2 ^ 32 -> toInt32 z = z - 2 ^ 32.
Proof.
  intros Hz. unfold toInt32.
  replace (z + 2 ^ 31) with ((z - 2 ^ 31) + 1 * 2 ^ 32) by lia.
  rewrite Z.mod_add by lia. rewrite Z.mod_small; lia.
Qed.

(** On channel values the key is the signed 32-bit number whose four bytes
    are alpha, blue, green and red. *)
Lemma templateColorKey_sum (a r g b : Z) :
  isByte a -> isByte r -> isByte g -> isByte b ->
  templateColorKey a r g b
  = (if 128 <=? a then a - 256 else a) * 2 ^ 24 + b * 2 ^ 16 + g * 2 ^ 8 + r.
Proof.
  unfold isByte, templateColorKey. intros Ha Hr Hg Hb.
  rewrite !Z.shiftl_mul_pow2 by lia.
  assert (Ea : toInt32 (a * 2 ^ 24)
               = (if 128 <=? a then a - 256 else a) * 2 ^ 24).
  { destruct (Z.leb_spec 128 a).
    - rewrite toInt32_wrap; lia.
    - rewrite toInt32_small; lia. }
  rewrite Ea, !toInt32_small by lia.
  set (a' := if 128 <=? a then a - 256 else a).
  rewrite <- (Z.add_nocarry_lor (a' * 2 ^ 24) (b * 2 ^ 16))
    by (apply land_shifted_low; lia).
  replace (a' * 2 ^ 24 + b * 2 ^ 16) with ((a' * 2 ^ 8 + b) * 2 ^ 16) by lia.
  rewrite <- (Z.add_nocarry_lor _ (g * 2 ^ 8)) by (apply land_shifted_low; lia).
  replace ((a' * 2 ^ 8 + b) * 2 ^ 16 + g * 2 ^ 8)
    with ((a' * 2 ^ 16 + b * 2 ^ 8 + g) * 2 ^ 8) by lia.
  rewrite <- (Z.add_nocarry_lor _ r) by (apply land_shifted_low; lia).
  lia.
Qed.

(** Equal keys carry equal colours. *)
Lemma templateColorKey_rgb (a r g b a' r' g' b' : Z) :
  isByte a -> isByte r -> isByte g -> isByte b ->
  isByte a' -> isByte r' -> isByte g' -> isByte b' ->
  templateColorKey a r g b = templateColorKey a' r' g' b' ->
  (r, g, b) = (r', g', b').
Proof.
  intros Ha Hr Hg Hb Ha' Hr' Hg' Hb'.
  rewrite !templateColorKey_sum by assumption.
  unfold isByte in *. intros E.
  assert (r = r' /\ g = g' /\ b = b') as (-> & -> & ->); [|reflexivity].
  destruct (128 <=? a), (128 <=? a'); lia.
Qed.

(** Every entry of the cache is the answer [findClosestColor] gives for
    the colour of its key. *)
Definition cache_ok (cache : gmap Z Z) : Prop :=
  forall a r g b v,
    isByte a -> isByte r -> isByte g -> isByte b ->
    cache !! templateColorKey a r g b = Some v ->
    v = findClosestColor (r, g, b).

Lemma cache_ok_empty : cache_ok ∅.
Proof. intros a r g b v _ _ _ _ H. rewrite lookup_empty in H. discriminate. Qed.

Lemma cache_ok_insert (cache : gmap Z Z) (a r g b : Z) :
  isByte a -> isByte r -> isByte g -> isByte b ->
  cache_ok cache ->
  cache_ok (<[templateColorKey a r g b := findClosestColor (r, g, b)]> cache).
Proof.
  intros Ha Hr Hg Hb Hok a' r' g' b' v Ha' Hr' Hg' Hb' Hlk.
  destruct (decide (templateColorKey a r g b = templateColorKey a' r' g' b'))
    as [E|E].
  - rewrite E, lookup_insert_eq in Hlk. injection Hlk as <-.
    f_equal. apply (templateColorKey_rgb a r g b a' r' g' b'); assumption.
  - rewrite lookup_insert_ne in Hlk by exact E.
    apply (Hok a' r' g' b' v); assumption.
Qed.

End ColorKey.

(** ** One pass of the tile analyzer *)

(** The outcomes of the classification, in the order of precedence of the
    specification: grief-clean, new placement, colour correction; no
    candidate is [None]. *)
Inductive tier := GriefClean | NewPlacement | ColorCorrection.

Section TileAnalysis.
Import Utils TemplateManager.

Variables (templateImageData gameImageData : Z -> Z).
Variable tile : Z * Z.
Variable analyzeTransparent : bool.
Variable b : rect.

Hypothesis template_bytes : forall i, isByte (templateImageData i).

(** The centre samples of pixel [(x, y)]. *)
Definition templateRGB (x y : Z) : RGB :=
  (templateImageData (centerIndex x y), templateImageData (centerIndex x y + 1),
   templateImageData (centerIndex x y + 2)).

Definition gameRGB (x y : Z) : RGB :=
  (gameImageData (centerIndex x y), gameImageData (centerIndex x y + 1),
   gameImageData (centerIndex x y + 2)).

Definition templateAlpha (x y : Z) : Z := templateImageData (centerIndex x y + 3).
Definition gameAlpha (x y : Z) : Z := gameImageData (centerIndex x y + 3).

Definition keyAt (x y : Z) : Z :=
  templateColorKey (templateAlpha x y) (templateImageData (centerIndex x y))
    (templateImageData (centerIndex x y + 1))
    (templateImageData (centerIndex x y + 2)).

Definition tierAt (x y : Z) : option tier :=
  if analyzeTransparent && (templateAlpha x y <? 128) && (0 <? gameAlpha x y)
  then Some GriefClean
  else if (128 <? templateAlpha x y) && (gameAlpha x y <? 128)
  then Some NewPlacement
  else if (128 <? templateAlpha x y) && (128 <=? gameAlpha x y)
          && negb (findClosestColor (gameRGB x y)
                   =? findClosestColor (templateRGB x y))
  then Some ColorCorrection
  else None.

(** The candidate for one pixel when nothing is cached yet. *)
Definition candidateAt (x y : Z) : option pixelData :=
  fst (analyzePixel templateImageData gameImageData tile
                    analyzeTransparent b ∅ x y).

(** What the loop body emits, outcome by outcome. *)
Lemma candidateAt_tier (x y : Z) :
  candidateAt x y =
  match tierAt x y with
  | Some GriefClean => Some (mkPixelData tile (x, y) 0 2000000)
  | Some NewPlacement =>
      Some (mkPixelData tile (x, y) (findClosestColor (templateRGB x y))
                        (1000000 + centerBonus b x y))
  | Some ColorCorrection =>
      Some (mkPixelData tile (x, y) (findClosestColor (templateRGB x y))
              (colorPriority
                 (calculateColorDifference (gameRGB x y) (templateRGB x y))
               + centerBonus b x y))
  | None => None
  end.
Proof.
  unfold candidateAt, analyzePixel, tierAt, templateAlpha, gameAlpha,
    templateRGB, gameRGB. cbv zeta.
  set (index := centerIndex x y).
  destruct (analyzeTransparent && (templateImageData (index + 3) <? 128)
            && (0 <? gameImageData (index + 3))); [reflexivity|].
  destruct (128 <? templateImageData (index + 3)); [|reflexivity].
  rewrite lookup_empty, Z.leb_antisym.
  destruct (gameImageData (index + 3) <? 128); simpl; [reflexivity|].
  destruct (negb _); reflexivity.
Qed.

Lemma candidateAt_coords (x y : Z) (c : pixelData) :
  candidateAt x y = Some c -> pixelCoords c = (x, y).
Proof.
  rewrite candidateAt_tier.
  destruct (tierAt x y) as [[| |]|]; intros [= <-]; reflexivity.
Qed.

(** A consistent cache changes no candidate, stays consistent, only grows,
    and afterwards holds the conversion of an opaque template sample. *)
Lemma analyzePixel_cached (cache : gmap Z Z) (x y : Z) :
  cache_ok cache ->
  fst (analyzePixel templateImageData gameImageData tile
                    analyzeTransparent b cache x y) = candidateAt x y /\
  cache_ok (snd (analyzePixel templateImageData gameImageData tile
                              analyzeTransparent b cache x y)) /\
  cache ⊆ snd (analyzePixel templateImageData gameImageData tile
                            analyzeTransparent b cache x y) /\
  (128 < templateAlpha x y ->
   snd (analyzePixel templateImageData gameImageData tile
                     analyzeTransparent b cache x y) !! keyAt x y
   = Some (findClosestColor (templateRGB x y))).
Proof.
  intros Hok.
  unfold candidateAt, analyzePixel, keyAt, templateAlpha, templateRGB. cbv zeta.
  set (index := centerIndex x y).
  destruct (Z.ltb_spec 128 (templateImageData (index + 3))) as [Hlt|Hle].
  2:{ destruct (analyzeTransparent && (templateImageData (index + 3) <? 128)
                && (0 <? gameImageData (index + 3)));
        (split; [reflexivity|split; [exact Hok|split; [reflexivity|lia]]]). }
  replace (templateImageData (index + 3) <? 128) with false
    by (symmetry; apply Z.ltb_ge; lia).
  rewrite andb_false_r. simpl.
  rewrite lookup_empty.
  destruct (cache !! templateColorKey (templateImageData (index + 3))
                      (templateImageData index) (templateImageData (index + 1))
                      (templateImageData (index + 2))) as [v|] eqn:Hlk.
  - pose proof Hlk as Hv. apply Hok in Hv; try apply template_bytes. subst v.
    destruct (gameImageData (index + 3) <? 128); simpl; [auto|].
    destruct (negb _); simpl; auto.
  - assert (Hok' : cache_ok
       (<[templateColorKey (templateImageData (index + 3))
            (templateImageData index) (templateImageData (index + 1))
            (templateImageData (index + 2))
          := findClosestColor (templateImageData index,
               templateImageData (index + 1), templateImageData (index + 2))]>
          cache)) by (apply cache_ok_insert; auto).
    pose proof (insert_subseteq cache _
      (findClosestColor (templateImageData index,
         templateImageData (index + 1), templateImageData (index + 2))) Hlk)
      as Hsub.
    destruct (gameImageData (index + 3) <? 128); simpl;
      [rewrite lookup_insert_eq; auto|].
    destruct (negb _); simpl; rewrite lookup_insert_eq; auto.
Qed.

(** The pixels of the bounding rectangle in the order the loops visit
    them, and the candidates they yield. *)
Definition coordsOf : list (Z * Z) :=
  y ← seqZ (minY b) (maxY b - minY b);
  (fun x => (x, y)) <$> seqZ (minX b) (maxX b - minX b).

Definition tileCandidates : list pixelData :=
  omap (fun p => candidateAt p.1 p.2) coordsOf.

(** The cache holds the conversion of every opaque template sample among
    the listed pixels. *)
Definition memoized (cache : gmap Z Z) (ps : list (Z * Z)) : Prop :=
  forall x y, (x, y) ∈ ps -> 128 < templateAlpha x y ->
    cache !! keyAt x y = Some (findClosestColor (templateRGB x y)).

Lemma memoized_weaken (cache cache' : gmap Z Z) (ps : list (Z * Z)) :
  cache ⊆ cache' -> memoized cache ps -> memoized cache' ps.
Proof.
  intros Hsub Hm x y Hin Ha. eapply lookup_weaken; [|exact Hsub]. auto.
Qed.

Lemma pushPixel_fold (y : Z) (xs : list Z) :
  forall (acc : list pixelData) (cache : gmap Z Z),
    cache_ok cache ->
    exists cache',
      fold_left (pushPixel templateImageData gameImageData tile
                           analyzeTransparent b y) xs (acc, cache)
      = (acc ++ omap (fun x => candidateAt x y) xs, cache') /\
      cache_ok cache' /\ cache ⊆ cache' /\
      memoized cache' ((fun x => (x, y)) <$> xs).
Proof.
  induction xs as [|x xs IH]; intros acc cache Hok.
  - exists cache. simpl. rewrite app_nil_r.
    split; [reflexivity|]. split; [exact Hok|]. split; [reflexivity|].
    intros x' y' Hin. inversion Hin.
  - simpl.
    destruct (analyzePixel_cached cache x y Hok) as (Hc & Hok' & Hsub & Hmemo).
    destruct (analyzePixel templateImageData gameImageData tile
                analyzeTransparent b cache x y) as [o cache1] eqn:E.
    simpl in Hc, Hok', Hsub, Hmemo. rewrite <- Hc.
    assert (Hstep : forall acc1,
      exists cache',
        fold_left (pushPixel templateImageData gameImageData tile
                             analyzeTransparent b y) xs (acc1, cache1)
        = (acc1 ++ omap (fun x => candidateAt x y) xs, cache') /\
        cache_ok cache' /\ cache ⊆ cache' /\
        memoized cache' ((x, y) :: ((fun x => (x, y)) <$> xs))).
    { intros acc1. destruct (IH acc1 cache1 Hok') as (cache' & Hf & Hok2 & Hsub2 & Hm2).
      exists cache'. split; [exact Hf|]. split; [exact Hok2|].
      split; [etrans; eassumption|].
      intros x' y' Hin Ha. apply elem_of_cons in Hin as [[= -> ->]|Hin].
      - eapply lookup_weaken; [apply Hmemo, Ha|exact Hsub2].
      - apply Hm2; assumption. }
    destruct o as [pixel|].
    + destruct (Hstep (acc ++ [pixel])) as (cache' & -> & Hrest).
      exists cache'. rewrite <- app_assoc. simpl. split; [reflexivity|exact Hrest].
    + destruct (Hstep acc) as (cache' & -> & Hrest).
      exists cache'. split; [reflexivity|exact Hrest].
Qed.

Lemma omap_row (y : Z) (xs : list Z) :
  omap (fun x => candidateAt x y) xs
  = omap (fun p => candidateAt p.1 p.2) ((fun x => (x, y)) <$> xs).
Proof.
  induction xs as [|x xs IH]; [reflexivity|]. cbn. rewrite IH. reflexivity.
Qed.

Lemma rowLoop_fold (ys : list Z) :
  forall (acc : list pixelData) (cache : gmap Z Z),
    cache_ok cache ->
    exists cache',
      fold_left (rowLoop templateImageData gameImageData tile
                         analyzeTransparent b) ys (acc, cache)
      = (acc ++ omap (fun p => candidateAt p.1 p.2)
                  (y ← ys; (fun x => (x, y)) <$> seqZ (minX b) (maxX b - minX b)),
         cache') /\
      cache_ok cache' /\ cache ⊆ cache' /\
      memoized cache'
        (y ← ys; (fun x => (x, y)) <$> seqZ (minX b) (maxX b - minX b)).
Proof.
  induction ys as [|y ys IH]; intros acc cache Hok.
  - exists cache. simpl. rewrite app_nil_r.
    split; [reflexivity|]. split; [exact Hok|]. split; [reflexivity|].
    intros x' y' Hin. inversion Hin.
  - simpl. unfold rowLoop at 2.
    destruct (pushPixel_fold y (seqZ (minX b) (maxX b - minX b)) acc cache Hok)
      as (cache1 & -> & Hok1 & Hsub1 & Hm1).
    destruct (IH (acc ++ omap (fun x => candidateAt x y)
                          (seqZ (minX b) (maxX b - minX b))) cache1 Hok1)
      as (cache' & -> & Hok2 & Hsub2 & Hm2).
    exists cache'. split; [|split; [exact Hok2|split; [etrans; eassumption|]]].
    + f_equal. rewrite <- app_assoc. f_equal.
      rewrite omap_app. f_equal. apply omap_row.
    + intros x' y' Hin Ha. apply elem_of_app in Hin as [Hin|Hin].
      * eapply lookup_weaken; [apply (Hm1 x' y' Hin Ha)|exact Hsub2].
      * apply Hm2; assumption.
Qed.

(** The two loops produce exactly the candidates of the rectangle's
    pixels, in row-major order. *)
Lemma tileLoop_candidates (cache : gmap Z Z) :
  cache_ok cache ->
  exists cache',
    tileLoop templateImageData gameImageData tile
             analyzeTransparent b cache = (tileCandidates, cache') /\
    cache_ok cache' /\ cache ⊆ cache' /\ memoized cache' coordsOf.
Proof.
  intros Hok. unfold tileLoop.
  destruct (rowLoop_fold (seqZ (minY b) (maxY b - minY b)) [] cache Hok)
    as (cache' & -> & Hrest).
  exists cache'. split; [reflexivity|exact Hrest].
Qed.

Lemma elem_of_coordsOf (x y : Z) :
  (x, y) ∈ coordsOf <-> (minX b <= x < maxX b /\ minY b <= y < maxY b).
Proof.
  unfold coordsOf. rewrite list_elem_of_bind. split.
  - intros (y' & Hx & Hy). apply list_elem_of_fmap in Hx as (x' & [= -> ->] & Hx).
    apply elem_of_seqZ in Hx. apply elem_of_seqZ in Hy. lia.
  - intros [Hx Hy]. exists y. split.
    + apply list_elem_of_fmap. exists x. split; [reflexivity|].
      apply elem_of_seqZ. lia.
    + apply elem_of_seqZ. lia.
Qed.

Lemma NoDup_coordsOf : NoDup coordsOf.
Proof.
  unfold coordsOf. apply NoDup_bind.
  - intros y1 y2 [x y] _ _ H1 H2.
    apply list_elem_of_fmap in H1 as (? & [= _ ->] & _).
    apply list_elem_of_fmap in H2 as (? & [= _ ->] & _). reflexivity.
  - intros y _. apply NoDup_fmap; [intros ? ? [= ->]; reflexivity|].
    apply NoDup_seqZ.
  - apply NoDup_seqZ.
Qed.

Lemma elem_of_tileCandidates (c : pixelData) :
  c ∈ tileCandidates <->
  exists x y, (minX b <= x < maxX b /\ minY b <= y < maxY b) /\
              candidateAt x y = Some c.
Proof.
  unfold tileCandidates. rewrite list_elem_of_omap. split.
  - intros ([x y] & Hin & Hc). exists x, y.
    split; [apply elem_of_coordsOf, Hin|exact Hc].
  - intros (x & y & Hin & Hc). exists (x, y).
    split; [apply elem_of_coordsOf, Hin|exact Hc].
Qed.

End TileAnalysis.

(** ** The centre bonus *)

Section CenterBonus.
Import TemplateManager.
Open Scope R_scope.

Lemma pow2_mult (u : R) : u ^ 2 = u * u.
Proof. ring. Qed.

(** Inside the bounding rectangle the bonus lies between 0 and 500000. *)
Lemma centerBonus_range (b : rect) (x y : Z) :
  (minX b <= x < maxX b)%Z -> (minY b <= y < maxY b)%Z ->
  0 <= centerBonus b x y <= 500000.
Proof.
  intros [Hx0 Hx1] [Hy0 Hy1].
  apply IZR_le in Hx0, Hy0. apply IZR_lt in Hx1, Hy1.
  unfold centerBonus, maxDist, centerX, centerY.
  rewrite !pow2_mult.
  set (X0 := IZR (minX b)) in *. set (X1 := IZR (maxX b)) in *.
  set (Y0 := IZR (minY b)) in *. set (Y1 := IZR (maxY b)) in *.
  set (dx := IZR x - (X0 + (X1 - X0) / 2)).
  set (dy := IZR y - (Y0 + (Y1 - Y0) / 2)).
  set (hx := X1 - (X0 + (X1 - X0) / 2)).
  set (hy := Y1 - (Y0 + (Y1 - Y0) / 2)).
  assert (Hdx : - hx <= dx < hx) by (unfold dx, hx; lra).
  assert (Hdy : - hy <= dy < hy) by (unfold dy, hy; lra).
  clearbody dx dy hx hy.
  assert (HA : 0 <= dx * dx + dy * dy) by nra.
  assert (HAM : dx * dx + dy * dy <= hx * hx + hy * hy) by nra.
  assert (HM : 0 < hx * hx + hy * hy) by nra.
  pose proof (sqrt_pos (dx * dx + dy * dy)) as HsA.
  pose proof (sqrt_lt_R0 _ HM) as HsM.
  pose proof (sqrt_le_1 _ _ HA (Rlt_le _ _ HM) HAM) as Hle.
  destruct (Rlt_dec 0 (sqrt (hx * hx + hy * hy))) as [_|Hn]; [|lra].
  assert (Hn0 : 0 <= sqrt (dx * dx + dy * dy) / sqrt (hx * hx + hy * hy)).
  { apply Rmult_le_pos; [exact HsA|]. left. apply Rinv_0_lt_compat, HsM. }
  assert (Hn1 : sqrt (dx * dx + dy * dy) / sqrt (hx * hx + hy * hy) <= 1).
  { apply (Rmult_le_reg_r (sqrt (hx * hx + hy * hy))); [exact HsM|].
    unfold Rdiv. rewrite Rmult_assoc, Rinv_l by lra. lra. }
  lra.
Qed.

End CenterBonus.

(** ** analyzeTile *)

Section ListFacts.

Context {A B K : Type} `{EqDecision K}.

Lemma filter_omap_key (f : A -> option B) (key : B -> K) (g : A -> K)
    (k : K) (l : list A) :
  (forall a c, f a = Some c -> key c = g a) ->
  filter (fun c => key c = k) (omap f l)
  = omap f (filter (fun a => g a = k) l).
Proof.
  intros Hkey. induction l as [|a l IH]; [reflexivity|].
  change (omap f (a :: l))
    with (match f a with Some c => c :: omap f l | None => omap f l end).
  rewrite (filter_cons (fun a => g a = k) a l).
  destruct (f a) as [c|] eqn:Hf.
  - rewrite filter_cons, (Hkey a c Hf).
    destruct (decide (g a = k)); [|exact IH].
    change (omap f (a :: filter (fun a => g a = k) l))
      with (match f a with
            | Some c => c :: omap f (filter (fun a => g a = k) l)
            | None => omap f (filter (fun a => g a = k) l)
            end).
    rewrite Hf, IH. reflexivity.
  - destruct (decide (g a = k)); [|exact IH].
    change (omap f (a :: filter (fun a => g a = k) l))
      with (match f a with
            | Some c => c :: omap f (filter (fun a => g a = k) l)
            | None => omap f (filter (fun a => g a = k) l)
            end).
    rewrite Hf. exact IH.
Qed.

Lemma filter_none (k : K) (l : list K) :
  k ∉ l -> filter (fun a => a = k) l = [].
Proof.
  induction l as [|a l IH]; intros Hk; [reflexivity|].
  rewrite filter_cons. apply not_elem_of_cons in Hk as [Hne Hk].
  destruct (decide (a = k)); [congruence|]. apply IH, Hk.
Qed.

Lemma filter_eq_NoDup (k : K) (l : list K) :
  NoDup l -> k ∈ l -> filter (fun a => a = k) l = [k].
Proof.
  induction 1 as [|a l Hnotin Hnd IH]; intros Hin; [inversion Hin|].
  rewrite filter_cons. destruct (decide (a = k)) as [->|Hne].
  - f_equal. apply filter_none, Hnotin.
  - apply elem_of_cons in Hin as [->|Hin]; [contradiction|]. apply IH, Hin.
Qed.

End ListFacts.

Section AnalyzeTile.
Import Utils TemplateManager.
Open Scope R_scope.

Variable m : manager.
Variables (gameImageData templateImageData : Z -> Z).
Variable templatesToDraw : list chunk.
Variable tile : (Z * Z)%type.

Hypothesis template_bytes : forall i, isByte (templateImageData i).
Hypothesis cache_consistent : cache_ok (templateColorCache m).
(** [analyzeTile] returns the candidates of the pixels of the bounding
    rectangle (none when there is no chunk: the rectangle is then empty)
    and a cache that extends the old one. *)
Lemma analyzeTile_candidates :
  fst (analyzeTile m gameImageData templateImageData
                   templatesToDraw tile)
  = tileCandidates templateImageData gameImageData tile
      (analyzeTransparentPixels m) (boundingRect templatesToDraw) /\
  cache_ok (templateColorCache
              (snd (analyzeTile m gameImageData templateImageData
                                templatesToDraw tile))) /\
  templateColorCache m ⊆
    templateColorCache
      (snd (analyzeTile m gameImageData templateImageData
                        templatesToDraw tile)) /\
  memoized templateImageData
    (templateColorCache
       (snd (analyzeTile m gameImageData templateImageData
                         templatesToDraw tile)))
    (coordsOf (boundingRect templatesToDraw)).
Proof.
  unfold analyzeTile.
  destruct templatesToDraw as [|t ts] eqn:E.
  { simpl. split; [reflexivity|]. split; [exact cache_consistent|].
    split; [reflexivity|]. intros x y Hin. inversion Hin. }
  rewrite <- E.
  destruct (tileLoop_candidates templateImageData gameImageData tile
              (analyzeTransparentPixels m) (boundingRect templatesToDraw)
              template_bytes (templateColorCache m) cache_consistent)
    as (cache' & -> & Hrest).
  exact (conj eq_refl Hrest).
Qed.

(** The candidates emitted for one pixel of the rectangle. *)
Lemma analyzeTile_at (x y : Z) :
  (minX (boundingRect templatesToDraw) <= x < maxX (boundingRect templatesToDraw))%Z ->
  (minY (boundingRect templatesToDraw) <= y < maxY (boundingRect templatesToDraw))%Z ->
  filter (fun c => pixelCoords c = (x, y))
    (fst (analyzeTile m gameImageData templateImageData
                      templatesToDraw tile))
  = match candidateAt templateImageData gameImageData tile
            (analyzeTransparentPixels m) (boundingRect templatesToDraw) x y with
    | Some c => [c]
    | None => []
    end.
Proof.
  intros Hx Hy. destruct analyzeTile_candidates as (-> & _).
  unfold tileCandidates.
  rewrite (filter_omap_key _ pixelCoords (fun p => p) (x, y)).
  2:{ intros [x' y'] c Hc. apply candidateAt_coords in Hc. exact Hc. }
  rewrite filter_eq_NoDup;
    [|apply NoDup_coordsOf|apply elem_of_coordsOf; split; assumption].
  cbn. destruct (candidateAt _ _ _ _ _ x y); reflexivity.
Qed.

(** C4.  With grief-clean enabled, a pixel of the rectangle whose template
    centre sample has alpha below 128 and whose live centre sample has
    alpha above 0 yields exactly one candidate: colour id 0 with priority
    2,000,000.  Nothing else about the two samples is assumed, so this
    outcome is decided before any other is considered. *)
Theorem analyzeTile_grief_clean (x y : Z) :
  (minX (boundingRect templatesToDraw) <= x < maxX (boundingRect templatesToDraw))%Z ->
  (minY (boundingRect templatesToDraw) <= y < maxY (boundingRect templatesToDraw))%Z ->
  analyzeTransparentPixels m = true ->
  (templateAlpha templateImageData x y < 128)%Z ->
  (0 < gameAlpha gameImageData x y)%Z ->
  filter (fun c => pixelCoords c = (x, y))
    (fst (analyzeTile m gameImageData templateImageData
                      templatesToDraw tile))
  = [mkPixelData tile (x, y) 0 2000000].
Proof.
  intros Hx Hy Hon Ht Hg. rewrite (analyzeTile_at x y Hx Hy).
  rewrite candidateAt_tier. unfold tierAt. rewrite Hon.
  apply Z.ltb_lt in Ht, Hg. rewrite Ht, Hg. reflexivity.
Qed.

(** C5.  A pixel of the rectangle whose template centre sample has alpha
    above 128 and whose live centre sample has alpha below 128 yields
    exactly one candidate: its colour id is the nearest palette colour of
    the template RGB and its priority is 1,000,000 plus the centre bonus,
    which lies in [1,000,000, 2,000,000) (with grief-clean on or off). *)
Theorem analyzeTile_new_placement (x y : Z) :
  (minX (boundingRect templatesToDraw) <= x < maxX (boundingRect templatesToDraw))%Z ->
  (minY (boundingRect templatesToDraw) <= y < maxY (boundingRect templatesToDraw))%Z ->
  (128 < templateAlpha templateImageData x y)%Z ->
  (gameAlpha gameImageData x y < 128)%Z ->
  filter (fun c => pixelCoords c = (x, y))
    (fst (analyzeTile m gameImageData templateImageData
                      templatesToDraw tile))
  = [mkPixelData tile (x, y)
       (findClosestColor (templateRGB templateImageData x y))
       (1000000 + centerBonus (boundingRect templatesToDraw) x y)] /\
  1000000 <= 1000000 + centerBonus (boundingRect templatesToDraw) x y
          < 2000000.
Proof.
  intros Hx Hy Ht Hg. split.
  - rewrite (analyzeTile_at x y Hx Hy), candidateAt_tier. unfold tierAt.
    replace (templateAlpha templateImageData x y <? 128)%Z with false
      by (symmetry; apply Z.ltb_ge; lia).
    rewrite andb_false_r. simpl.
    apply Z.ltb_lt in Ht, Hg. rewrite Ht, Hg. reflexivity.
  - pose proof (centerBonus_range _ x y Hx Hy). lra.
Qed.

(** C9.  Every candidate of one [analyzeTile] call belongs to one of the
    three tiers, decided by the samples at its pixel: a grief-clean
    candidate has priority exactly 2,000,000, strictly above every
    candidate of the call that is not grief-clean; a new-placement
    candidate has priority in [1,000,000, 1,500,000]; a colour-correction
    candidate has priority at most 1,000,000. *)
Theorem analyzeTile_tier_order (c : pixelData) :
  c ∈ fst (analyzeTile m gameImageData templateImageData
                       templatesToDraw tile) ->
  match tierAt templateImageData gameImageData (analyzeTransparentPixels m)
               (pixelCoords c).1 (pixelCoords c).2 with
  | Some GriefClean =>
      priority c = 2000000 /\
      forall c',
        c' ∈ fst (analyzeTile m gameImageData templateImageData
                              templatesToDraw tile) ->
        tierAt templateImageData gameImageData (analyzeTransparentPixels m)
               (pixelCoords c').1 (pixelCoords c').2 <> Some GriefClean ->
        priority c' < priority c
  | Some NewPlacement => 1000000 <= priority c <= 1500000
  | Some ColorCorrection => priority c <= 1000000
  | None => False
  end.
Proof.
  destruct analyzeTile_candidates as (-> & _).
  assert (Hone : forall c0,
    c0 ∈ tileCandidates templateImageData gameImageData tile
           (analyzeTransparentPixels m) (boundingRect templatesToDraw) ->
    match tierAt templateImageData gameImageData (analyzeTransparentPixels m)
                 (pixelCoords c0).1 (pixelCoords c0).2 with
    | Some GriefClean => priority c0 = 2000000
    | Some NewPlacement => 1000000 <= priority c0 <= 1500000
    | Some ColorCorrection => priority c0 <= 1000000
    | None => False
    end).
  { intros c0 Hin. apply elem_of_tileCandidates in Hin as (x & y & [Hx Hy] & Hc).
    pose proof (candidateAt_coords _ _ _ _ _ x y c0 Hc) as Hxy.
    rewrite Hxy. simpl. rewrite candidateAt_tier in Hc.
    pose proof (centerBonus_range _ x y Hx Hy) as Hb.
    destruct (tierAt templateImageData gameImageData
                (analyzeTransparentPixels m) x y) as [[| |]|];
      [injection Hc as <-..|discriminate]; simpl.
    - reflexivity.
    - lra.
    - unfold colorPriority, MAX_PRIORITY_SCORE.
      pose proof (Rmin_r (calculateColorDifference
                            (gameRGB gameImageData x y)
                            (templateRGB templateImageData x y) / 100) 1).
      lra. }
  intros Hin. pose proof (Hone c Hin) as Hc.
  destruct (tierAt templateImageData gameImageData (analyzeTransparentPixels m)
              (pixelCoords c).1 (pixelCoords c).2) as [[| |]|]; try exact Hc.
  split; [exact Hc|]. intros c' Hin' Hne. pose proof (Hone c' Hin') as Hc'.
  destruct (tierAt templateImageData gameImageData (analyzeTransparentPixels m)
              (pixelCoords c').1 (pixelCoords c').2) as [[| |]|];
    [congruence|lra|lra|contradiction].
Qed.

End AnalyzeTile.

(** ** A one-pixel template *)

Section OnePixel.
Import Utils TemplateManager.

(** One chunk of one logical pixel at the origin of the tile; the centre
    sample of that pixel starts at byte 12004 of both rasters. *)
Definition onePixelChunk : list chunk := [mkChunk 0 0 3 3].

Definition emptyRaster : Z -> Z := fun _ => 0.

(** A raster whose pixel [(0, 0)] has the given RGBA centre sample. *)
Definition rasterOf (r g b a : Z) : Z -> Z :=
  fun i => if i =? 12004 then r else if i =? 12005 then g
           else if i =? 12006 then b else if i =? 12007 then a else 0.

Lemma rasterOf_bytes (r g b a : Z) :
  isByte r -> isByte g -> isByte b -> isByte a ->
  forall i, isByte (rasterOf r g b a i).
Proof.
  intros Hr Hg Hb Ha i. unfold rasterOf.
  repeat (destruct (_ =? _); [assumption|]). unfold isByte. lia.
Qed.

Lemma emptyRaster_bytes : forall i, isByte (emptyRaster i).
Proof. intros i. unfold isByte, emptyRaster. lia. Qed.

End OnePixel.

Lemma analyzeTile_grief_clean_witness :
  filter (fun c => TemplateManager.pixelCoords c = (0, 0))
    (fst (TemplateManager.analyzeTile
            (TemplateManager.setAnalyzeTransparentPixels true
               (TemplateManager.constructor []))
            (rasterOf 0 0 0 255) emptyRaster onePixelChunk (7, 9)))
  = [TemplateManager.mkPixelData (7, 9) (0, 0) 0 2000000].
Proof.
  apply analyzeTile_grief_clean.
  - exact emptyRaster_bytes.
  - exact cache_ok_empty.
  - vm_compute. split; [discriminate|reflexivity].
  - vm_compute. split; [discriminate|reflexivity].
  - reflexivity.
  - vm_compute. reflexivity.
  - vm_compute. reflexivity.
Defined.

Lemma analyzeTile_new_placement_witness :
  exists p : R,
    filter (fun c => TemplateManager.pixelCoords c = (0, 0))
      (fst (TemplateManager.analyzeTile
              (TemplateManager.constructor [])
              emptyRaster (rasterOf 255 0 0 255) onePixelChunk (7, 9)))
    = [TemplateManager.mkPixelData (7, 9) (0, 0) 7 p] /\
    (1000000 <= p < 2000000)%R.
Proof.
  eexists.
  apply (analyzeTile_new_placement (TemplateManager.constructor [])
           emptyRaster (rasterOf 255 0 0 255) onePixelChunk (7, 9)).
  - apply rasterOf_bytes; unfold isByte; lia.
  - exact cache_ok_empty.
  - vm_compute. split; [discriminate|reflexivity].
  - vm_compute. split; [discriminate|reflexivity].
  - vm_compute. reflexivity.
  - vm_compute. reflexivity.
Defined.

Lemma analyzeTile_tier_order_witness :
  TemplateManager.priority (TemplateManager.mkPixelData (7, 9) (0, 0) 0 2000000)
  = 2000000%R /\
  forall c',
    c' ∈ fst (TemplateManager.analyzeTile
                (TemplateManager.setAnalyzeTransparentPixels true
                   (TemplateManager.constructor []))
                (rasterOf 0 0 0 255) emptyRaster onePixelChunk (7, 9)) ->
    tierAt emptyRaster (rasterOf 0 0 0 255) true
           (TemplateManager.pixelCoords c').1 (TemplateManager.pixelCoords c').2
    <> Some GriefClean ->
    Rlt (TemplateManager.priority c')
        (TemplateManager.priority
           (TemplateManager.mkPixelData (7, 9) (0, 0) 0 2000000)).
Proof.
  apply (analyzeTile_tier_order
           (TemplateManager.setAnalyzeTransparentPixels true
              (TemplateManager.constructor []))
           (rasterOf 0 0 0 255) emptyRaster onePixelChunk (7, 9)
           emptyRaster_bytes cache_ok_empty
           (TemplateManager.mkPixelData (7, 9) (0, 0) 0 2000000)).
  vm_compute. left.
Defined.

(** ** The colour cache across passes *)

Section CachePersistence.
Import Utils TemplateManager.

(** C3 (as the code has it).  The cache is a field of the manager that
    [analyzeTile] only ever extends: whatever it held when a pass starts
    it still holds when the pass ends (so the next pass starts with it),
    the pass adds the conversion of every opaque template sample of the
    rectangle under its (alpha, R, G, B) key, and every entry, old or new,
    is the id [findClosestColor] returns for the RGB of its key. *)
Theorem templateColorCache_persists
    (m : manager) (gameImageData templateImageData : Z -> Z)
    (templatesToDraw : list chunk) (tile : Z * Z) :
  (forall i, isByte (templateImageData i)) ->
  cache_ok (templateColorCache m) ->
  templateColorCache m ⊆
    templateColorCache
      (snd (analyzeTile m gameImageData templateImageData
                        templatesToDraw tile)) /\
  memoized templateImageData
    (templateColorCache
       (snd (analyzeTile m gameImageData templateImageData
                         templatesToDraw tile)))
    (coordsOf (boundingRect templatesToDraw)) /\
  cache_ok
    (templateColorCache
       (snd (analyzeTile m gameImageData templateImageData
                         templatesToDraw tile))).
Proof.
  intros Hbytes Hok.
  destruct (analyzeTile_candidates m gameImageData
              templateImageData templatesToDraw tile Hbytes Hok)
    as (_ & Hok' & Hsub & Hmemo).
  auto.
Qed.

End CachePersistence.

Lemma templateColorCache_persists_witness :
  TemplateManager.templateColorCache (TemplateManager.constructor []) ⊆
    TemplateManager.templateColorCache
      (snd (TemplateManager.analyzeTile
              (TemplateManager.constructor [])
              emptyRaster (rasterOf 255 0 0 255) onePixelChunk (7, 9))) /\
  memoized (rasterOf 255 0 0 255)
    (TemplateManager.templateColorCache
       (snd (TemplateManager.analyzeTile
               (TemplateManager.constructor [])
               emptyRaster (rasterOf 255 0 0 255) onePixelChunk (7, 9))))
    (coordsOf (TemplateManager.boundingRect onePixelChunk)) /\
  cache_ok
    (TemplateManager.templateColorCache
       (snd (TemplateManager.analyzeTile
               (TemplateManager.constructor [])
               emptyRaster (rasterOf 255 0 0 255) onePixelChunk (7, 9)))).
Proof.
  apply templateColorCache_persists.
  - apply rasterOf_bytes; unfold isByte; lia.
  - exact cache_ok_empty.
Defined.

(** After one pass over a one-pixel red template on a fresh manager the
    cache holds the conversion of that red, and this is the cache the next
    call of [analyzeTile] on the manager starts from: the second pass
    below finds the entry and leaves the cache as it was. *)
Lemma templateColorCache_survives_pass :
  let m1 :=
    snd (TemplateManager.analyzeTile
           (TemplateManager.constructor [])
           emptyRaster (rasterOf 255 0 0 255) onePixelChunk (7, 9)) in
  TemplateManager.templateColorCache m1 = {[ -16776961 := 7 ]} /\
  TemplateManager.templateColorCache m1 <> ∅ /\
  TemplateManager.templateColorCache
    (snd (TemplateManager.analyzeTile m1
            emptyRaster (rasterOf 255 0 0 255) onePixelChunk (7, 9)))
  = TemplateManager.templateColorCache m1.
Proof.
  assert (E1 : TemplateManager.templateColorCache
                 (snd (TemplateManager.analyzeTile
                         (TemplateManager.constructor [])
                         emptyRaster (rasterOf 255 0 0 255) onePixelChunk (7, 9)))
               = {[ -16776961 := 7 ]}) by (vm_compute; reflexivity).
  cbv zeta. split; [exact E1|]. split.
  - rewrite E1. intros H. apply (f_equal (fun c => c !! (-16776961))) in H.
    rewrite lookup_singleton_eq, lookup_empty in H. discriminate.
  - vm_compute. reflexivity.
Qed.

(** ** The CIEDE2000 difference

    Bounds on the result from the lightness of the two colours and a
    bound on their chroma, and the LAB values of three grays. *)

Section Ciede2000.
Import Utils.
Open Scope R_scope.

Lemma Math_pow_one (e : R) : Math_pow 1 e = 1.
Proof.
  unfold Math_pow. destruct (Req_dec_T 1 0); [lra|].
  unfold Rpower. rewrite ln_1, Rmult_0_r. apply exp_0.
Qed.

Lemma rgbToLab_black : rgbToLab 0 0 0 = (0, 0, 0).
Proof.
  unfold rgbToLab, rgbToXyz, xyzToLab. cbv zeta.
  replace (0 / 255) with 0 by lra.
  destruct (Rlt_dec 0.04045 0); [lra|].
  replace (0 / 12.92 * 100) with 0 by lra.
  replace (0 * 0.4124564 + 0 * 0.3575761 + 0 * 0.1804375) with 0 by lra.
  replace (0 * 0.2126729 + 0 * 0.7151522 + 0 * 0.0721750) with 0 by lra.
  replace (0 * 0.0193339 + 0 * 0.1191920 + 0 * 0.9503041) with 0 by lra.
  replace (0 / 95.047) with 0 by lra.
  replace (0 / 100.000) with 0 by lra.
  replace (0 / 108.883) with 0 by lra.
  destruct (Rlt_dec 0.008856 0); [lra|].
  f_equal; [f_equal|]; lra.
Qed.

(** Names the bound term of the outermost [let] of the goal. *)
Tactic Notation "pull_let_as" ident(name) :=
  match goal with
  | |- context C [let x := ?t in @?f x] =>
      let g := context C [f t] in
      change g; cbv beta; set (name := t)
  end.

Lemma ratio7_bounds (c : R) :
  0 <= c -> 0 <= sqrt (c ^ 7 / (c ^ 7 + POW25_7)) <= 1.
Proof.
  intros Hc. split; [apply sqrt_pos|].
  assert (Hp : 0 <= c ^ 7) by (apply pow_le, Hc).
  assert (H25 : 0 < POW25_7) by (unfold POW25_7; lra).
  apply Rle_trans with (sqrt 1); [|rewrite sqrt_1; lra].
  apply sqrt_le_1_alt.
  apply (Rmult_le_reg_r (c ^ 7 + POW25_7)); [lra|].
  unfold Rdiv. rewrite Rmult_assoc, Rinv_l by lra. lra.
Qed.

Lemma cross_term_nonneg (u v rT : R) :
  -2 <= rT <= 2 -> 0 <= u * u + v * v + rT * u * v.
Proof.
  intros [Hlo Hhi].
  pose proof (Rle_0_sqr (u - v)) as Hm. pose proof (Rle_0_sqr (u + v)) as Hp.
  unfold Rsqr in Hm, Hp.
  destruct (Rle_dec 0 (u * v)) as [Hs|Hs].
  - assert (0 <= (rT + 2) * (u * v)) by (apply Rmult_le_pos; lra). lra.
  - assert (0 <= (2 - rT) * (- (u * v))) by (apply Rmult_le_pos; lra). lra.
Qed.


Ltac ciede2000_vars :=
  cbv beta iota delta [ciede2000];
  pull_let_as c1; pull_let_as c2; pull_let_as cBar; pull_let_as g;
  pull_let_as a1Prime; pull_let_as a2Prime;
  pull_let_as c1Prime; pull_let_as c2Prime;
  pull_let_as h1Raw; pull_let_as h1Prime;
  pull_let_as h2Raw; pull_let_as h2Prime;
  pull_let_as deltaLPrime; pull_let_as deltaCPrime;
  pull_let_as deltaHRaw; pull_let_as deltaHPrime;
  pull_let_as lBarPrime; pull_let_as cBarPrime; pull_let_as hBarPrime;
  pull_let_as t; pull_let_as deltaTheta; pull_let_as rC;
  pull_let_as sL; pull_let_as sC; pull_let_as sH; pull_let_as rT;
  pull_let_as termL; pull_let_as termC; pull_let_as termH.

Lemma sq_div_le (d s : R) : 1 <= s -> (d / s) * (d / s) <= d * d.
Proof.
  intros Hs.
  assert (Hi : 0 < / s <= 1).
  { split; [apply Rinv_0_lt_compat; lra|].
    rewrite <- Rinv_1. apply Rinv_le_contravar; lra. }
  unfold Rdiv. pose proof (Rle_0_sqr d) as Hd. unfold Rsqr in Hd.
  assert (/ s * / s <= 1) by nra.
  replace (d * / s * (d * / s)) with ((d * d) * (/ s * / s)) by ring.
  nra.
Qed.

(** The shape of the result: a lightness term and a chroma-hue part [Q],
    bounded when both chromas are. *)
Lemma ciede2000_shape (l1 a1 b1 l2 a2 b2 : R) :
  exists sL Q : R,
    ciede2000 (l1, a1, b1) (l2, a2, b2)
    = sqrt ((l2 - l1) / sL * ((l2 - l1) / sL) + Q) /\
    1 <= sL <= 1 + 0.015 * ((l1 + l2) / 2 - 50) ^ 2 /\
    0 <= Q /\
    forall m : R, 0 <= m ->
      2.25 * (a1 * a1) + b1 * b1 <= m * m ->
      2.25 * (a2 * a2) + b2 * b2 <= m * m ->
      Q <= 8 * (m * m).
Proof.
  ciede2000_vars.
  exists sL, (termC * termC + termH * termH + rT * termC * termH).
  assert (Hc1 : 0 <= c1) by apply sqrt_pos.
  assert (Hc2 : 0 <= c2) by apply sqrt_pos.
  assert (Hc1' : 0 <= c1Prime) by apply sqrt_pos.
  assert (Hc2' : 0 <= c2Prime) by apply sqrt_pos.
  assert (Hg : 0 <= g <= 0.5).
  { pose proof (ratio7_bounds cBar ltac:(unfold cBar; lra)). unfold g. lra. }
  assert (HrC : 0 <= rC <= 2).
  { pose proof (ratio7_bounds cBarPrime ltac:(unfold cBarPrime; lra)).
    unfold rC. lra. }
  assert (HrT : -2 <= rT <= 2).
  { unfold rT. pose proof (SIN_bound (2 * deltaTheta * DEG_TO_RAD)) as Hs.
    assert (0 <= (1 - sin (2 * deltaTheta * DEG_TO_RAD)) * rC)
      by (apply Rmult_le_pos; lra).
    assert (0 <= (1 + sin (2 * deltaTheta * DEG_TO_RAD)) * rC)
      by (apply Rmult_le_pos; lra).
    lra. }
  assert (Ht : 0 <= t).
  { unfold t.
    pose proof (COS_bound ((hBarPrime - 30) * DEG_TO_RAD)).
    pose proof (COS_bound (2 * hBarPrime * DEG_TO_RAD)).
    pose proof (COS_bound ((3 * hBarPrime + 6) * DEG_TO_RAD)).
    pose proof (COS_bound ((4 * hBarPrime - 63) * DEG_TO_RAD)). lra. }
  assert (HsC : 1 <= K_C * sC) by (unfold K_C, sC, cBarPrime; lra).
  assert (HsH : 1 <= K_H * sH).
  { unfold K_H, sH.
    assert (0 <= cBarPrime * t) by (apply Rmult_le_pos; [unfold cBarPrime|]; lra).
    lra. }
  assert (He : 0 <= (lBarPrime - 50) ^ 2) by apply pow2_ge_0.
  assert (HsL : 1 <= sL <= 1 + 0.015 * (lBarPrime - 50) ^ 2).
  { unfold sL.
    assert (Hq : 1 <= sqrt (20 + (lBarPrime - 50) ^ 2)).
    { rewrite <- sqrt_1. apply sqrt_le_1_alt. lra. }
    assert (Hi : 0 < / sqrt (20 + (lBarPrime - 50) ^ 2) <= 1).
    { split; [apply Rinv_0_lt_compat; lra|].
      rewrite <- Rinv_1. apply Rinv_le_contravar; lra. }
    unfold Rdiv. nra. }
  split; [|split; [exact HsL|split; [apply cross_term_nonneg, HrT|]]].
  - f_equal. unfold termL, deltaLPrime, K_L.
    replace (1 * sL) with sL by ring. ring.
  - intros m Hm H1 H2.
    assert (HC : termC * termC <= deltaCPrime * deltaCPrime)
      by (apply sq_div_le, HsC).
    assert (HH : termH * termH <= deltaHPrime * deltaHPrime)
      by (apply sq_div_le, HsH).
    pose proof (cross_term_nonneg termC termH (- rT) ltac:(lra)) as Hx.
    assert (Hc1sq : c1Prime * c1Prime <= m * m).
    { unfold c1Prime. rewrite sqrt_sqrt.
      - unfold a1Prime.
        assert ((1 + g) * (1 + g) <= 2.25) by nra.
        pose proof (Rle_0_sqr a1) as Ha. unfold Rsqr in Ha. nra.
      - pose proof (Rle_0_sqr a1Prime) as Ha. pose proof (Rle_0_sqr b1) as Hb.
        unfold Rsqr in Ha, Hb. lra. }
    assert (Hc2sq : c2Prime * c2Prime <= m * m).
    { unfold c2Prime. rewrite sqrt_sqrt.
      - unfold a2Prime.
        assert ((1 + g) * (1 + g) <= 2.25) by nra.
        pose proof (Rle_0_sqr a2) as Ha. unfold Rsqr in Ha. nra.
      - pose proof (Rle_0_sqr a2Prime) as Ha. pose proof (Rle_0_sqr b2) as Hb.
        unfold Rsqr in Ha, Hb. lra. }
    assert (HdH : deltaHPrime * deltaHPrime <= 4 * (c1Prime * c2Prime)).
    { unfold deltaHPrime.
      pose proof (SIN_bound (deltaHRaw * DEG_TO_RAD / 2)) as Hs.
      set (s := sin (deltaHRaw * DEG_TO_RAD / 2)) in *.
      assert (Hp : 0 <= c1Prime * c2Prime) by (apply Rmult_le_pos; assumption).
      replace (2 * sqrt (c1Prime * c2Prime) * s * (2 * sqrt (c1Prime * c2Prime) * s))
        with (4 * (sqrt (c1Prime * c2Prime) * sqrt (c1Prime * c2Prime)) * (s * s))
        by ring.
      rewrite sqrt_sqrt by exact Hp.
      assert (s * s <= 1) by nra. nra. }
    assert (Hc1m : c1Prime <= m).
    { destruct (Rle_dec c1Prime m) as [Hle|Hgt]; [exact Hle|].
      assert (m * m < c1Prime * c1Prime) by nra. lra. }
    assert (Hc2m : c2Prime <= m).
    { destruct (Rle_dec c2Prime m) as [Hle|Hgt]; [exact Hle|].
      assert (m * m < c2Prime * c2Prime) by nra. lra. }
    assert (Hsum : (c1Prime + c2Prime) * (c1Prime + c2Prime) <= 4 * (m * m))
      by nra.
    assert (HdC : deltaCPrime * deltaCPrime
                  = (c1Prime + c2Prime) * (c1Prime + c2Prime)
                    - 4 * (c1Prime * c2Prime))
      by (unfold deltaCPrime; ring).
    lra.
Qed.

(** The lightness term alone is a lower bound. *)
Lemma ciede2000_lower (l1 a1 b1 l2 a2 b2 : R) :
  Rabs (l2 - l1) / (1 + 0.015 * ((l1 + l2) / 2 - 50) ^ 2)
  <= ciede2000 (l1, a1, b1) (l2, a2, b2).
Proof.
  destruct (ciede2000_shape l1 a1 b1 l2 a2 b2) as (sL & Q & -> & HsL & HQ & _).
  assert (He : 0 <= ((l1 + l2) / 2 - 50) ^ 2) by apply pow2_ge_0.
  apply Rle_trans with (Rabs ((l2 - l1) / sL)).
  - unfold Rdiv. rewrite Rabs_mult, (Rabs_pos_eq (/ sL))
      by (left; apply Rinv_0_lt_compat; lra).
    apply Rmult_le_compat_l; [apply Rabs_pos|].
    apply Rinv_le_contravar; lra.
  - rewrite <- sqrt_Rsqr_abs. apply sqrt_le_1_alt. unfold Rsqr. lra.
Qed.

(** With chroma within [m] the result is within the lightness difference
    and [8 m^2], combined in quadrature. *)
Lemma ciede2000_upper (l1 a1 b1 l2 a2 b2 m u : R) :
  0 <= m -> 0 <= u ->
  2.25 * (a1 * a1) + b1 * b1 <= m * m ->
  2.25 * (a2 * a2) + b2 * b2 <= m * m ->
  (l2 - l1) * (l2 - l1) + 8 * (m * m) <= u * u ->
  ciede2000 (l1, a1, b1) (l2, a2, b2) <= u.
Proof.
  intros Hm Hu H1 H2 Hb.
  destruct (ciede2000_shape l1 a1 b1 l2 a2 b2) as (sL & Q & -> & HsL & HQ & HQm).
  specialize (HQm m Hm H1 H2).
  pose proof (sq_div_le (l2 - l1) sL ltac:(lra)) as Hl.
  rewrite <- (sqrt_square u) by exact Hu.
  apply sqrt_le_1_alt. lra.
Qed.

(** White: the Y row of the matrix sums to 1.0000001, hence the factor
    [k]. *)
Lemma rgbToLab_white :
  exists k : R, 1 <= k <= 1.0000001 /\
    rgbToLab 255 255 255 = (116 * k - 16, 500 * (1 - k), 200 * (k - 1)).
Proof.
  exists (Math_pow 1.0000001 (1 / 3)). split.
  - unfold Math_pow. destruct (Req_dec_T 1.0000001 0); [lra|].
    split.
    + apply Rle_trans with (Rpower 1.0000001 0);
        [rewrite Rpower_O; lra|apply Rle_Rpower; lra].
    + apply Rle_trans with (Rpower 1.0000001 1);
        [apply Rle_Rpower; lra|rewrite Rpower_1; lra].
  - unfold rgbToLab, rgbToXyz. cbv zeta.
    replace (255 / 255) with 1 by lra.
    destruct (Rlt_dec 0.04045 1) as [_|H]; [|lra].
    replace ((1 + 0.055) / 1.055) with 1 by lra. rewrite Math_pow_one.
    unfold xyzToLab. cbv zeta.
    replace ((1 * 100 * 0.4124564 + 1 * 100 * 0.3575761 + 1 * 100 * 0.1804375)
             / 95.047) with 1 by lra.
    replace ((1 * 100 * 0.2126729 + 1 * 100 * 0.7151522 + 1 * 100 * 0.0721750)
             / 100.000) with 1.0000001 by lra.
    replace ((1 * 100 * 0.0193339 + 1 * 100 * 0.1191920 + 1 * 100 * 0.9503041)
             / 108.883) with 1 by lra.
    destruct (Rlt_dec 0.008856 1) as [_|H]; [|lra].
    destruct (Rlt_dec 0.008856 1.0000001) as [_|H]; [|lra].
    rewrite Math_pow_one. reflexivity.
Qed.

(** The gray (10, 10, 10) lies on the linear segments of both
    conversions. *)
Lemma rgbToLab_gray10 :
  exists l a b : R,
    rgbToLab 10 10 10 = (l, a, b) /\
    2.74 <= l <= 2.75 /\
    - 0.00001 <= a <= 0.00001 /\ - 0.00001 <= b <= 0.00001.
Proof.
  unfold rgbToLab, rgbToXyz. cbv zeta.
  destruct (Rlt_dec 0.04045 (10 / 255)) as [H|_]; [lra|].
  unfold xyzToLab. cbv zeta.
  set (x := (10 / 255 / 12.92 * 100 * 0.4124564
             + 10 / 255 / 12.92 * 100 * 0.3575761
             + 10 / 255 / 12.92 * 100 * 0.1804375) / 95.047).
  set (y := (10 / 255 / 12.92 * 100 * 0.2126729
             + 10 / 255 / 12.92 * 100 * 0.7151522
             + 10 / 255 / 12.92 * 100 * 0.0721750) / 100.000).
  set (z := (10 / 255 / 12.92 * 100 * 0.0193339
             + 10 / 255 / 12.92 * 100 * 0.1191920
             + 10 / 255 / 12.92 * 100 * 0.9503041) / 108.883).
  destruct (Rlt_dec 0.008856 x) as [H|_]; [unfold x in H; lra|].
  destruct (Rlt_dec 0.008856 y) as [H|_]; [unfold y in H; lra|].
  destruct (Rlt_dec 0.008856 z) as [H|_]; [unfold z in H; lra|].
  eexists _, _, _. split; [reflexivity|].
  unfold x, y, z. repeat split; lra.
Qed.

Lemma lower_bound_usable (d e q : R) :
  0 <= e -> 0 <= q -> q * (1 + 0.015 * e) <= d ->
  q <= Rabs d / (1 + 0.015 * e).
Proof.
  intros He Hq H.
  assert (Hd : 0 <= d) by nra.
  rewrite Rabs_pos_eq by exact Hd.
  apply (Rmult_le_reg_r (1 + 0.015 * e)); [lra|].
  unfold Rdiv. rewrite Rmult_assoc, Rinv_l by lra. lra.
Qed.

(** A colour is at distance 0 from itself. *)
Lemma ciede2000_same (lab : R * R * R) : ciede2000 lab lab = 0.
Proof.
  destruct lab as [[l a] b].
  ciede2000_vars.
  assert (HL : termL = 0) by (unfold termL, deltaLPrime, Rdiv; ring).
  assert (HC : termC = 0) by (unfold termC, deltaCPrime, Rdiv; ring).
  assert (HR : deltaHRaw = 0).
  { unfold deltaHRaw. destruct (Req_dec_T (c2Prime * c2Prime) 0); [reflexivity|].
    cbv zeta.
    replace (h2Prime - h1Prime) with 0
      by (unfold h2Prime, h2Raw, h1Prime; ring).
    rewrite Rabs_R0. destruct (Rle_dec 0 180); [reflexivity|lra]. }
  assert (HH : termH = 0).
  { unfold termH, deltaHPrime. rewrite HR.
    replace (0 * DEG_TO_RAD / 2) with 0 by (unfold Rdiv; ring).
    rewrite sin_0. unfold Rdiv. ring. }
  rewrite HL, HC, HH.
  replace (0 * 0 + 0 * 0 + 0 * 0 + rT * 0 * 0) with 0 by ring.
  apply sqrt_0.
Qed.

Ltac ciede2000_vars_swapped :=
  pull_let_as c1s; pull_let_as c2s; pull_let_as cBars; pull_let_as gs;
  pull_let_as a1Primes; pull_let_as a2Primes;
  pull_let_as c1Primes; pull_let_as c2Primes;
  pull_let_as h1Raws; pull_let_as h1Primes;
  pull_let_as h2Raws; pull_let_as h2Primes;
  pull_let_as deltaLPrimes; pull_let_as deltaCPrimes;
  pull_let_as deltaHRaws; pull_let_as deltaHPrimes;
  pull_let_as lBarPrimes; pull_let_as cBarPrimes; pull_let_as hBarPrimes;
  pull_let_as ts; pull_let_as deltaThetas; pull_let_as rCs;
  pull_let_as sLs; pull_let_as sCs; pull_let_as sHs; pull_let_as rTs;
  pull_let_as termLs; pull_let_as termCs; pull_let_as termHs.

Lemma hueDifference_swap (h1 h2 : R) :
  (let hDiff := h1 - h2 in
   if Rle_dec (Rabs hDiff) 180 then hDiff
   else if Rlt_dec 180 hDiff then hDiff - 360 else hDiff + 360)
  = - (let hDiff := h2 - h1 in
       if Rle_dec (Rabs hDiff) 180 then hDiff
       else if Rlt_dec 180 hDiff then hDiff - 360 else hDiff + 360).
Proof.
  cbv zeta. rewrite (Rabs_minus_sym h1 h2).
  destruct (Rle_dec (Rabs (h2 - h1)) 180) as [Hle|Hgt]; [ring|].
  assert (Habs : 180 < Rabs (h2 - h1)) by lra.
  unfold Rabs in Habs. destruct (Rcase_abs (h2 - h1)) as [Hneg|Hpos].
  - destruct (Rlt_dec 180 (h1 - h2)) as [_|H]; [|lra].
    destruct (Rlt_dec 180 (h2 - h1)) as [H|_]; [lra|]. ring.
  - destruct (Rlt_dec 180 (h1 - h2)) as [H|_]; [lra|].
    destruct (Rlt_dec 180 (h2 - h1)) as [_|H]; [|lra]. ring.
Qed.

Lemma hueMean_swap (h1 h2 : R) :
  (let hSum := h1 + h2 in
   if Rle_dec (Rabs (h1 - h2)) 180 then hSum / 2
   else if Rlt_dec hSum 360 then (hSum + 360) / 2 else (hSum - 360) / 2)
  = (let hSum := h2 + h1 in
     if Rle_dec (Rabs (h2 - h1)) 180 then hSum / 2
     else if Rlt_dec hSum 360 then (hSum + 360) / 2 else (hSum - 360) / 2).
Proof.
  cbv zeta. rewrite (Rabs_minus_sym h1 h2), (Rplus_comm h1 h2). reflexivity.
Qed.

(** The distance does not depend on the order of the two colours. *)
Lemma ciede2000_sym (lab1 lab2 : R * R * R) :
  ciede2000 lab1 lab2 = ciede2000 lab2 lab1.
Proof.
  destruct lab1 as [[l1 a1] b1], lab2 as [[l2 a2] b2].
  ciede2000_vars. ciede2000_vars_swapped.
  assert (HcBar : cBars = cBar) by (unfold cBars, c1s, c2s, cBar; lra).
  assert (Hg : gs = g) by (unfold gs, g; rewrite HcBar; reflexivity).
  assert (Ha1 : a1Primes = a2Prime)
    by (unfold a1Primes, a2Prime; rewrite Hg; reflexivity).
  assert (Ha2 : a2Primes = a1Prime)
    by (unfold a2Primes, a1Prime; rewrite Hg; reflexivity).
  assert (Hc1 : c1Primes = c2Prime)
    by (unfold c1Primes, c2Prime; rewrite Ha1; reflexivity).
  assert (Hc2 : c2Primes = c1Prime)
    by (unfold c2Primes, c1Prime; rewrite Ha2; reflexivity).
  assert (Hh1 : h1Primes = h2Prime)
    by (unfold h1Primes, h1Raws, h2Prime, h2Raw; rewrite Ha1; reflexivity).
  assert (Hh2 : h2Primes = h1Prime)
    by (unfold h2Primes, h2Raws, h1Prime, h1Raw; rewrite Ha2; reflexivity).
  assert (Hprod : c1Primes * c2Primes = c1Prime * c2Prime)
    by (rewrite Hc1, Hc2; ring).
  assert (HdH : deltaHRaws = - deltaHRaw).
  { unfold deltaHRaws, deltaHRaw. rewrite Hprod, Hh1, Hh2.
    destruct (Req_dec_T (c1Prime * c2Prime) 0); [ring|].
    apply hueDifference_swap. }
  assert (HhBar : hBarPrimes = hBarPrime).
  { unfold hBarPrimes, hBarPrime. rewrite Hprod, Hh1, Hh2.
    destruct (Req_dec_T (c1Prime * c2Prime) 0); [ring|].
    apply hueMean_swap. }
  assert (HlBar : lBarPrimes = lBarPrime) by (unfold lBarPrimes, lBarPrime; lra).
  assert (HcBarP : cBarPrimes = cBarPrime)
    by (unfold cBarPrimes, cBarPrime; rewrite Hc1, Hc2; lra).
  assert (Ht : ts = t) by (unfold ts, t; rewrite HhBar; reflexivity).
  assert (HrT : rTs = rT)
    by (unfold rTs, rT, deltaThetas, deltaTheta, rCs, rC;
        rewrite HhBar, HcBarP; reflexivity).
  assert (HtL : termLs = - termL).
  { unfold termLs, termL, sLs, sL, deltaLPrimes, deltaLPrime.
    rewrite HlBar. unfold Rdiv. ring. }
  assert (HtC : termCs = - termC).
  { unfold termCs, termC, sCs, sC, deltaCPrimes, deltaCPrime.
    rewrite HcBarP, Hc1, Hc2. unfold Rdiv. ring. }
  assert (HtH : termHs = - termH).
  { unfold termHs, termH, sHs, sH, deltaHPrimes, deltaHPrime.
    rewrite HcBarP, Ht, Hprod, HdH.
    replace (- deltaHRaw * DEG_TO_RAD / 2) with (- (deltaHRaw * DEG_TO_RAD / 2))
      by (unfold Rdiv; ring).
    rewrite sin_neg. unfold Rdiv. ring. }
  rewrite HtL, HtC, HtH, HrT. f_equal. ring.
Qed.

End Ciede2000.

(** ** Colour-correction priorities *)

(** The CIEDE2000 difference of two RGB colours: the [deltaE] of
    [calculateColorDifference]. *)
Definition deltaE (rgb1 rgb2 : Utils.RGB) : R :=
  Utils.ciede2000 (Utils.labOf rgb1) (Utils.labOf rgb2).

Section SampleDistances.
Import Utils.
Open Scope R_scope.

Lemma calculateColorDifference_deltaE (rgb1 rgb2 : RGB) :
  calculateColorDifference rgb1 rgb2 = deltaE rgb1 rgb2 * 5000.
Proof. reflexivity. Qed.

(** Black against white: at least 99. *)
Lemma deltaE_black_white :
  99 <= deltaE (0, 0, 0)%Z (255, 255, 255)%Z.
Proof.
  change (99 <= ciede2000 (rgbToLab 0 0 0) (rgbToLab 255 255 255)).
  rewrite rgbToLab_black.
  destruct rgbToLab_white as (k & Hk & ->).
  eapply Rle_trans; [|apply ciede2000_lower].
  apply lower_bound_usable; [apply pow2_ge_0|lra|].
  assert (Hs : ((0 + (116 * k - 16)) / 2 - 50) ^ 2 <= 0.01) by nra.
  lra.
Qed.

(** The gray (10, 10, 10) against white: between 1/50 and 98. *)
Lemma deltaE_gray10_white :
  1 / 50 <= deltaE (10, 10, 10)%Z (255, 255, 255)%Z <= 98.
Proof.
  change (1 / 50 <= ciede2000 (rgbToLab 10 10 10) (rgbToLab 255 255 255) <= 98).
  destruct rgbToLab_gray10 as (l & a & b & -> & Hl & Ha & Hb).
  destruct rgbToLab_white as (k & Hk & ->).
  split.
  - eapply Rle_trans; [|apply ciede2000_lower].
    apply lower_bound_usable; [apply pow2_ge_0|lra|].
    assert (Hs : ((l + (116 * k - 16)) / 2 - 50) ^ 2 <= 4) by nra.
    lra.
  - apply (ciede2000_upper _ _ _ _ _ _ 0.001); [lra|lra|nra|nra|nra].
Qed.

End SampleDistances.

Section ColorCorrectionOrder.
Import Utils TemplateManager.
Open Scope R_scope.

Lemma colorPriority_scaled (d : R) :
  colorPriority (d * 5000) = Rmin (d * 5000 / 100) 1 * 500000.
Proof. reflexivity. Qed.

Lemma colorPriority_mono (d1 d2 : R) :
  d1 <= d2 -> colorPriority (d1 * 5000) <= colorPriority (d2 * 5000).
Proof.
  intros H. unfold colorPriority, MAX_PRIORITY_SCORE.
  apply Rmult_le_compat_r; [lra|].
  apply Rle_min_compat_r. lra.
Qed.

Lemma colorPriority_strict_below_ceiling (d1 d2 : R) :
  d1 < d2 -> colorPriority (d2 * 5000) < MAX_PRIORITY_SCORE ->
  colorPriority (d1 * 5000) < colorPriority (d2 * 5000).
Proof.
  unfold colorPriority, MAX_PRIORITY_SCORE. intros H Hc.
  unfold Rmin in *.
  destruct (Rle_dec (d2 * 5000 / 100) 1), (Rle_dec (d1 * 5000 / 100) 1); lra.
Qed.

Lemma colorPriority_le_ceiling (colorDifference : R) :
  colorPriority colorDifference <= MAX_PRIORITY_SCORE.
Proof.
  unfold colorPriority, MAX_PRIORITY_SCORE.
  pose proof (Rmin_r (colorDifference / 100) 1). lra.
Qed.

(** From a distance of 1/50 on the colour score sits at the ceiling. *)
Lemma colorPriority_saturated (d : R) :
  1 / 50 <= d -> colorPriority (d * 5000) = MAX_PRIORITY_SCORE.
Proof.
  intros Hd. unfold colorPriority, MAX_PRIORITY_SCORE.
  rewrite Rmin_right by lra. lra.
Qed.

Variable tile : (Z * Z)%type.
Variable analyzeTransparent : bool.
Variable b : rect.
Variables (x y : Z).

(** Two pairs of rasters, sampled at the same pixel. *)
Variables (template1 game1 template2 game2 : Z -> Z).

(** What the code computes for two colour corrections at the same pixel:
    each priority is [min(5000 * d / 100, 1) * 500000] plus the (common)
    centre bonus, [d] being the CIEDE2000 distance of its live and
    template colours.  The sample with the strictly larger distance never
    gets the smaller priority; it gets the strictly larger one whenever
    its colour score is below the ceiling [MAX_PRIORITY_SCORE], and the
    same one when the other score is at the ceiling already. *)
Theorem color_correction_order :
  tierAt template1 game1 analyzeTransparent x y = Some ColorCorrection ->
  tierAt template2 game2 analyzeTransparent x y = Some ColorCorrection ->
  deltaE (gameRGB game1 x y) (templateRGB template1 x y)
  < deltaE (gameRGB game2 x y) (templateRGB template2 x y) ->
  exists p1 p2 : R,
    priority <$> candidateAt template1 game1 tile analyzeTransparent b x y
      = Some p1 /\
    priority <$> candidateAt template2 game2 tile analyzeTransparent b x y
      = Some p2 /\
    p1 = Rmin (deltaE (gameRGB game1 x y) (templateRGB template1 x y)
               * 5000 / 100) 1 * 500000 + centerBonus b x y /\
    p2 = Rmin (deltaE (gameRGB game2 x y) (templateRGB template2 x y)
               * 5000 / 100) 1 * 500000 + centerBonus b x y /\
    p1 <= p2 /\
    (p2 < MAX_PRIORITY_SCORE + centerBonus b x y -> p1 < p2) /\
    (MAX_PRIORITY_SCORE + centerBonus b x y <= p1 -> p1 = p2).
Proof.
  intros H1 H2 Hd. rewrite !candidateAt_tier, H1, H2.
  cbn [fmap option_fmap option_map priority].
  rewrite !calculateColorDifference_deltaE.
  eexists _, _. split; [reflexivity|]. split; [reflexivity|].
  split; [reflexivity|]. split; [reflexivity|].
  pose proof (colorPriority_mono _ _ (Rlt_le _ _ Hd)) as Hm.
  pose proof (colorPriority_strict_below_ceiling _ _ Hd) as Hs.
  pose proof (colorPriority_le_ceiling
                (deltaE (gameRGB game2 x y) (templateRGB template2 x y) * 5000))
    as Hc2.
  split; [lra|]. split; [|lra].
  intros Hc. apply Rplus_lt_compat_r, Hs. lra.
Qed.

End ColorCorrectionOrder.

Section DoubleScore.
Import PrimFloat.

(** On binary64 numbers: the distances 97.5 and 100 both score exactly
    500000, and so does 0.03125; 0.015625 scores 390625. *)
Example colorPriority_double_saturates :
  Double.colorPriority (Double.calculateColorDifference 97.5%float)
    = 500000%float /\
  Double.colorPriority (Double.calculateColorDifference 100%float)
    = 500000%float /\
  Double.colorPriority (Double.calculateColorDifference 0.03125%float)
    = 500000%float /\
  Double.colorPriority (Double.calculateColorDifference 0.015625%float)
    = 390625%float.
Proof. vm_compute. repeat split; reflexivity. Qed.

End DoubleScore.

(** Two live samples under a white template pixel: the gray (10, 10, 10)
    and black.  Both convert to the palette's black, so both are colour
    corrections; the gray is the nearer one to white. *)
Lemma color_correction_order_witness :
  exists p1 p2 : R,
    TemplateManager.priority <$>
      candidateAt (rasterOf 255 255 255 255) (rasterOf 10 10 10 255)
                  (7, 9) false (TemplateManager.boundingRect onePixelChunk) 0 0
      = Some p1 /\
    TemplateManager.priority <$>
      candidateAt (rasterOf 255 255 255 255) (rasterOf 0 0 0 255)
                  (7, 9) false (TemplateManager.boundingRect onePixelChunk) 0 0
      = Some p2 /\
    p1 = (Rmin (deltaE (10, 10, 10)%Z (255, 255, 255)%Z * 5000 / 100) 1
          * 500000
          + TemplateManager.centerBonus
              (TemplateManager.boundingRect onePixelChunk) 0 0)%R /\
    p2 = (Rmin (deltaE (0, 0, 0)%Z (255, 255, 255)%Z * 5000 / 100) 1
          * 500000
          + TemplateManager.centerBonus
              (TemplateManager.boundingRect onePixelChunk) 0 0)%R /\
    (p1 <= p2)%R /\
    ((p2 < TemplateManager.MAX_PRIORITY_SCORE
           + TemplateManager.centerBonus
               (TemplateManager.boundingRect onePixelChunk) 0 0)%R ->
     (p1 < p2)%R) /\
    ((TemplateManager.MAX_PRIORITY_SCORE
      + TemplateManager.centerBonus
          (TemplateManager.boundingRect onePixelChunk) 0 0 <= p1)%R ->
     p1 = p2).
Proof.
  apply (color_correction_order (7, 9) false
           (TemplateManager.boundingRect onePixelChunk) 0 0
           (rasterOf 255 255 255 255) (rasterOf 10 10 10 255)
           (rasterOf 255 255 255 255) (rasterOf 0 0 0 255)).
  - vm_compute. reflexivity.
  - vm_compute. reflexivity.
  - change (Rlt (deltaE (10, 10, 10) (255, 255, 255))
                (deltaE (0, 0, 0) (255, 255, 255))).
    pose proof deltaE_black_white. pose proof deltaE_gray10_white. lra.
Defined.

(** C2.  The order of distinct distances is lost on inputs the code
    receives.  Under a white template pixel the live gray (10, 10, 10)
    and the live black are both colour corrections with distinct
    CIEDE2000 distances (at most 98 for the gray, at least 99 for black),
    and [analyzeTile] gives both the same priority: the value it clamps is
    [calculateColorDifference], which is the distance times 5000 already,
    divided by 100, so both colour scores sit at the ceiling.  The
    distance itself clamped at 100, which is what the comment on that line
    describes, keeps the two scores apart. *)
Lemma color_correction_order_collapses :
  exists p : R,
    TemplateManager.priority <$>
      candidateAt (rasterOf 255 255 255 255) (rasterOf 10 10 10 255)
                  (7, 9) false (TemplateManager.boundingRect onePixelChunk) 0 0
      = Some p /\
    TemplateManager.priority <$>
      candidateAt (rasterOf 255 255 255 255) (rasterOf 0 0 0 255)
                  (7, 9) false (TemplateManager.boundingRect onePixelChunk) 0 0
      = Some p /\
    Rlt (deltaE (10, 10, 10) (255, 255, 255))
        (deltaE (0, 0, 0) (255, 255, 255)) /\
    Rlt (Rmin (deltaE (10, 10, 10) (255, 255, 255) / 100) 1
         * TemplateManager.MAX_PRIORITY_SCORE)
        (Rmin (deltaE (0, 0, 0) (255, 255, 255) / 100) 1
         * TemplateManager.MAX_PRIORITY_SCORE).
Proof.
  exists (500000 + TemplateManager.centerBonus
                     (TemplateManager.boundingRect onePixelChunk) 0 0)%R.
  assert (Hcap : forall d : R, (1 / 50 <= d)%R ->
            TemplateManager.colorPriority (d * 5000) = 500000%R)
    by exact colorPriority_saturated.
  pose proof deltaE_black_white as Hbw.
  pose proof deltaE_gray10_white as Hgw.
  rewrite !candidateAt_tier.
  replace (tierAt (rasterOf 255 255 255 255) (rasterOf 10 10 10 255) false 0 0)
    with (Some ColorCorrection) by (vm_compute; reflexivity).
  replace (tierAt (rasterOf 255 255 255 255) (rasterOf 0 0 0 255) false 0 0)
    with (Some ColorCorrection) by (vm_compute; reflexivity).
  cbn [fmap option_fmap option_map TemplateManager.priority].
  rewrite !calculateColorDifference_deltaE.
  change (gameRGB (rasterOf 10 10 10 255) 0 0) with (10, 10, 10).
  change (gameRGB (rasterOf 0 0 0 255) 0 0) with (0, 0, 0).
  change (templateRGB (rasterOf 255 255 255 255) 0 0) with (255, 255, 255).
  rewrite !Hcap by lra. split; [reflexivity|]. split; [reflexivity|].
  split; [lra|].
  unfold TemplateManager.MAX_PRIORITY_SCORE, Rmin.
  destruct (Rle_dec (deltaE (10, 10, 10) (255, 255, 255) / 100) 1),
           (Rle_dec (deltaE (0, 0, 0) (255, 255, 255) / 100) 1); lra.
Qed.

(** ** The available-colour table *)

Section FoldInsert.

Context {V : Type} (c : Z -> bool) (k : Z -> Z) (v : Z -> V).

(** A loop body that stores [v i] under key [k i] when [c i] holds. *)
Definition store (acc : gmap Z V) (i : Z) : gmap Z V :=
  if c i then <[k i := v i]> acc else acc.

Lemma fold_store_skip (l : list Z) : forall (m : gmap Z V) (id : Z),
  (forall i, i ∈ l -> c i = true -> k i <> id) ->
  fold_left store l m !! id = m !! id.
Proof.
  induction l as [|i l IH]; intros m id Hskip; [reflexivity|].
  simpl. rewrite IH.
  - unfold store. destruct (c i) eqn:Hc; [|reflexivity].
    apply lookup_insert_ne, Hskip; [left|exact Hc].
  - intros j Hj. apply Hskip. right. exact Hj.
Qed.

Lemma fold_store_hit (l : list Z) : forall (m : gmap Z V) (i : Z),
  NoDup l -> (forall i j, k i = k j -> i = j) ->
  i ∈ l -> c i = true ->
  fold_left store l m !! k i = Some (v i).
Proof.
  induction l as [|j l IH]; intros m i Hnd Hinj Hin Hc; [inversion Hin|].
  apply NoDup_cons in Hnd as [Hj Hnd]. simpl.
  apply elem_of_cons in Hin as [->|Hin].
  - rewrite fold_store_skip.
    + unfold store. rewrite Hc. apply lookup_insert_eq.
    + intros i' Hi' _ E. apply Hinj in E. subst i'. contradiction.
  - apply IH; assumption.
Qed.

End FoldInsert.

Section AvailableColors.
Import ApiManager.

Lemma digitsOf_testbit (p : positive) : forall i : nat,
  bool_decide (digitsOf p !! i = Some true) = Z.testbit (Zpos p) (Z.of_nat i).
Proof.
  induction p as [p IH|p IH|]; intros [|i]; try reflexivity.
  - rewrite Pos2Z.inj_xI, Nat2Z.inj_succ, Z.testbit_odd_succ by lia.
    apply IH.
  - rewrite Pos2Z.inj_xO, Nat2Z.inj_succ, Z.testbit_even_succ by lia.
    apply IH.
Qed.

Lemma binaryBitmap_testbit (v i : Z) :
  0 <= v -> 0 <= i ->
  bool_decide (binaryBitmap v !! Z.to_nat i = Some true) = Z.testbit v i.
Proof.
  intros Hv Hi. destruct v as [|p|p]; [| |lia].
  - rewrite Z.bits_0. simpl. destruct (Z.to_nat i); reflexivity.
  - pose proof (digitsOf_testbit p (Z.to_nat i)) as H.
    rewrite Z2Nat.id in H by exact Hi. exact H.
Qed.

Lemma binaryBitmap_beyond (v i : Z) :
  Z.of_nat (length (binaryBitmap v)) <= i ->
  bool_decide (binaryBitmap v !! Z.to_nat i = Some true) = false.
Proof.
  intros Hi. rewrite lookup_ge_None_2 by lia. reflexivity.
Qed.

Local Abbreviation always :=
  (forRange 0 mediumGrayIndex (fun acc i => <[i := true]> acc) (∅ : gmap Z bool)).

Lemma always_lookup (id : Z) :
  always !! id = if decide (0 <= id < 32) then Some true else None.
Proof.
  unfold forRange. destruct (decide (0 <= id < 32)) as [Hin|Hout].
  - apply (fold_store_hit (fun _ => true) (fun i => i) (fun _ => true));
      [apply NoDup_seqZ|auto| |reflexivity].
    apply elem_of_seqZ. unfold mediumGrayIndex. lia.
  - rewrite (fold_store_skip (fun _ => true) (fun i => i) (fun _ => true));
      [apply lookup_empty|].
    intros i Hi _ ->. apply elem_of_seqZ in Hi. unfold mediumGrayIndex in Hi. lia.
Qed.

(** The table, entry by entry, with the bits of the bitmap spelled as the
    reversed binary string of the code. *)
Lemma availableColors_lookup (extraColorsBitmap : option Z) (id : Z) :
  availableColors extraColorsBitmap !! id =
  if decide (0 <= id < 32) then Some true
  else if decide (32 <= id < 66) then
    Some match extraColorsBitmap with
         | Some n =>
             bool_decide (binaryBitmap (toUint32 n) !! Z.to_nat (id - 32)
                          = Some true)
         | None => false
         end
  else None.
Proof.
  unfold availableColors. destruct extraColorsBitmap as [n|].
  - cbv zeta. set (bits := binaryBitmap (toUint32 n)).
    set (len := Z.of_nat (length bits)).
    set (body := fun (acc : gmap Z bool) (i : Z) =>
                   if mediumGrayIndex + i <? totalColors
                   then <[mediumGrayIndex + i
                          := bool_decide (bits !! Z.to_nat i = Some true)]> acc
                   else acc).
    assert (Hfrom : forall j,
      forRange 0 len body always !! j =
      if decide (32 <= j < 32 + len /\ j < 66)
      then Some (bool_decide (bits !! Z.to_nat (j - 32) = Some true))
      else always !! j).
    { intros j. unfold forRange. destruct (decide _) as [[Hj1 Hj2]|Hout].
      - replace j with (mediumGrayIndex + (j - 32)) at 1
          by (unfold mediumGrayIndex; lia).
        apply (fold_store_hit (fun i => mediumGrayIndex + i <? totalColors)
                 (fun i => mediumGrayIndex + i)
                 (fun i => bool_decide (bits !! Z.to_nat i = Some true)));
          [apply NoDup_seqZ|intros; lia|apply elem_of_seqZ; lia|].
        apply Z.ltb_lt. unfold mediumGrayIndex, totalColors. lia.
      - apply (fold_store_skip (fun i => mediumGrayIndex + i <? totalColors)
                 (fun i => mediumGrayIndex + i)
                 (fun i => bool_decide (bits !! Z.to_nat i = Some true))).
        intros i Hi Hc E. apply elem_of_seqZ in Hi. apply Z.ltb_lt in Hc.
        unfold mediumGrayIndex, totalColors in *. lia. }
    unfold forRange at 1.
    destruct (decide (mediumGrayIndex + len <= id < totalColors)) as [Hin|Hout].
    + rewrite (fold_store_hit (fun _ => true) (fun i => i) (fun _ => false)
                 _ _ id (NoDup_seqZ _ _));
        [|auto|apply elem_of_seqZ; lia|reflexivity].
      unfold mediumGrayIndex, totalColors in Hin.
      rewrite decide_False by lia. rewrite decide_True by lia.
      unfold len, bits in *. rewrite binaryBitmap_beyond by lia. reflexivity.
    + rewrite (fold_store_skip (fun _ => true) (fun i => i) (fun _ => false)).
      2:{ intros i Hi _ ->. apply elem_of_seqZ in Hi. lia. }
      rewrite Hfrom, always_lookup.
      unfold mediumGrayIndex, totalColors in Hout.
      assert (0 < len) by (unfold len, bits; destruct (toUint32 n) as [|[]|];
                            simpl; lia).
      repeat case_decide; try reflexivity; try lia.
  - unfold forRange at 1.
    destruct (decide (mediumGrayIndex <= id < totalColors)) as [Hin|Hout].
    + rewrite (fold_store_hit (fun _ => true) (fun i => i) (fun _ => false)
                 _ _ id (NoDup_seqZ _ _));
        [|auto|apply elem_of_seqZ; lia|reflexivity].
      unfold mediumGrayIndex, totalColors in Hin.
      rewrite decide_False by lia. rewrite decide_True by lia. reflexivity.
    + rewrite (fold_store_skip (fun _ => true) (fun i => i) (fun _ => false)).
      2:{ intros i Hi _ ->. apply elem_of_seqZ in Hi. lia. }
      rewrite always_lookup. unfold mediumGrayIndex, totalColors in Hout.
      repeat case_decide; try reflexivity; lia.
Qed.

(** C10.  Whatever the bitmap field holds, ids 0 to 31 are marked
    available; an id from 32 to 65 is marked available exactly when bit
    [id - 32] of the bitmap (as an unsigned 32-bit number) is set, and
    unavailable when the bitmap is missing; no other id is in the table.
    In particular every id from 32 to 65 that lies beyond the binary
    length of the bitmap is marked unavailable. *)
Theorem availableColors_table (extraColorsBitmap : option Z) (id : Z) :
  availableColors extraColorsBitmap !! id =
    (if decide (0 <= id < 32) then Some true
     else if decide (32 <= id < 66) then
       Some match extraColorsBitmap with
            | Some n => Z.testbit (toUint32 n) (id - 32)
            | None => false
            end
     else None) /\
  (32 + match extraColorsBitmap with
        | Some n => Z.of_nat (length (binaryBitmap (toUint32 n)))
        | None => 0
        end <= id < 66 ->
   availableColors extraColorsBitmap !! id = Some false).
Proof.
  rewrite availableColors_lookup. split.
  - repeat case_decide; try reflexivity.
    destruct extraColorsBitmap as [n|]; [|reflexivity].
    rewrite binaryBitmap_testbit; [reflexivity| |lia].
    unfold toUint32. apply Z.mod_pos_bound. lia.
  - intros Hid. destruct extraColorsBitmap as [n|].
    + rewrite decide_False by lia. rewrite decide_True by lia.
      rewrite binaryBitmap_beyond by lia. reflexivity.
    + rewrite decide_False by lia. rewrite decide_True by lia. reflexivity.
Qed.

End AvailableColors.

Lemma availableColors_table_witness :
  ApiManager.availableColors (Some 5) !! 40 = Some false.
Proof.
  apply (availableColors_table (Some 5) 40). vm_compute.
  split; [discriminate|reflexivity].
Defined.

(** ** Removing painted pixels from the queue *)

Section QueueRemoval.
Import TemplateManager ApiManager.

Lemma removeKeys_idempotent (keys : gset string) (queue : list pixelData) :
  removeKeys keys (removeKeys keys queue) = removeKeys keys queue.
Proof.
  unfold removeKeys. induction queue as [|p queue IH]; [reflexivity|].
  rewrite (filter_cons _ p queue).
  destruct (decide (pixelKey p ∉ keys)) as [Hp|Hp]; [|exact IH].
  rewrite filter_cons, decide_True by exact Hp. f_equal. exact IH.
Qed.

Lemma removeKeys_absent (keys : gset string) (queue : list pixelData) :
  (forall p, p ∈ queue -> pixelKey p ∉ keys) ->
  removeKeys keys queue = queue.
Proof.
  unfold removeKeys. induction queue as [|p queue IH]; intros Habs; [reflexivity|].
  rewrite filter_cons, decide_True by (apply Habs; left).
  f_equal. apply IH. intros q Hq. apply Habs. right. exact Hq.
Qed.

Lemma elem_of_removeKeys (keys : gset string) (queue : list pixelData)
    (p : pixelData) :
  p ∈ removeKeys keys queue <-> (pixelKey p ∉ keys) /\ (p ∈ queue).
Proof.
  unfold removeKeys.
  exact (list_elem_of_filter (fun p => pixelKey p ∉ keys) queue p).
Qed.

(** C7.  After the update no entry of the queue carries the key of a
    submitted pixel, so none has the tile and pixel coordinates of one;
    the entries that stay keep their order.  Removing a set of keys twice
    gives the same queue as removing it once, and removing keys that no
    entry carries returns the queue as it was. *)
Theorem removePainted_idempotent (painted queue : list pixelData)
    (keys : gset string) :
  (forall p q, p ∈ painted -> q ∈ removePainted painted queue ->
               pixelKey q <> pixelKey p /\
               ~ (tileCoords q = tileCoords p /\ pixelCoords q = pixelCoords p)) /\
  removePainted painted (removePainted painted queue)
    = removePainted painted queue /\
  removeKeys keys (removeKeys keys queue) = removeKeys keys queue /\
  ((forall q, q ∈ queue -> pixelKey q ∉ keys) -> removeKeys keys queue = queue).
Proof.
  split; [|split; [apply removeKeys_idempotent|
                   split; [apply removeKeys_idempotent|apply removeKeys_absent]]].
  intros p q Hp Hq. unfold removePainted in Hq.
  apply elem_of_removeKeys in Hq as [Hq _].
  assert (Hne : pixelKey q <> pixelKey p).
  { intros E. apply Hq. rewrite E. apply elem_of_list_to_set.
    apply list_elem_of_fmap. exists p. split; [reflexivity|exact Hp]. }
  split; [exact Hne|]. intros [Ht Hx]. apply Hne.
  unfold pixelKey. rewrite Ht, Hx. reflexivity.
Qed.

End QueueRemoval.

Lemma removePainted_idempotent_witness :
  ApiManager.removeKeys {[ "1,2-3,4" ]}
    [TemplateManager.mkPixelData (7, 9) (0, 0) 0 2000000]
  = [TemplateManager.mkPixelData (7, 9) (0, 0) 0 2000000].
Proof.
  apply (removePainted_idempotent [] _ {[ "1,2-3,4" ]}).
  intros q Hq. apply list_elem_of_singleton in Hq. subst q.
  intros H. apply elem_of_singleton in H. vm_compute in H. discriminate.
Defined.

(** ** The controller's failure counter *)

Section FailureCounter.
Import AutoPainter.

Lemma reloads_emit (acts : list action) (s : painter) :
  reloads (emit acts s)
  = (reloads s
     + length (List.filter (fun a => match a with Reload => true | _ => false end)
                           acts))%nat.
Proof. unfold reloads, emit. simpl. rewrite List.filter_app, length_app. reflexivity. Qed.

Local Ltac count_reloads :=
  unfold reloads; simpl; rewrite ?List.filter_app, ?length_app; simpl;
  split; intros; (discriminate || lia).

(** An iteration that lets the loop go on has not reloaded the page, and
    no iteration reloads it twice. *)
Lemma cycle_reloads (a : attempt) (s : painter) :
  ((cycle a s).1 = Continue -> reloads (cycle a s).2 = reloads s) /\
  (reloads (cycle a s).2 <= reloads s + 1)%nat.
Proof.
  destruct a as [w|still w|ms w]; simpl.
  - destruct w as [still|]; count_reloads.
  - destruct still; simpl; [|count_reloads].
    destruct (failureThreshold s <=? failureCount s + 1); [count_reloads|].
    destruct w as [still|]; count_reloads.
  - destruct (0 <? ms); [|count_reloads].
    destruct w as [still|]; count_reloads.
Qed.

Lemma reloads_setPainting (v : bool) (s : painter) :
  reloads (setPainting v s) = reloads s.
Proof. reflexivity. Qed.

Lemma paintCycle_reloads (attempts : list attempt) : forall s : painter,
  (reloads (paintCycle attempts s).2 <= reloads s + 1)%nat /\
  ((paintCycle attempts s).1 = Continue ->
   reloads (paintCycle attempts s).2 = reloads s).
Proof.
  induction attempts as [|a rest IH]; intros s; simpl.
  - destruct (isPainting s); simpl; rewrite ?reloads_setPainting;
      split; auto; lia.
  - destruct (isPainting s);
      [|simpl; rewrite ?reloads_setPainting; split; auto; lia].
    destruct (cycle_reloads a s) as [Hc Hle].
    destruct (cycle a s) as [[|] s'] eqn:E; simpl in *.
    + destruct (IH s') as [H1 H2]. rewrite Hc in H1, H2 by reflexivity.
      split; assumption.
    + rewrite reloads_setPainting. split; [exact Hle|discriminate].
Qed.

(** C6.  Let the painter be running with threshold 3.  A step that fails
    while it is still running adds one to the failure counter.  If the
    counter thereby reaches 3 the iteration reloads the page at once,
    without waiting, and leaves the loop.  Below 3 it sets the
    network-paused flag, waits 10 seconds unless stopped, clears the flag,
    and goes round the loop again unless the wait was cut short.  A
    completed quick paint sets the counter to 0, and so does [start()]
    called on a painter that is not running.  On a fresh painter three
    failed steps in a row end the loop with exactly one reload, and no run
    of the loop reloads more than once. *)
Theorem paintCycle_failure_counter (s : painter) (w : waitResult) :
  isPainting s = true -> failureThreshold s = 3 ->
  failureCount (cycle (StepFailed true w) s).2 = failureCount s + 1 /\
  (3 <= failureCount s + 1 ->
   cycle (StepFailed true w) s
   = (Break, emit [Reload] (setFailureCount (failureCount s + 1) s))) /\
  (failureCount s + 1 < 3 ->
   trace (cycle (StepFailed true w) s).2
   = trace s ++ [SetNetworkPaused; Wait 10000; ClearNetworkPaused] /\
   (cycle (StepFailed true w) s).1
   = match w with Aborted => Break | Elapsed _ => Continue end) /\
  (forall ms w', failureCount (cycle (QuickPaintDone ms w') s).2 = 0) /\
  (forall s0, isPainting s0 = false ->
              failureCount (start s0) = 0 /\ isPainting (start s0) = true) /\
  (forall rest,
     run (StepFailed true (Elapsed true) :: StepFailed true (Elapsed true)
          :: StepFailed true w :: rest) constructor
     = (Break,
        mkPainter false 3 3
          [SetNetworkPaused; Wait 10000; ClearNetworkPaused;
           SetNetworkPaused; Wait 10000; ClearNetworkPaused; Reload])) /\
  (forall attempts,
     (reloads (paintCycle attempts s).2 <= reloads s + 1)%nat).
Proof.
  intros Hrun Hthr.
  assert (Hs : setPainting true s = s) by (destruct s; simpl in *; subst; reflexivity).
  split; [|split; [|split; [|split; [|split; [|split]]]]].
  - simpl. rewrite Hthr.
    destruct (3 <=? failureCount s + 1); [reflexivity|].
    destruct w; reflexivity.
  - intros Hge. simpl. rewrite Hthr.
    destruct (Z.leb_spec 3 (failureCount s + 1)); [|lia].
    rewrite Hs. reflexivity.
  - intros Hlt. simpl. rewrite Hthr.
    destruct (Z.leb_spec 3 (failureCount s + 1)); [lia|].
    destruct w; simpl; rewrite <- !app_assoc; split; reflexivity.
  - intros ms w'. simpl. destruct (0 <? ms); [|reflexivity].
    destruct w'; reflexivity.
  - intros s0 H0. unfold start. rewrite H0. split; reflexivity.
  - intros rest. reflexivity.
  - intros attempts. apply paintCycle_reloads.
Qed.

End FailureCounter.

Lemma paintCycle_failure_counter_witness :
  AutoPainter.trace
    (AutoPainter.cycle
       (AutoPainter.StepFailed true (AutoPainter.Elapsed true))
       (AutoPainter.start AutoPainter.constructor)).2
  = [AutoPainter.SetNetworkPaused; AutoPainter.Wait 10000;
     AutoPainter.ClearNetworkPaused] /\
  (AutoPainter.cycle
     (AutoPainter.StepFailed true (AutoPainter.Elapsed true))
     (AutoPainter.start AutoPainter.constructor)).1
  = AutoPainter.Continue.
Proof.
  apply (paintCycle_failure_counter
           (AutoPainter.start AutoPainter.constructor)
           (AutoPainter.Elapsed true)); [reflexivity|reflexivity|].
  simpl. lia.
Defined.

(** ** Weighted sampling in executeQuickPaint *)

Section SortDesc.
Import ApiManager.

Context {A : Type} (score : A -> R).

(** [a] may stand before [b] in a list sorted by descending score. *)
Definition notBelow (a b : A) : Prop := (score b <= score a)%R.

Lemma insertDesc_perm (x : A) (l : list A) : Permutation (insertDesc score x l) (x :: l).
Proof.
  induction l as [|y l IH]; simpl; [reflexivity|].
  destruct (Rlt_dec (score x) (score y)); [|reflexivity].
  rewrite IH. apply perm_swap.
Qed.

Lemma sortDesc_perm (l : list A) : Permutation (sortDesc score l) l.
Proof.
  induction l as [|x l IH]; simpl; [reflexivity|].
  rewrite insertDesc_perm. apply perm_skip, IH.
Qed.

Lemma sortDesc_length (l : list A) : length (sortDesc score l) = length l.
Proof. apply Permutation_length, sortDesc_perm. Qed.

Lemma insertDesc_sorted (x : A) (l : list A) :
  StronglySorted notBelow l -> StronglySorted notBelow (insertDesc score x l).
Proof.
  induction 1 as [|y l Hs IH Hall]; simpl.
  - constructor; constructor.
  - destruct (Rlt_dec (score x) (score y)) as [Hlt|Hge].
    + constructor; [exact IH|].
      apply Forall_forall. intros z Hz.
      rewrite (insertDesc_perm x l) in Hz.
      apply elem_of_cons in Hz as [->|Hz]; [unfold notBelow; lra|].
      rewrite Forall_forall in Hall. apply Hall, Hz.
    + constructor; [constructor; assumption|].
      constructor; [unfold notBelow; lra|].
      rewrite Forall_forall in *. intros z Hz.
      specialize (Hall z Hz). unfold notBelow in *. lra.
Qed.

Lemma sortDesc_sorted (l : list A) : StronglySorted notBelow (sortDesc score l).
Proof.
  induction l as [|x l IH]; simpl; [constructor|].
  apply insertDesc_sorted, IH.
Qed.

(** In a sorted list no element behind position [n] has a larger score
    than an element before it. *)
Lemma sorted_take_drop (l : list A) : forall (n : nat) (a b : A),
  StronglySorted notBelow l ->
  a ∈ take n l -> b ∈ drop n l -> notBelow a b.
Proof.
  induction l as [|x l IH]; intros n a b Hs Ha Hb.
  - destruct n; inversion Ha.
  - destruct n as [|n]; [inversion Ha|].
    apply StronglySorted_inv in Hs as [Hs Hall]. simpl in Ha, Hb.
    apply elem_of_cons in Ha as [->|Ha].
    + rewrite Forall_forall in Hall. apply Hall.
      rewrite <- (take_drop n l). apply elem_of_app. right. exact Hb.
    + apply (IH n); assumption.
Qed.

End SortDesc.

Section WeightedSampling.
Import TemplateManager ApiManager.
Open Scope R_scope.

Lemma weight_first (L : nat) : (2 <= L)%nat -> weight L 0 = 3.
Proof.
  intros HL. unfold weight. replace (1 <? L)%nat with true
    by (symmetry; apply Nat.ltb_lt; lia).
  simpl INR. lra.
Qed.

Lemma weight_last (L : nat) : (2 <= L)%nat -> weight L (L - 1) = 1.
Proof.
  intros HL. unfold weight. replace (1 <? L)%nat with true
    by (symmetry; apply Nat.ltb_lt; lia).
  rewrite minus_INR by lia. simpl INR.
  assert (2 <= INR L) by (apply (le_INR 2), HL).
  field. lra.
Qed.

Lemma weight_step (L i : nat) :
  (2 <= L)%nat -> weight L i - weight L (S i) = 2 / (INR L - 1).
Proof.
  intros HL. unfold weight. replace (1 <? L)%nat with true
    by (symmetry; apply Nat.ltb_lt; lia).
  rewrite S_INR.
  assert (2 <= INR L) by (apply (le_INR 2), HL).
  field. lra.
Qed.

Lemma weight_single : weight 1 0 = 1.
Proof. reflexivity. Qed.

Lemma weightedItems_lookup (random : nat -> R) (sortedQueue : list pixelData)
    (i : nat) (p : pixelData) :
  sortedQueue !! i = Some p ->
  weightedItems random sortedQueue !! i
  = Some (mkItem p (Math_pow (random i) (1 / weight (length sortedQueue) i))).
Proof.
  intros Hp. unfold weightedItems. rewrite list_lookup_imap, Hp. reflexivity.
Qed.

Lemma weightedItems_pixels (random : nat -> R) (sortedQueue : list pixelData) :
  pixel <$> weightedItems random sortedQueue = sortedQueue.
Proof.
  apply list_eq. intros i. unfold weightedItems.
  rewrite list_lookup_fmap, list_lookup_imap.
  destruct (sortedQueue !! i); reflexivity.
Qed.

(** Step 4 when it is reached: the first [min(paintCount, L)] items of the
    key-sorted list. *)
Lemma pixelsToPaint_take (random : nat -> R) (filtered : list pixelData)
    (paintCount : Z) :
  (0 < paintCount)%Z ->
  pixelsToPaint random filtered paintCount
  = pixel <$> take (Z.to_nat (Z.min paintCount (Z.of_nat (length filtered))))
                   (sortDesc key
                      (weightedItems random (sortDesc priority filtered))).
Proof.
  intros Hn. unfold pixelsToPaint. rewrite sortDesc_length.
  destruct filtered as [|p filtered].
  - simpl. rewrite Z.min_r by lia. reflexivity.
  - replace (length (p :: filtered) =? 0)%nat with false by reflexivity.
    replace (paintCount =? 0)%Z with false by (symmetry; apply Z.eqb_neq; lia).
    simpl orb. cbv iota.
    replace (0 <? Z.min paintCount (Z.of_nat (length (p :: filtered))))%Z
      with true; [reflexivity|].
    symmetry. apply Z.ltb_lt. simpl length. lia.
Qed.

End WeightedSampling.

(** A queue of two candidates on one tile, the better one first, and two
    sequences of draws from [0, 1). *)
Definition bestPixel : TemplateManager.pixelData :=
  TemplateManager.mkPixelData (0, 0) (0, 0) 1 2.
Definition otherPixel : TemplateManager.pixelData :=
  TemplateManager.mkPixelData (0, 0) (1, 0) 1 1.

Definition zeroDraws : nat -> R := fun _ => 0%R.
Definition lateDraws : nat -> R :=
  fun i => match i with O => 0%R | S _ => (1 / 2)%R end.

Section TwoPixels.
Import TemplateManager ApiManager.
Open Scope R_scope.

Lemma sortDesc_twoPixels :
  sortDesc priority [bestPixel; otherPixel] = [bestPixel; otherPixel].
Proof.
  simpl. destruct (Rlt_dec 2 1) as [H|H]; [lra|reflexivity].
Qed.

Lemma Math_pow_zero (e : R) : Math_pow 0 e = 0.
Proof. unfold Math_pow. destruct (Req_dec_T 0 0); [reflexivity|contradiction]. Qed.

Lemma Math_pow_pos (u e : R) : 0 < u -> 0 < Math_pow u e.
Proof.
  intros Hu. unfold Math_pow. destruct (Req_dec_T u 0); [lra|].
  unfold Rpower. apply exp_pos.
Qed.

Lemma pixelsToPaint_lateDraws :
  pixelsToPaint lateDraws [bestPixel; otherPixel] 1 = [otherPixel].
Proof.
  rewrite pixelsToPaint_take by lia. rewrite sortDesc_twoPixels.
  change (weightedItems lateDraws [bestPixel; otherPixel])
    with [mkItem bestPixel (Math_pow 0 (1 / weight 2 0));
          mkItem otherPixel (Math_pow (1 / 2) (1 / weight 2 1))].
  rewrite Math_pow_zero.
  pose proof (Math_pow_pos (1 / 2) (1 / weight 2 1) ltac:(lra)) as Hpos.
  cbn [sortDesc insertDesc key].
  destruct (Rlt_dec 0 (Math_pow (1 / 2) (1 / weight 2 1))); [reflexivity|lra].
Qed.

Lemma pixelsToPaint_zeroDraws :
  pixelsToPaint zeroDraws [bestPixel; otherPixel] 1 = [bestPixel].
Proof.
  rewrite pixelsToPaint_take by lia. rewrite sortDesc_twoPixels.
  change (weightedItems zeroDraws [bestPixel; otherPixel])
    with [mkItem bestPixel (Math_pow 0 (1 / weight 2 0));
          mkItem otherPixel (Math_pow 0 (1 / weight 2 1))].
  rewrite !Math_pow_zero. cbn [sortDesc insertDesc key].
  destruct (Rlt_dec 0 0); [lra|reflexivity].
Qed.

End TwoPixels.

Section SamplingTheorem.
Import TemplateManager ApiManager.
Open Scope R_scope.

(** C1.  For a filtered queue and a positive budget, let [sortedQueue] be
    the queue in descending priority and [L] its length.  The candidate of
    rank [i] gets the weight [3 - 2 i / (L - 1)]: 3 at rank 0, 1 at the
    last rank, with equal steps in between (a queue of one candidate gets
    weight 1), and the key [u_i ^ (1 / weight)] for its own draw [u_i].
    The function selects exactly [min(budget, L)] candidates: the
    selection and the pixels left out together are a rearrangement of the
    queue (no candidate is taken twice), and no item left out has a larger
    key than a selected one.  The result depends on the draws: on the two-candidate queue
    above with budget 1, draws from [0, 1) exist that select the
    lower-priority candidate rather than the top slice, and others that
    select the top one. *)
Theorem pixelsToPaint_weighted_sampling (random : nat -> R)
    (filtered : list pixelData) (paintCount : Z) :
  (0 < paintCount)%Z ->
  let sortedQueue := sortDesc priority filtered in
  let L := length sortedQueue in
  let items := weightedItems random sortedQueue in
  length (pixelsToPaint random filtered paintCount)
    = Z.to_nat (Z.min paintCount (Z.of_nat (length filtered))) /\
  (Permutation sortedQueue filtered /\
   StronglySorted (notBelow priority) sortedQueue) /\
  ((2 <= L)%nat ->
   weight L 0 = 3 /\ weight L (L - 1) = 1 /\
   forall i, weight L i - weight L (S i) = 2 / (INR L - 1)) /\
  (L = 1%nat -> weight L 0 = 1) /\
  (forall i p, sortedQueue !! i = Some p ->
     items !! i = Some (mkItem p (Math_pow (random i) (1 / weight L i)))) /\
  (exists chosen rest,
     pixelsToPaint random filtered paintCount = pixel <$> chosen /\
     Permutation (chosen ++ rest) items /\
     Permutation (pixelsToPaint random filtered paintCount ++ (pixel <$> rest))
                 filtered /\
     forall a b, a ∈ chosen -> b ∈ rest -> key b <= key a) /\
  (exists queue (budget : Z) (r1 r2 : nat -> R),
     (0 < budget)%Z /\
     (forall i, 0 <= r1 i < 1) /\ (forall i, 0 <= r2 i < 1) /\
     pixelsToPaint r1 queue budget
       <> take (Z.to_nat budget) (sortDesc priority queue) /\
     pixelsToPaint r2 queue budget
       = take (Z.to_nat budget) (sortDesc priority queue)).
Proof.
  intros Hn sortedQueue L items.
  pose proof (pixelsToPaint_take random filtered paintCount Hn) as Htake.
  fold sortedQueue in Htake. fold items in Htake.
  assert (Hlen : length (sortDesc key items) = length filtered).
  { rewrite sortDesc_length. unfold items, weightedItems.
    rewrite length_imap. apply sortDesc_length. }
  split; [|split; [|split; [|split; [|split; [|split]]]]].
  - rewrite Htake, length_fmap, length_take, Hlen. lia.
  - split; [apply sortDesc_perm|apply sortDesc_sorted].
  - intros HL. split; [apply weight_first, HL|].
    split; [apply weight_last, HL|]. intros i. apply weight_step, HL.
  - intros ->. apply weight_single.
  - intros i p Hp. apply weightedItems_lookup, Hp.
  - exists (take (Z.to_nat (Z.min paintCount (Z.of_nat (length filtered))))
                 (sortDesc key items)),
           (drop (Z.to_nat (Z.min paintCount (Z.of_nat (length filtered))))
                 (sortDesc key items)).
    split; [exact Htake|]. split; [rewrite take_drop; apply sortDesc_perm|].
    split.
    { rewrite Htake, <- fmap_app, take_drop.
      rewrite (sortDesc_perm key items). unfold items.
      rewrite weightedItems_pixels. apply sortDesc_perm. }
    intros a b Ha Hb.
    apply (sorted_take_drop key (sortDesc key items) _ a b
             (sortDesc_sorted key items) Ha Hb).
  - exists [bestPixel; otherPixel], 1%Z, lateDraws, zeroDraws.
    split; [lia|].
    split; [intros [|i]; unfold lateDraws; lra|].
    split; [intros i; unfold zeroDraws; lra|].
    rewrite pixelsToPaint_lateDraws, pixelsToPaint_zeroDraws, sortDesc_twoPixels.
    split; [|reflexivity]. simpl. intros E. inversion E.
Qed.

End SamplingTheorem.

Lemma pixelsToPaint_weighted_sampling_witness :
  length (ApiManager.pixelsToPaint lateDraws [bestPixel; otherPixel] 1)
  = Z.to_nat (Z.min 1 (Z.of_nat (length [bestPixel; otherPixel]))).
Proof.
  apply (pixelsToPaint_weighted_sampling lateDraws [bestPixel; otherPixel] 1).
  lia.
Defined.

(** * Further properties of the code *)

(** ** utils.js: coordinates, modulo and encoding *)

Section Modulo.
Import Utils.

Lemma rem_same_sign (x b : Z) :
  (0 <= x /\ 0 < b) \/ (x <= 0 /\ b < 0) -> Z.rem x b = x mod b.
Proof.
  intros [[Hx Hb]|[Hx Hb]].
  - apply Z.rem_mod_nonneg; assumption.
  - assert (Ex : x = - (- x)) by lia. assert (Eb : b = - (- b)) by lia.
    assert (Hx' : 0 <= - x) by lia. assert (Hb' : 0 < - b) by lia.
    revert Ex Eb Hx' Hb'. generalize (- x) (- b). intros x' b' -> -> Hx' Hb'.
    rewrite Z.rem_opp_opp by lia. rewrite Z.rem_mod_nonneg by lia.
    rewrite Z.mod_opp_opp by lia. reflexivity.
Qed.

(** X1.  For integers [a] up to [2 ^ 53] and [b] up to [2 ^ 52] in
    magnitude, where the sum [a % b + b] is exact: for a divisor other
    than zero the result is the remainder of the floored division, which
    has the sign of the divisor, so for a positive [b] it lies in [0, b)
    and differs from [a] by a multiple of [b].  A zero divisor gives
    [NaN]. *)
Theorem negativeSafeModulo_floor (a b : Z) :
  Z.abs a <= 2 ^ 53 -> Z.abs b <= 2 ^ 52 ->
  negativeSafeModulo a b = (if decide (b = 0) then None else Some (a mod b)) /\
  (0 < b -> exists r, negativeSafeModulo a b = Some r /\
                      0 <= r < b /\ (b | a - r)).
Proof.
  intros Ha Hb52.
  assert (Hmain : b <> 0 -> negativeSafeModulo a b = Some (a mod b)).
  { intros Hb. unfold negativeSafeModulo, jsRem.
    replace (b =? 0) with false by (symmetry; apply Z.eqb_neq, Hb).
    assert (Hr : Z.abs (Z.rem a b) < Z.abs b) by (apply Z.rem_bound_abs, Hb).
    assert (Hexact : roundBinary64 (Z.rem a b + b) = Some (Z.rem a b + b)).
    { unfold roundBinary64. cbv zeta.
      replace (Z.abs (Z.rem a b + b) <? 2 ^ 53) with true; [reflexivity|].
      symmetry. apply Z.ltb_lt. lia. }
    cbn. rewrite Hexact. cbn.
    replace (b =? 0) with false by (symmetry; apply Z.eqb_neq, Hb).
    f_equal.
    rewrite rem_same_sign by lia.
    replace (Z.rem a b + b) with (Z.rem a b + 1 * b) by ring.
    rewrite Z.mod_add by exact Hb. rewrite Z.rem_eq by exact Hb.
    replace (a - b * (a ÷ b)) with (a + (- (a ÷ b)) * b) by ring.
    apply Z.mod_add, Hb. }
  split.
  - destruct (decide (b = 0)) as [->|Hb]; [|exact (Hmain Hb)].
    unfold negativeSafeModulo, jsRem. reflexivity.
  - intros Hb. exists (a mod b). split; [apply Hmain; lia|].
    split; [apply Z.mod_pos_bound, Hb|].
    exists (a / b). pose proof (Z.div_mod a b ltac:(lia)). lia.
Qed.

(** Beyond that range the sum is rounded and the result is no remainder
    of [a]: the sum [2 ^ 54 - 3] of the first line is halfway between two
    binary64 numbers and becomes [2 ^ 54 - 4].  A sum that overflows gives
    [NaN]. *)
Example negativeSafeModulo_rounded :
  negativeSafeModulo (2 ^ 53 - 2) (2 ^ 53 - 1) = Some (2 ^ 53 - 3) /\
  (2 ^ 53 - 2) mod (2 ^ 53 - 1) = 2 ^ 53 - 2 /\
  negativeSafeModulo (2 ^ 1023) (2 ^ 1023 + 2 ^ 971) = None.
Proof. vm_compute. repeat split; reflexivity. Qed.

Lemma negativeSafeModulo_floor_witness :
  negativeSafeModulo (-7) 3
    = (if decide (3 = 0) then None else Some ((-7) mod 3)) /\
  (0 < 3 -> exists r, negativeSafeModulo (-7) 3 = Some r /\
                      0 <= r < 3 /\ (3 | -7 - r)).
Proof. apply (negativeSafeModulo_floor (-7) 3); vm_compute; discriminate. Defined.

(** X2.  For tile numbers that are not negative and pixel offsets inside a
    tile, each displayed coordinate lies in [0, 4000): its thousands are
    the tile number modulo 4 and its remainder is the pixel offset, so
    tiles four apart are displayed alike. *)
Theorem serverTPtoDisplayTP_decode (tile pixel : Z * Z) :
  0 <= tile.1 -> 0 <= tile.2 ->
  0 <= pixel.1 < 1000 -> 0 <= pixel.2 < 1000 ->
  let d := serverTPtoDisplayTP tile pixel in
  0 <= d.1 < 4000 /\ 0 <= d.2 < 4000 /\
  d.1 / 1000 = tile.1 mod 4 /\ d.1 mod 1000 = pixel.1 /\
  d.2 / 1000 = tile.2 mod 4 /\ d.2 mod 1000 = pixel.2 /\
  serverTPtoDisplayTP (tile.1 + 4, tile.2 + 4) pixel = d.
Proof.
  intros Ht1 Ht2 Hp1 Hp2. cbv zeta. unfold serverTPtoDisplayTP. cbn [fst snd].
  rewrite !Z.rem_mod_nonneg by lia.
  pose proof (Z.mod_pos_bound tile.1 4 ltac:(lia)) as H1.
  pose proof (Z.mod_pos_bound tile.2 4 ltac:(lia)) as H2.
  replace ((tile.1 + 4) mod 4) with (tile.1 mod 4)
    by (symmetry; apply (Z.mod_add _ 1 4); lia).
  replace ((tile.2 + 4) mod 4) with (tile.2 mod 4)
    by (symmetry; apply (Z.mod_add _ 1 4); lia).
  repeat split; try lia.
  - symmetry. apply (Z.div_unique _ _ _ pixel.1); lia.
  - symmetry. apply (Z.mod_unique _ _ (tile.1 mod 4)); lia.
  - symmetry. apply (Z.div_unique _ _ _ pixel.2); lia.
  - symmetry. apply (Z.mod_unique _ _ (tile.2 mod 4)); lia.
Qed.

End Modulo.

(** ** The palette *)

Section PaletteFixed.
Import Utils.

(** X6.  Every colour of the palette other than entry 0 is its own nearest
    colour: no two of these entries have the same RGB value. *)
Theorem findClosestColor_palette (i : nat) (col : color) :
  (1 <= i)%nat -> colorpalette !! i = Some col ->
  findClosestColor (rgb col) = Z.of_nat i.
Proof.
  intros Hi.
  do 64 (destruct i as [|i];
         [first [lia | intros [= <-]; vm_compute; reflexivity]|]).
  discriminate.
Qed.

End PaletteFixed.

(** ** numberToEncoded *)

Section Encoding.
Import Utils.





Variable encoding : list ascii.
Let base : Z := Z.of_nat (length encoding).

Hypothesis base_ge_2 : 2 <= base.
Hypothesis encoding_NoDup : NoDup encoding.






End Encoding.

Section EncodingEdges.
Import Utils.

Lemma encodeLoop_runs_on (encoding : list ascii) :
  (length encoding <= 1)%nat ->
  forall (fuel : nat) (result : list ascii),
    encodeLoop fuel encoding result Infinity = None /\
    forall n, 0 < n -> encodeLoop fuel encoding result (Finite n) = None.
Proof.
  intros Hb. induction fuel as [|fuel IH]; intros result.
  - split; [reflexivity|]. intros n Hn. cbn.
    replace (0 <? n) with true by (symmetry; apply Z.ltb_lt, Hn). reflexivity.
  - split; [cbn; apply IH|]. intros n Hn. cbn [encodeLoop].
    replace (0 <? n) with true by (symmetry; apply Z.ltb_lt, Hn).
    destruct encoding as [|c [|c' rest]]; [| |simpl in Hb; lia].
    + cbn. apply IH.
    + change (Z.of_nat (length [c])) with 1.
      replace (1 =? 0) with false by reflexivity. rewrite Z.div_1_r.
      apply IH, Hn.
Qed.

(** X5.  Outside this range: a negative number is encoded as the empty string;
    0 with an empty encoding gives [undefined]; and for a positive number
    and an encoding of fewer than two characters the loop never ends,
    however many iterations it is given. *)
Theorem numberToEncoded_edges (encoding : list ascii) (n : Z) (fuel : nat) :
  (n < 0 -> numberToEncoded fuel n encoding = Some (Str [])) /\
  (n = 0 -> encoding = [] -> numberToEncoded fuel n encoding = Some Undefined) /\
  (0 < n -> (length encoding <= 1)%nat ->
   numberToEncoded fuel n encoding = None).
Proof.
  unfold numberToEncoded. split; [|split].
  - intros Hn. replace (n =? 0) with false by (symmetry; apply Z.eqb_neq; lia).
    destruct fuel; cbn;
      replace (0 <? n) with false by (symmetry; apply Z.ltb_ge; lia);
      reflexivity.
  - intros -> ->. reflexivity.
  - intros Hn Hb. replace (n =? 0) with false by (symmetry; apply Z.eqb_neq; lia).
    destruct (encodeLoop_runs_on encoding Hb fuel []) as [_ H].
    rewrite (H n Hn). reflexivity.
Qed.

End EncodingEdges.


(** The example of the function's documentation. *)
Example numberToEncoded_doc :
  Utils.numberToEncoded 5 12345 (String.list_ascii_of_string "012abcABC")
  = Some (Utils.Str (String.list_ascii_of_string "1BCaA")).
Proof. vm_compute. reflexivity. Qed.



(** ** More on the colour distance *)

Section DistanceFacts.
Import Utils.
Open Scope R_scope.

(** X7.  The score of a correction is 0 between equal colours and does not
    depend on which of the two colours is the live one. *)
Theorem calculateColorDifference_symmetric (rgb1 rgb2 : RGB) :
  calculateColorDifference rgb1 rgb1 = 0 /\
  calculateColorDifference rgb1 rgb2 = calculateColorDifference rgb2 rgb1 /\
  0 <= calculateColorDifference rgb1 rgb2.
Proof.
  unfold calculateColorDifference. cbv zeta.
  rewrite ciede2000_same, (ciede2000_sym (labOf rgb1) (labOf rgb2)).
  split; [ring|]. split; [reflexivity|].
  apply Rmult_le_pos; [|lra].
  destruct (labOf rgb2) as [[l2 a2] b2], (labOf rgb1) as [[l1 a1] b1].
  unfold ciede2000. cbv zeta. apply sqrt_pos.
Qed.

End DistanceFacts.

(** ** More on analyzeTile *)

Section PaletteIds.
Import Utils.

(** The id returned is the index of a palette entry other than entry 0. *)
Lemma findClosestColor_range (c : RGB) : 1 <= findClosestColor c <= 63.
Proof.
  pose proof (findClosestColor_run_fresh c) as Hrun.
  unfold findClosestColor.
  destruct (findClosestColor_scanned c) as (st & Hst & Hs).
  unfold findClosestColor_run in *.
  change (initializePalettes None) with (Some colorpaletteRGB0) in *.
  cbn [fst]. rewrite Hst. cbn [fmap option_fmap option_map].
  unfold scanned in Hs. destruct (minDistanceSq st) as [d|].
  - destruct Hs as (i & p & -> & Hi & Hlk & _).
    apply lookup_lt_Some in Hlk.
    change (length colorpaletteRGB0) with 64%nat in Hlk. lia.
  - destruct Hs as [_ Hlen]. change (length colorpaletteRGB0) with 64%nat in Hlen.
    lia.
Qed.

End PaletteIds.

Section ListFacts2.

Context {A B K : Type}.

Lemma fmap_omap_sublist (f : A -> option B) (key : B -> K) (g : A -> K)
    (l : list A) :
  (forall a c, f a = Some c -> key c = g a) ->
  key <$> omap f l `sublist_of` g <$> l.
Proof.
  intros Hk. induction l as [|a l IH]; [constructor|].
  cbn [omap list_omap]. change (g <$> a :: l) with (g a :: (g <$> l)).
  destruct (f a) as [c|] eqn:E.
  - change (key <$> c :: omap f l) with (key c :: (key <$> omap f l)).
    rewrite (Hk a c E). apply sublist_skip, IH.
  - apply sublist_cons, IH.
Qed.

End ListFacts2.

Section AnalyzeTileMore.
Import Utils TemplateManager.

Variable m : manager.
Variables (gameImageData templateImageData : Z -> Z).
Variable templatesToDraw : list chunk.
Variable tile : (Z * Z)%type.

Hypothesis template_bytes : forall i, isByte (templateImageData i).
Hypothesis cache_consistent : cache_ok (templateColorCache m).

(** X9.  The candidates come in scan order, at most one per pixel of the
    bounding rectangle, and all carry the tile they were found on. *)
Theorem analyzeTile_one_per_pixel :
  pixelCoords <$> fst (analyzeTile m gameImageData templateImageData
                                   templatesToDraw tile)
    `sublist_of` coordsOf (boundingRect templatesToDraw) /\
  NoDup (pixelCoords <$> fst (analyzeTile m gameImageData templateImageData
                                          templatesToDraw tile)) /\
  forall c, c ∈ fst (analyzeTile m gameImageData templateImageData
                                 templatesToDraw tile) ->
    tileCoords c = tile /\
    minX (boundingRect templatesToDraw) <= (pixelCoords c).1
      < maxX (boundingRect templatesToDraw) /\
    minY (boundingRect templatesToDraw) <= (pixelCoords c).2
      < maxY (boundingRect templatesToDraw).
Proof.
  destruct (analyzeTile_candidates m gameImageData templateImageData
              templatesToDraw tile template_bytes cache_consistent)
    as (-> & _).
  unfold tileCandidates.
  assert (Hsub : pixelCoords <$>
                   omap (fun p => candidateAt templateImageData gameImageData tile
                                   (analyzeTransparentPixels m)
                                   (boundingRect templatesToDraw) p.1 p.2)
                        (coordsOf (boundingRect templatesToDraw))
                 `sublist_of` coordsOf (boundingRect templatesToDraw)).
  { rewrite <- (list_fmap_id (coordsOf (boundingRect templatesToDraw))) at 2.
    apply fmap_omap_sublist. intros [x y] c Hc.
    apply candidateAt_coords in Hc. exact Hc. }
  split; [exact Hsub|]. split.
  - eapply sublist_NoDup; [apply NoDup_coordsOf|exact Hsub].
  - intros c Hc.
    apply (elem_of_tileCandidates templateImageData gameImageData tile
             (analyzeTransparentPixels m) (boundingRect templatesToDraw))
      in Hc as (x & y & Hin & Hc).
    rewrite (candidateAt_coords _ _ _ _ _ _ _ _ Hc).
    split; [|exact Hin].
    rewrite candidateAt_tier in Hc.
    destruct (tierAt _ _ _ x y) as [[| |]|]; inversion Hc; reflexivity.
Qed.

(** X10.  The colour id of a candidate is a palette id: 0 for an erasure, which
    only grief-clean mode produces and only under a template sample of
    alpha below 128; otherwise the id, from 1 to 63, of the palette colour
    nearest to the template sample. *)
Theorem analyzeTile_color_ids (c : pixelData) :
  c ∈ fst (analyzeTile m gameImageData templateImageData
                       templatesToDraw tile) ->
  (colorId c = 0 /\ analyzeTransparentPixels m = true /\
   templateAlpha templateImageData (pixelCoords c).1 (pixelCoords c).2 < 128) \/
  (1 <= colorId c <= 63 /\
   colorId c = findClosestColor
                 (templateRGB templateImageData (pixelCoords c).1 (pixelCoords c).2) /\
   128 < templateAlpha templateImageData (pixelCoords c).1 (pixelCoords c).2).
Proof.
  destruct (analyzeTile_candidates m gameImageData templateImageData
              templatesToDraw tile template_bytes cache_consistent)
    as (-> & _).
  intros Hc.
  apply (elem_of_tileCandidates templateImageData gameImageData tile
           (analyzeTransparentPixels m) (boundingRect templatesToDraw))
    in Hc as (x & y & _ & Hc).
  rewrite (candidateAt_coords _ _ _ _ _ _ _ _ Hc). cbn [fst snd].
  rewrite candidateAt_tier in Hc. unfold tierAt in Hc.
  destruct (analyzeTransparentPixels m
            && (templateAlpha templateImageData x y <? 128)
            && (0 <? gameAlpha gameImageData x y)) eqn:Hg.
  { injection Hc as <-. left. cbn.
    apply andb_prop in Hg as [Hg _]. apply andb_prop in Hg as [Ha Ht].
    apply Z.ltb_lt in Ht. auto. }
  right.
  destruct ((128 <? templateAlpha templateImageData x y)
            && (gameAlpha gameImageData x y <? 128)) eqn:Hn.
  { injection Hc as <-. cbn. apply andb_prop in Hn as [Ht _].
    apply Z.ltb_lt in Ht.
    split; [apply findClosestColor_range|]. split; [reflexivity|exact Ht]. }
  destruct ((128 <? templateAlpha templateImageData x y)
            && (128 <=? gameAlpha gameImageData x y)
            && negb (findClosestColor (gameRGB gameImageData x y)
                     =? findClosestColor (templateRGB templateImageData x y)))
    eqn:Hw; [|discriminate].
  injection Hc as <-. cbn. apply andb_prop in Hw as [Hw _].
  apply andb_prop in Hw as [Ht _]. apply Z.ltb_lt in Ht.
  split; [apply findClosestColor_range|]. split; [reflexivity|exact Ht].
Qed.

(** X11.  A pixel of the rectangle yields no candidate exactly when its template
    sample has alpha 128, or alpha below 128 while grief-clean is off or
    the live sample has alpha 0 or less, or alpha above 128 while the live
    sample has alpha 128 or more and converts to the same palette id. *)
Theorem analyzeTile_no_candidate_iff (x y : Z) :
  minX (boundingRect templatesToDraw) <= x < maxX (boundingRect templatesToDraw) ->
  minY (boundingRect templatesToDraw) <= y < maxY (boundingRect templatesToDraw) ->
  filter (fun c => pixelCoords c = (x, y))
    (fst (analyzeTile m gameImageData templateImageData
                      templatesToDraw tile)) = []
  <->
  (templateAlpha templateImageData x y = 128 \/
   (templateAlpha templateImageData x y < 128 /\
    (analyzeTransparentPixels m = false \/ gameAlpha gameImageData x y <= 0)) \/
   (128 < templateAlpha templateImageData x y /\
    128 <= gameAlpha gameImageData x y /\
    findClosestColor (gameRGB gameImageData x y)
    = findClosestColor (templateRGB templateImageData x y))).
Proof.
  intros Hx Hy.
  rewrite (analyzeTile_at m gameImageData templateImageData templatesToDraw
             tile template_bytes cache_consistent x y Hx Hy).
  rewrite candidateAt_tier. unfold tierAt.
  destruct (analyzeTransparentPixels m);
    destruct (Z.ltb_spec (templateAlpha templateImageData x y) 128);
    destruct (Z.ltb_spec 0 (gameAlpha gameImageData x y));
    destruct (Z.ltb_spec 128 (templateAlpha templateImageData x y));
    destruct (Z.ltb_spec (gameAlpha gameImageData x y) 128);
    destruct (Z.leb_spec 128 (gameAlpha gameImageData x y));
    destruct (Z.eqb_spec (findClosestColor (gameRGB gameImageData x y))
                         (findClosestColor (templateRGB templateImageData x y)));
    cbn; (split; [intros Hnil; try discriminate Hnil; try lia; auto 10 with lia
                 |intros [Ha|[[Ha [Hb|Hb]]|(Ha & Hb & Hc)]];
                  first [reflexivity|lia|discriminate|congruence]]).
Qed.

End AnalyzeTileMore.

Section CacheTransparent.
Import Utils TemplateManager.

(** X12.  The candidates do not depend on what the colour cache holds, as long
    as it holds conversions only: two managers in the same mode report the
    same candidates. *)
Theorem analyzeTile_cache_transparent (m1 m2 : manager)
    (gameImageData templateImageData : Z -> Z)
    (templatesToDraw : list chunk) (tile : Z * Z) :
  (forall i, isByte (templateImageData i)) ->
  cache_ok (templateColorCache m1) -> cache_ok (templateColorCache m2) ->
  analyzeTransparentPixels m1 = analyzeTransparentPixels m2 ->
  fst (analyzeTile m1 gameImageData templateImageData templatesToDraw tile)
  = fst (analyzeTile m2 gameImageData templateImageData templatesToDraw tile).
Proof.
  intros Hb H1 H2 Hmode.
  destruct (analyzeTile_candidates m1 gameImageData templateImageData
              templatesToDraw tile Hb H1) as (-> & _).
  destruct (analyzeTile_candidates m2 gameImageData templateImageData
              templatesToDraw tile Hb H2) as (-> & _).
  rewrite Hmode. reflexivity.
Qed.

End CacheTransparent.

Section BoundingRect.
Import TemplateManager.

Definition chunkStep (b : rect) (t : chunk) : rect :=
  mkRect (Z.min (minX b) (startX t)) (Z.min (minY b) (startY t))
         (Z.max (maxX b) (startX t + bitmapWidth t / drawMult))
         (Z.max (maxY b) (startY t + bitmapHeight t / drawMult)).

Lemma boundingRect_fold (l : list chunk) : forall b0 : rect,
  let b := fold_left chunkStep l b0 in
  (minX b <= minX b0 /\ minY b <= minY b0 /\
   maxX b0 <= maxX b /\ maxY b0 <= maxY b) /\
  forall t, t ∈ l ->
    minX b <= startX t /\ minY b <= startY t /\
    startX t + bitmapWidth t / drawMult <= maxX b /\
    startY t + bitmapHeight t / drawMult <= maxY b.
Proof.
  induction l as [|t0 l IH]; intros b0; cbn zeta.
  - split; [cbn; lia|]. intros t Ht. inversion Ht.
  - cbn [fold_left]. destruct (IH (chunkStep b0 t0)) as [Hm Hin].
    cbn zeta in Hm, Hin. cbn [chunkStep minX minY maxX maxY] in Hm.
    split; [lia|].
    intros t Ht. apply elem_of_cons in Ht as [->|Ht]; [lia|exact (Hin t Ht)].
Qed.

(** X8.  Every pixel of every chunk lies in the rectangle the two loops scan,
    and the rectangle is never wider than the span from 0 to the tile size
    requires: its lower corner is at most [tileSize], its upper at least 0. *)
Theorem boundingRect_covers (templatesToDraw : list chunk) (t : chunk)
    (x y : Z) :
  t ∈ templatesToDraw ->
  startX t <= x < startX t + bitmapWidth t / drawMult ->
  startY t <= y < startY t + bitmapHeight t / drawMult ->
  (x, y) ∈ coordsOf (boundingRect templatesToDraw) /\
  minX (boundingRect templatesToDraw) <= tileSize /\
  minY (boundingRect templatesToDraw) <= tileSize /\
  0 <= maxX (boundingRect templatesToDraw) /\
  0 <= maxY (boundingRect templatesToDraw).
Proof.
  intros Ht Hx Hy.
  destruct (boundingRect_fold templatesToDraw (mkRect tileSize tileSize 0 0))
    as [Hm Hin].
  cbn zeta in Hm, Hin. change (fold_left chunkStep templatesToDraw _)
    with (boundingRect templatesToDraw) in Hm, Hin.
  cbn [minX minY maxX maxY] in Hm. specialize (Hin t Ht).
  split; [apply elem_of_coordsOf; lia|lia].
Qed.

End BoundingRect.

Section ColorKeyMore.
Import TemplateManager.

(** X13.  The cache key packs the four bytes without loss: two samples get the
    same key only if they agree in alpha, red, green and blue.  The key is
    a signed 32-bit number, negative exactly when alpha is 128 or more. *)
Theorem templateColorKey_injective (a r g b a' r' g' b' : Z) :
  isByte a -> isByte r -> isByte g -> isByte b ->
  isByte a' -> isByte r' -> isByte g' -> isByte b' ->
  (templateColorKey a r g b = templateColorKey a' r' g' b' ->
   (a, r, g, b) = (a', r', g', b')) /\
  - 2 ^ 31 <= templateColorKey a r g b < 2 ^ 31 /\
  (templateColorKey a r g b < 0 <-> 128 <= a).
Proof.
  intros Ha Hr Hg Hb Ha' Hr' Hg' Hb'.
  rewrite !templateColorKey_sum by assumption.
  unfold isByte in *.
  destruct (Z.leb_spec 128 a), (Z.leb_spec 128 a');
    (split; [intros E; repeat f_equal; lia|split; lia]).
Qed.

End ColorKeyMore.

Section CenterFirst.
Import Utils TemplateManager.
Open Scope R_scope.

(** The squared distance of a pixel to the centre of the rectangle. *)
Definition distFromCenterSq (b : rect) (x y : Z) : R :=
  (IZR x - centerX b) ^ 2 + (IZR y - centerY b) ^ 2.

Lemma centerBonus_closer (b : rect) (x1 y1 x2 y2 : Z) :
  (minX b < maxX b)%Z -> (minY b < maxY b)%Z ->
  distFromCenterSq b x1 y1 < distFromCenterSq b x2 y2 ->
  centerBonus b x2 y2 < centerBonus b x1 y1.
Proof.
  intros Hx Hy. apply IZR_lt in Hx, Hy.
  unfold distFromCenterSq, centerBonus, maxDist. intros Hd.
  set (d1 := (IZR x1 - centerX b) ^ 2 + (IZR y1 - centerY b) ^ 2) in *.
  set (d2 := (IZR x2 - centerX b) ^ 2 + (IZR y2 - centerY b) ^ 2) in *.
  assert (H1 : 0 <= d1)
    by (unfold d1; apply Rplus_le_le_0_compat; apply pow2_ge_0).
  assert (HM : 0 < (IZR (maxX b) - centerX b) ^ 2 + (IZR (maxY b) - centerY b) ^ 2).
  { unfold centerX, centerY. rewrite !pow2_mult.
    set (u := IZR (maxX b) - (IZR (minX b) + (IZR (maxX b) - IZR (minX b)) / 2)).
    set (v := IZR (maxY b) - (IZR (minY b) + (IZR (maxY b) - IZR (minY b)) / 2)).
    assert (Hu : 0 < u) by (unfold u; lra).
    assert (Hv : 0 < v) by (unfold v; lra).
    clearbody u v. nra. }
  pose proof (sqrt_lt_R0 _ HM) as HsM.
  destruct (Rlt_dec 0 _) as [_|Hn]; [|lra].
  pose proof (sqrt_lt_1 d1 d2 H1 ltac:(lra) Hd) as Hs.
  assert (Hdiv : sqrt d1 / sqrt ((IZR (maxX b) - centerX b) ^ 2
                                 + (IZR (maxY b) - centerY b) ^ 2)
                 < sqrt d2 / sqrt ((IZR (maxX b) - centerX b) ^ 2
                                   + (IZR (maxY b) - centerY b) ^ 2)).
  { apply Rmult_lt_compat_r; [apply Rinv_0_lt_compat, HsM|exact Hs]. }
  lra.
Qed.

Variable m : manager.
Variables (gameImageData templateImageData : Z -> Z).
Variable templatesToDraw : list chunk.
Variable tile : (Z * Z)%type.

Hypothesis template_bytes : forall i, isByte (templateImageData i).
Hypothesis cache_consistent : cache_ok (templateColorCache m).

(** X14.  Among the pixels to be placed on empty spots of one tile, the one
    nearer to the centre of the bounding rectangle gets the strictly
    higher priority. *)
Theorem analyzeTile_center_first (x1 y1 x2 y2 : Z) :
  let b := boundingRect templatesToDraw in
  (minX b <= x1 < maxX b)%Z -> (minY b <= y1 < maxY b)%Z ->
  (minX b <= x2 < maxX b)%Z -> (minY b <= y2 < maxY b)%Z ->
  (128 < templateAlpha templateImageData x1 y1)%Z ->
  (gameAlpha gameImageData x1 y1 < 128)%Z ->
  (128 < templateAlpha templateImageData x2 y2)%Z ->
  (gameAlpha gameImageData x2 y2 < 128)%Z ->
  distFromCenterSq b x1 y1 < distFromCenterSq b x2 y2 ->
  exists c1 c2,
    filter (fun c => pixelCoords c = (x1, y1))
      (fst (analyzeTile m gameImageData templateImageData templatesToDraw tile))
    = [c1] /\
    filter (fun c => pixelCoords c = (x2, y2))
      (fst (analyzeTile m gameImageData templateImageData templatesToDraw tile))
    = [c2] /\
    priority c2 < priority c1.
Proof.
  cbv zeta. intros Hx1 Hy1 Hx2 Hy2 Ht1 Hg1 Ht2 Hg2 Hd.
  rewrite !(analyzeTile_at m gameImageData templateImageData templatesToDraw
              tile template_bytes cache_consistent) by assumption.
  rewrite !candidateAt_tier. unfold tierAt.
  replace (templateAlpha templateImageData x1 y1 <? 128)%Z with false
    by (symmetry; apply Z.ltb_ge; lia).
  replace (templateAlpha templateImageData x2 y2 <? 128)%Z with false
    by (symmetry; apply Z.ltb_ge; lia).
  rewrite !andb_false_r. cbn [andb].
  replace (128 <? templateAlpha templateImageData x1 y1)%Z with true
    by (symmetry; apply Z.ltb_lt; lia).
  replace (128 <? templateAlpha templateImageData x2 y2)%Z with true
    by (symmetry; apply Z.ltb_lt; lia).
  replace (gameAlpha gameImageData x1 y1 <? 128)%Z with true
    by (symmetry; apply Z.ltb_lt; lia).
  replace (gameAlpha gameImageData x2 y2 <? 128)%Z with true
    by (symmetry; apply Z.ltb_lt; lia).
  cbn [andb]. eexists _, _. split; [reflexivity|]. split; [reflexivity|].
  cbn [priority].
  apply Rplus_lt_compat_l, centerBonus_closer; [lia|lia|exact Hd].
Qed.

End CenterFirst.

(** ** drawTemplateOnTile: the overlay filter *)

Section HideInPlace.
Import TemplateManager.

Variables (tempW tempH offsetX offsetY : Z).
Variable gameData : list Z.
Hypothesis tempW_pos : 0 < tempW.

Local Abbreviation inPlace' := (inPlace tempW offsetX offsetY gameData).
Local Abbreviation hidePixel' := (hidePixel tempW offsetX offsetY gameData).

(** The byte [k] is the alpha byte of a pixel of [done] that is in place
    in [orig]. *)
Definition hit (orig : list Z) (done : list (Z * Z)) (k : nat) : Prop :=
  exists x y, (x, y) ∈ done /\ Z.of_nat k = (y * tempW + x) * 4 + 3 /\
              inPlace' orig x y = true.

Definition tracks (orig : list Z) (done : list (Z * Z)) (data : list Z) : Prop :=
  forall k : nat,
    (hit orig done k -> data !! k = (fun _ => 0) <$> orig !! k) /\
    (~ hit orig done k -> data !! k = orig !! k).

Lemma inPlace_ext (d1 d2 : list Z) (x y : Z) :
  (forall j, 0 <= j < 4 ->
     typedGet d1 ((y * tempW + x) * 4 + j) = typedGet d2 ((y * tempW + x) * 4 + j)) ->
  inPlace' d1 x y = inPlace' d2 x y.
Proof.
  intros H. unfold inPlace. cbv zeta.
  rewrite <- (H 3), <- (H 1), <- (H 2) by lia.
  replace (typedGet d2 ((y * tempW + x) * 4))
    with (typedGet d1 ((y * tempW + x) * 4))
    by (rewrite <- (Z.add_0_r ((y * tempW + x) * 4)); apply H; lia).
  reflexivity.
Qed.

Lemma pixel_index_inj (x y x' y' j j' : Z) :
  0 <= x < tempW -> 0 <= x' < tempW -> 0 <= j < 4 -> 0 <= j' < 4 ->
  (y * tempW + x) * 4 + j = (y' * tempW + x') * 4 + j' ->
  x = x' /\ y = y' /\ j = j'.
Proof.
  intros Hx Hx' Hj Hj' E.
  assert (Ej : j = j') by lia. subst j'.
  assert (E' : y * tempW + x = y' * tempW + x') by lia.
  assert (Ey : y = y') by nia. subst y'. lia.
Qed.

Lemma tracks_step (orig data : list Z) (done : list (Z * Z)) (x y : Z) :
  0 <= x < tempW -> 0 <= y ->
  (forall p, p ∈ done -> 0 <= p.1 < tempW) ->
  (x, y) ∉ done ->
  tracks orig done data ->
  tracks orig (done ++ [(x, y)]) (hidePixel' y data x).
Proof.
  intros Hx Hy Hdone Hnew Ht.
  assert (Hsame : forall j, 0 <= j < 4 ->
            typedGet data ((y * tempW + x) * 4 + j)
            = typedGet orig ((y * tempW + x) * 4 + j)).
  { intros j Hj. unfold typedGet.
    replace ((y * tempW + x) * 4 + j <? 0) with false
      by (symmetry; apply Z.ltb_ge; nia).
    apply (Ht (Z.to_nat ((y * tempW + x) * 4 + j))).
    intros (x' & y' & Hin & Hk & _). rewrite Z2Nat.id in Hk by nia.
    specialize (Hdone _ Hin). cbn in Hdone.
    destruct (pixel_index_inj x y x' y' j 3 Hx Hdone Hj ltac:(lia) Hk)
      as (-> & -> & _).
    contradiction. }
  assert (Hin : inPlace' data x y = inPlace' orig x y)
    by (apply inPlace_ext, Hsame).
  unfold hidePixel. rewrite Hin. intros k.
  destruct (Ht k) as [Hhit Hmiss].
  assert (Hsplit : hit orig (done ++ [(x, y)]) k <->
            hit orig done k \/
            (Z.of_nat k = (y * tempW + x) * 4 + 3 /\ inPlace' orig x y = true)).
  { unfold hit. split.
    - intros (x' & y' & Hin' & Hk & Hp). apply elem_of_app in Hin' as [Hin'|Hin'].
      + left. exists x', y'. auto.
      + apply list_elem_of_singleton in Hin'. injection Hin' as -> ->.
        right. auto.
    - intros [(x' & y' & Hin' & Hk & Hp)|[Hk Hp]].
      + exists x', y'. split; [apply elem_of_app; left; exact Hin'|auto].
      + exists x, y. split; [|auto]. apply elem_of_app. right.
        apply list_elem_of_singleton. reflexivity. }
  destruct (inPlace' orig x y) eqn:Hp.
  - unfold typedSet.
    replace ((y * tempW + x) * 4 + 3 <? 0) with false
      by (symmetry; apply Z.ltb_ge; nia).
    destruct (decide (k = Z.to_nat ((y * tempW + x) * 4 + 3))) as [->|Hk].
    + split; [intros _|intros Hn; exfalso; apply Hn, Hsplit; right;
                       split; [rewrite Z2Nat.id by nia; reflexivity|reflexivity]].
      rewrite <- Hmiss.
      * destruct (data !! Z.to_nat ((y * tempW + x) * 4 + 3)) eqn:E.
        -- rewrite list_lookup_insert_eq by (eapply lookup_lt_Some, E).
           reflexivity.
        -- rewrite (proj2 (list_lookup_insert_None _ _ _ _) E). reflexivity.
      * intros (x' & y' & Hin' & Hk' & _). rewrite Z2Nat.id in Hk' by nia.
        specialize (Hdone _ Hin'). cbn in Hdone.
        destruct (pixel_index_inj x y x' y' 3 3 Hx Hdone ltac:(lia) ltac:(lia) Hk')
          as (-> & -> & _).
        contradiction.
    + rewrite list_lookup_insert_ne by congruence. split.
      * intros Hh. apply Hhit. apply Hsplit in Hh as [Hh|[Hk' _]]; [exact Hh|].
        exfalso. apply Hk. rewrite <- Hk', Nat2Z.id. reflexivity.
      * intros Hn. apply Hmiss. intros Hh. apply Hn, Hsplit. left. exact Hh.
  - split.
    + intros Hh. apply Hhit. apply Hsplit in Hh as [Hh|[_ Hf]];
        [exact Hh|discriminate].
    + intros Hn. apply Hmiss. intros Hh. apply Hn, Hsplit. left. exact Hh.
Qed.

Lemma tracks_fold (orig : list Z) : forall (ps done : list (Z * Z)) (data : list Z),
  NoDup (done ++ ps) ->
  (forall p, p ∈ done ++ ps -> 0 <= p.1 < tempW /\ 0 <= p.2) ->
  tracks orig done data ->
  tracks orig (done ++ ps) (fold_left (fun d p => hidePixel' p.2 d p.1) ps data).
Proof.
  induction ps as [|[x y] ps IH]; intros done data Hnd Hdom Ht.
  - rewrite app_nil_r. exact Ht.
  - cbn [fold_left fst snd].
    replace (done ++ (x, y) :: ps) with ((done ++ [(x, y)]) ++ ps) in *
      by (rewrite <- app_assoc; reflexivity).
    apply IH; [exact Hnd|exact Hdom|].
    apply NoDup_app in Hnd as (Hnd & _ & _). apply NoDup_app in Hnd as (_ & Hnew & _).
    assert (Hxy : (x, y) ∈ (done ++ [(x, y)]) ++ ps).
    { apply elem_of_app. left. apply elem_of_app. right.
      apply list_elem_of_singleton. reflexivity. }
    destruct (Hdom _ Hxy) as [Hx Hy]. cbn in Hx, Hy.
    apply tracks_step; [exact Hx|exact Hy| | |exact Ht].
    + intros p Hp. apply Hdom. apply elem_of_app. left. apply elem_of_app.
      left. exact Hp.
    + intros Hin. apply (Hnew _ Hin). apply list_elem_of_singleton. reflexivity.
Qed.

Lemma rows_flat (xs : list Z) : forall (ys : list Z) (data : list Z),
  fold_left (fun d y => fold_left (hidePixel' y) xs d) ys data
  = fold_left (fun d p => hidePixel' p.2 d p.1)
              (y ← ys; (fun x => (x, y)) <$> xs) data.
Proof.
  induction ys as [|y ys IH]; intros data; [reflexivity|].
  cbn [fold_left]. rewrite IH.
  change (y ← y :: ys; (fun x => (x, y)) <$> xs)
    with (((fun x => (x, y)) <$> xs) ++ (y ← ys; (fun x => (x, y)) <$> xs)).
  rewrite fold_left_app. f_equal.
  clear. revert data. induction xs as [|x xs IHx]; intros data; [reflexivity|].
  cbn. apply IHx.
Qed.

(** The pixels of the chunk in the order of the two loops. *)
Definition chunkPixels : list (Z * Z) :=
  coordsOf (mkRect 0 0 tempW tempH).

Lemma hideInPlace_tracks (orig : list Z) :
  tracks orig chunkPixels (hideInPlace tempW tempH offsetX offsetY gameData orig).
Proof.
  unfold hideInPlace. rewrite rows_flat.
  replace (y ← seqZ 0 tempH; (fun x => (x, y)) <$> seqZ 0 tempW) with chunkPixels
    by (unfold chunkPixels, coordsOf; cbn [minX minY maxX maxY];
        rewrite !Z.sub_0_r; reflexivity).
  apply (tracks_fold orig chunkPixels [] orig).
  - apply NoDup_coordsOf.
  - intros [x y] Hp. apply elem_of_coordsOf in Hp. cbn in *. lia.
  - intros k. split; [|reflexivity].
    intros (x & y & Hin & _). inversion Hin.
Qed.

Lemma hit_chunkPixels (orig : list Z) (x y : Z) :
  0 <= x < tempW -> 0 <= y < tempH ->
  hit orig chunkPixels (Z.to_nat ((y * tempW + x) * 4 + 3))
  <-> inPlace' orig x y = true.
Proof.
  intros Hx Hy. unfold hit. rewrite Z2Nat.id by nia. split.
  - intros (x' & y' & Hin & Hk & Hp).
    apply elem_of_coordsOf in Hin. cbn in Hin.
    destruct (pixel_index_inj x y x' y' 3 3 Hx ltac:(lia) ltac:(lia) ltac:(lia) Hk)
      as (-> & -> & _).
    exact Hp.
  - intros Hp. exists x, y. split; [|auto].
    apply elem_of_coordsOf. cbn. lia.
Qed.

Lemma inPlace_visible (orig : list Z) (x y : Z) :
  inPlace' orig x y = true ->
  exists v, typedGet orig ((y * tempW + x) * 4 + 3) = Some v /\ 128 < v.
Proof.
  unfold inPlace. cbv zeta.
  destruct (typedGet orig ((y * tempW + x) * 4 + 3)) as [v|]; cbn;
    [|discriminate].
  destruct (Z.ltb_spec 128 v); [|discriminate]. intros _. exists v. auto.
Qed.

Lemma hidePixel_length (y : Z) (data : list Z) (x : Z) :
  length (hidePixel' y data x) = length data.
Proof.
  unfold hidePixel, typedSet.
  destruct (inPlace' data x y); [|reflexivity].
  destruct (_ <? 0); [reflexivity|apply length_insert].
Qed.

Lemma hideInPlace_length (tData : list Z) :
  length (hideInPlace tempW tempH offsetX offsetY gameData tData) = length tData.
Proof.
  unfold hideInPlace. generalize (seqZ 0 tempH). intros ys. revert tData.
  induction ys as [|y ys IH]; intros tData; [reflexivity|].
  cbn [fold_left]. rewrite IH.
  generalize (seqZ 0 tempW). intros xs. revert tData.
  induction xs as [|x xs IHx]; intros tData; [reflexivity|].
  cbn [fold_left]. rewrite IHx. apply hidePixel_length.
Qed.

Lemma hideInPlace_bytes (tData : list Z) (x y : Z) :
  0 <= x < tempW -> 0 <= y < tempH ->
  let result := hideInPlace tempW tempH offsetX offsetY gameData tData in
  let tIdx := (y * tempW + x) * 4 in
  typedGet result (tIdx + 3)
  = (if inPlace' tData x y then Some 0 else typedGet tData (tIdx + 3)) /\
  typedGet result tIdx = typedGet tData tIdx /\
  typedGet result (tIdx + 1) = typedGet tData (tIdx + 1) /\
  typedGet result (tIdx + 2) = typedGet tData (tIdx + 2) /\
  length result = length tData.
Proof.
  intros Hx Hy. cbv zeta.
  pose proof (hideInPlace_tracks tData) as Ht.
  assert (Hcol : forall j, 0 <= j < 3 ->
            typedGet (hideInPlace tempW tempH offsetX offsetY gameData tData)
                     ((y * tempW + x) * 4 + j)
            = typedGet tData ((y * tempW + x) * 4 + j)).
  { intros j Hj. unfold typedGet.
    replace ((y * tempW + x) * 4 + j <? 0) with false
      by (symmetry; apply Z.ltb_ge; nia).
    apply Ht. intros (x' & y' & Hin & Hk & _). rewrite Z2Nat.id in Hk by nia.
    apply elem_of_coordsOf in Hin. cbn in Hin.
    destruct (pixel_index_inj x y x' y' j 3 Hx ltac:(lia) ltac:(lia) ltac:(lia) Hk)
      as (_ & _ & ?). lia. }
  split; [|split; [|split; [|split]]].
  - unfold typedGet.
    replace ((y * tempW + x) * 4 + 3 <? 0) with false
      by (symmetry; apply Z.ltb_ge; nia).
    destruct (inPlace' tData x y) eqn:Hp.
    + destruct (Ht (Z.to_nat ((y * tempW + x) * 4 + 3))) as [Hhit _].
      rewrite Hhit by (apply hit_chunkPixels; assumption).
      destruct (inPlace_visible tData x y Hp) as (v & Hv & _).
      unfold typedGet in Hv.
      replace ((y * tempW + x) * 4 + 3 <? 0) with false in Hv
        by (symmetry; apply Z.ltb_ge; nia).
      rewrite Hv. reflexivity.
    + apply Ht. intros Hh. apply hit_chunkPixels in Hh; [|assumption..].
      congruence.
  - rewrite <- (Z.add_0_r ((y * tempW + x) * 4)). apply Hcol. lia.
  - apply Hcol. lia.
  - apply Hcol. lia.
  - apply hideInPlace_length.
Qed.
(** X15.  What the pass does to the pixel [(x, y)] of the chunk: the alpha byte
    becomes 0 if the pixel is in place (visible, on the tile, over a
    visible live pixel of the same colour) and keeps its value otherwise;
    the three colour bytes keep their values.  The array keeps its
    length. *)
Theorem hideInPlace_pixel (tData : list Z) (x y : Z) :
  0 <= x < tempW -> 0 <= y < tempH ->
  let result := hideInPlace tempW tempH offsetX offsetY gameData tData in
  let tIdx := (y * tempW + x) * 4 in
  typedGet result (tIdx + 3)
  = (if inPlace' tData x y then Some 0 else typedGet tData (tIdx + 3)) /\
  typedGet result tIdx = typedGet tData tIdx /\
  typedGet result (tIdx + 1) = typedGet tData (tIdx + 1) /\
  typedGet result (tIdx + 2) = typedGet tData (tIdx + 2) /\
  length result = length tData.
Proof. exact (hideInPlace_bytes tData x y). Qed.

(** X16.  After the pass no pixel of the chunk is in place any more, and a
    second pass over the result changes nothing. *)
Theorem hideInPlace_idempotent (tData : list Z) :
  let result := hideInPlace tempW tempH offsetX offsetY gameData tData in
  (forall x y, 0 <= x < tempW -> 0 <= y < tempH -> inPlace' result x y = false) /\
  hideInPlace tempW tempH offsetX offsetY gameData result = result.
Proof.
  cbv zeta.
  set (result := hideInPlace tempW tempH offsetX offsetY gameData tData).
  assert (Hnone : forall x y, 0 <= x < tempW -> 0 <= y < tempH ->
            inPlace' result x y = false).
  { intros x y Hx Hy.
    destruct (hideInPlace_bytes tData x y Hx Hy) as (Ha & Hr & Hg & Hb & _).
    cbv zeta in Ha, Hr, Hg, Hb. fold result in Ha, Hr, Hg, Hb.
    destruct (inPlace' tData x y) eqn:Hp.
    - unfold inPlace. cbv zeta. rewrite Ha. reflexivity.
    - rewrite <- Hp. apply inPlace_ext. intros j Hj.
      assert (j = 0 \/ j = 1 \/ j = 2 \/ j = 3) as [-> | [-> | [-> | ->]]] by lia;
        [rewrite Z.add_0_r; exact Hr|exact Hg|exact Hb|exact Ha]. }
  split; [exact Hnone|].
  apply list_eq. intros k.
  apply (hideInPlace_tracks result k).
  intros (x & y & Hin & _ & Hp).
  apply elem_of_coordsOf in Hin. cbn in Hin.
  rewrite Hnone in Hp by lia. discriminate.
Qed.

End HideInPlace.

(** A chunk of one canvas pixel over a tile whose first pixel has the
    same colour. *)
Lemma hideInPlace_pixel_witness :
  let result := TemplateManager.hideInPlace 1 1 0 0 [10; 20; 30; 255]
                                             [10; 20; 30; 255] in
  TemplateManager.typedGet result 3
  = (if TemplateManager.inPlace 1 0 0 [10; 20; 30; 255] [10; 20; 30; 255] 0 0
     then Some 0 else TemplateManager.typedGet [10; 20; 30; 255] 3) /\
  TemplateManager.typedGet result 0 = TemplateManager.typedGet [10; 20; 30; 255] 0 /\
  TemplateManager.typedGet result 1 = TemplateManager.typedGet [10; 20; 30; 255] 1 /\
  TemplateManager.typedGet result 2 = TemplateManager.typedGet [10; 20; 30; 255] 2 /\
  length result = length [10; 20; 30; 255].
Proof.
  apply (hideInPlace_pixel 1 1 0 0 [10; 20; 30; 255] ltac:(lia)
           [10; 20; 30; 255] 0 0); lia.
Defined.

Lemma hideInPlace_idempotent_witness :
  let result := TemplateManager.hideInPlace 1 1 0 0 [10; 20; 30; 255]
                                             [10; 20; 30; 255] in
  (forall x y, 0 <= x < 1 -> 0 <= y < 1 ->
     TemplateManager.inPlace 1 0 0 [10; 20; 30; 255] result x y = false) /\
  TemplateManager.hideInPlace 1 1 0 0 [10; 20; 30; 255] result = result.
Proof.
  apply (hideInPlace_idempotent 1 1 0 0 [10; 20; 30; 255] ltac:(lia)).
Defined.

Example hideInPlace_example :
  TemplateManager.hideInPlace 1 1 0 0 [10; 20; 30; 255] [10; 20; 30; 255]
  = [10; 20; 30; 0].
Proof. vm_compute. reflexivity. Qed.

(** ** More on executeQuickPaint *)

Section Budget.
Import TemplateManager ApiManager.

Lemma pixelsToPaint_sub (random : nat -> R) (filtered : list pixelData)
    (n : Z) :
  exists rest, Permutation (pixelsToPaint random filtered n ++ rest) filtered.
Proof.
  destruct (Z.ltb_spec 0 n) as [Hn|Hn].
  - rewrite pixelsToPaint_take by exact Hn.
    set (items := sortDesc key (weightedItems random (sortDesc priority filtered))).
    set (k := Z.to_nat (Z.min n (Z.of_nat (length filtered)))).
    exists (pixel <$> drop k items).
    rewrite <- fmap_app, take_drop. unfold items.
    rewrite (sortDesc_perm key), weightedItems_pixels.
    apply sortDesc_perm.
  - exists filtered. unfold pixelsToPaint.
    destruct ((length filtered =? 0)%nat || (n =? 0)); [reflexivity|].
    cbv zeta.
    replace (0 <? Z.min n (Z.of_nat (length (sortDesc priority filtered))))
      with false; [reflexivity|].
    symmetry. apply Z.ltb_ge. lia.
Qed.

Lemma pixelsToPaint_length (random : nat -> R) (filtered : list pixelData)
    (n : Z) :
  Z.of_nat (length (pixelsToPaint random filtered n)) <= Z.max 0 n.
Proof.
  destruct (Z.ltb_spec 0 n) as [Hn|Hn].
  - rewrite pixelsToPaint_take by exact Hn.
    rewrite length_fmap, length_take. lia.
  - unfold pixelsToPaint.
    destruct ((length filtered =? 0)%nat || (n =? 0)); [simpl; lia|].
    cbv zeta.
    replace (0 <? Z.min n (Z.of_nat (length (sortDesc priority filtered))))
      with false; [simpl; lia|].
    symmetry. apply Z.ltb_ge. lia.
Qed.

(** X18.  What one run paints stays within the budget and within the paintable
    part of the queue: at most [max(0, charges - reserve)] pixels, hence no
    more than the charges when the reserve is not negative; each of them
    an entry of the queue with colour id 0 or an available colour; and no
    entry is taken more often than the queue holds it. *)
Theorem quickPaint_within_budget (random : nat -> R)
    (available : gmap Z bool) (fullPixelQueue : list pixelData)
    (currentCharges : Z) (parsed : option Z) :
  let painted :=
    pixelsToPaint random (filteredQueue available fullPixelQueue)
                  (paintCount currentCharges parsed) in
  Z.of_nat (length painted) <= Z.max 0 (currentCharges - reservedCharges parsed) /\
  (0 <= reservedCharges parsed ->
   Z.of_nat (length painted) <= Z.max 0 currentCharges) /\
  (forall p, p ∈ painted ->
     p ∈ fullPixelQueue /\
     (colorId p = 0 \/ available !! colorId p = Some true)) /\
  (NoDup fullPixelQueue -> NoDup painted).
Proof.
  cbv zeta.
  pose proof (pixelsToPaint_length random (filteredQueue available fullPixelQueue)
                (paintCount currentCharges parsed)) as Hlen.
  destruct (pixelsToPaint_sub random (filteredQueue available fullPixelQueue)
              (paintCount currentCharges parsed)) as [rest Hperm].
  unfold paintCount in Hlen at 2.
  repeat split.
  - lia.
  - intros Hr. lia.
  - assert (Hin : p ∈ filteredQueue available fullPixelQueue).
    { rewrite <- Hperm. apply elem_of_app. left. assumption. }
    unfold filteredQueue in Hin. apply list_elem_of_In, filter_In in Hin.
    apply list_elem_of_In, Hin.
  - assert (Hin : p ∈ filteredQueue available fullPixelQueue).
    { rewrite <- Hperm. apply elem_of_app. left. assumption. }
    unfold filteredQueue in Hin. apply list_elem_of_In, filter_In in Hin.
    destruct Hin as [_ Hp]. unfold paintable in Hp.
    apply orb_prop in Hp as [Hp|Hp].
    + left. apply Z.eqb_eq, Hp.
    + right. apply bool_decide_eq_true in Hp. exact Hp.
  - intros Hnd.
    assert (Hf : NoDup (filteredQueue available fullPixelQueue)).
    { unfold filteredQueue. apply NoDup_ListNoDup, List.NoDup_filter.
      apply NoDup_ListNoDup, Hnd. }
    rewrite <- Hperm in Hf. apply NoDup_app in Hf. apply Hf.
Qed.

End Budget.

Section EarlierSelection.
Import TemplateManager ApiManager.

Lemma sorted_take {A : Type} (R : A -> A -> Prop) (l : list A) :
  forall n : nat, StronglySorted R l -> StronglySorted R (take n l).
Proof.
  induction l as [|x l IH]; intros n Hs; [destruct n; constructor|].
  destruct n as [|n]; [constructor|].
  apply StronglySorted_inv in Hs as [Hs Hall]. simpl.
  constructor; [apply IH, Hs|].
  rewrite Forall_forall in *. intros y Hy. apply Hall.
  apply (subseteq_take n l), Hy.
Qed.

(** X23.  The selection of the earlier revision is the head of the priority
    order: it holds [min(paintCount, length)] pixels (none for a budget
    that is not positive), in descending priority, it is a part of the
    filtered queue, and no pixel left behind has a larger priority than
    a selected one. *)
Theorem pixelsToPaintEarlier_top (filtered : list pixelData)
    (currentCharges : Z) (parsed : option Z) :
  let painted := pixelsToPaintEarlier filtered currentCharges parsed in
  length painted =
    Z.to_nat (Z.min (paintCount currentCharges parsed)
                    (Z.of_nat (length filtered))) /\
  StronglySorted (notBelow priority) painted /\
  exists rest, Permutation (painted ++ rest) filtered /\
    forall a b, a ∈ painted -> b ∈ rest -> (priority b <= priority a)%R.
Proof.
  cbv zeta. unfold pixelsToPaintEarlier.
  destruct filtered as [|p filtered].
  - simpl. split; [|split].
    + unfold paintCount. lia.
    + constructor.
    + exists []. split; [reflexivity|]. intros a b Ha. inversion Ha.
  - change ((length (p :: filtered) =? 0)%nat) with false. cbv iota zeta.
    set (l := p :: filtered).
    set (k := Z.to_nat (Z.min (paintCount currentCharges parsed)
                              (Z.of_nat (length (sortDesc priority l))))).
    pose proof (sortDesc_sorted priority l) as Hs.
    split; [|split].
    + rewrite length_take. unfold k. rewrite sortDesc_length. lia.
    + apply sorted_take, Hs.
    + exists (drop k (sortDesc priority l)). split.
      * rewrite take_drop. apply sortDesc_perm.
      * intros a b Ha Hb.
        apply (sorted_take_drop priority (sortDesc priority l) k a b Hs Ha Hb).
Qed.

End EarlierSelection.

Section AvailableFilter.
Import TemplateManager ApiManager.

(** X17.  The filter of step 4 applied with the table built from the "me"
    response: the entries that pass, in queue order, are those with a
    colour id from 0 to 31 and those with an id from 32 to 65 whose bit is
    set in the bitmap.  With no table in storage (the empty object) only
    the entries with colour id 0 pass. *)
Theorem filteredQueue_available (extraColorsBitmap : option Z)
    (fullPixelQueue : list pixelData) (p : pixelData) :
  (p ∈ filteredQueue (availableColors extraColorsBitmap) fullPixelQueue <->
   p ∈ fullPixelQueue /\
   (0 <= colorId p < 32 \/
    (32 <= colorId p < 66 /\
     exists n, extraColorsBitmap = Some n /\
               Z.testbit (toUint32 n) (colorId p - 32) = true))) /\
  (p ∈ filteredQueue ∅ fullPixelQueue <->
   p ∈ fullPixelQueue /\ colorId p = 0) /\
  filteredQueue (availableColors extraColorsBitmap) fullPixelQueue
    `sublist_of` fullPixelQueue.
Proof.
  unfold filteredQueue. split; [|split].
  - rewrite list_elem_of_In, filter_In, <- list_elem_of_In.
    unfold paintable. rewrite availableColors_lookup.
    split.
    + intros [Hin Hp]. split; [exact Hin|].
      apply orb_prop in Hp as [Hp|Hp]; [apply Z.eqb_eq in Hp; lia|].
      apply bool_decide_eq_true in Hp.
      destruct (decide (0 <= colorId p < 32)) as [H0|H0]; [left; exact H0|].
      destruct (decide (32 <= colorId p < 66)) as [H1|H1]; [|discriminate].
      right. split; [exact H1|].
      destruct extraColorsBitmap as [n|]; [|discriminate].
      exists n. split; [reflexivity|].
      injection Hp as Hp.
      rewrite binaryBitmap_testbit in Hp;
        [exact Hp|unfold toUint32; apply Z.mod_pos_bound; lia|lia].
    + intros [Hin Hc]. split; [exact Hin|].
      apply orb_true_iff. destruct (Z.eqb_spec (colorId p) 0) as [?|Hne];
        [left; reflexivity|right].
      apply bool_decide_eq_true.
      destruct Hc as [H0|(H1 & n & -> & Hbit)].
      * rewrite decide_True by exact H0. reflexivity.
      * rewrite decide_False by lia. rewrite decide_True by exact H1.
        rewrite binaryBitmap_testbit;
          [rewrite Hbit; reflexivity
          |unfold toUint32; apply Z.mod_pos_bound; lia|lia].
  - rewrite list_elem_of_In, filter_In, <- list_elem_of_In.
    unfold paintable. rewrite lookup_empty.
    split; intros [Hin Hp]; (split; [exact Hin|]).
    + apply orb_prop in Hp as [Hp|Hp]; [apply Z.eqb_eq, Hp|].
      apply bool_decide_eq_true in Hp. discriminate.
    + rewrite Hp. reflexivity.
  - generalize (paintable (availableColors extraColorsBitmap)). intros f.
    induction fullPixelQueue as [|q l IH]; [constructor|].
    simpl. destruct (f q); [apply sublist_skip|apply sublist_cons]; exact IH.
Qed.

End AvailableFilter.

Section Grouping.
Import TemplateManager ApiManager.

Definition pixelPair (p : pixelData) : list Z :=
  [(pixelCoords p).1; (pixelCoords p).2].

Lemma tilesToPaint_snoc (l : list pixelData) (p : pixelData) :
  tilesToPaint (l ++ [p]) = pushToGroup (tileKey p) p (tilesToPaint l).
Proof. unfold tilesToPaint. rewrite fold_left_app. reflexivity. Qed.

Lemma pushToGroup_keys (key : string) (p : pixelData)
    (tiles : list (string * group)) :
  (pushToGroup key p tiles).*1
  = if decide (key ∈ tiles.*1) then tiles.*1 else tiles.*1 ++ [key].
Proof.
  induction tiles as [|[k g] rest IH].
  - destruct (decide (key ∈ ([] : list (string * group)).*1)) as [H|H];
      [inversion H|reflexivity].
  - cbn [pushToGroup]. destruct (String.eqb_spec k key) as [->|Hne].
    + destruct (decide (key ∈ ((key, g) :: rest).*1)) as [H|H]; [reflexivity|].
      exfalso. apply H. apply elem_of_cons. left. reflexivity.
    + change (((k, g) :: pushToGroup key p rest).*1)
        with (k :: (pushToGroup key p rest).*1).
      rewrite IH.
      change (((k, g) :: rest).*1) with (k :: rest.*1).
      destruct (decide (key ∈ rest.*1)) as [Hin|Hout];
        destruct (decide (key ∈ k :: rest.*1)) as [Hin'|Hout'];
        try reflexivity.
      * exfalso. apply Hout'. apply elem_of_cons. right. exact Hin.
      * exfalso. apply elem_of_cons in Hin' as [Hin'|Hin'];
          [congruence|contradiction].
Qed.

Lemma pushToGroup_elem (key : string) (p : pixelData)
    (tiles : list (string * group)) (k : string) (g : group) :
  NoDup tiles.*1 ->
  (k, g) ∈ pushToGroup key p tiles ->
  (k <> key /\ (k, g) ∈ tiles) \/
  (k = key /\
   ((exists g0, (key, g0) ∈ tiles /\
                g = mkGroup (colors g0 ++ [colorId p]) (coords g0 ++ pixelPair p)) \/
    ((key ∉ tiles.*1) /\ g = mkGroup [colorId p] (pixelPair p)))).
Proof.
  induction tiles as [|[k0 g0] rest IH]; simpl; intros Hnd Hin.
  - apply list_elem_of_singleton in Hin. injection Hin as -> ->.
    right. split; [reflexivity|]. right. split; [|reflexivity].
    intros H; inversion H.
  - apply NoDup_cons in Hnd as [Hk0 Hnd].
    destruct (String.eqb_spec k0 key) as [->|Hne].
    + apply elem_of_cons in Hin as [Hin|Hin].
      * injection Hin as -> ->. right. split; [reflexivity|]. left.
        exists g0. split; [apply elem_of_cons; left; reflexivity|reflexivity].
      * left. split.
        -- intros ->. apply Hk0. apply list_elem_of_fmap. exists (key, g).
           split; [reflexivity|exact Hin].
        -- apply elem_of_cons. right. exact Hin.
    + apply elem_of_cons in Hin as [Hin|Hin].
      * injection Hin as -> ->. left. split; [exact Hne|].
        apply elem_of_cons. left. reflexivity.
      * destruct (IH Hnd Hin) as [[Hk Hg]|[-> [(g1 & Hg1 & ->)|[Hout ->]]]].
        -- left. split; [exact Hk|apply elem_of_cons; right; exact Hg].
        -- right. split; [reflexivity|]. left. exists g1.
           split; [apply elem_of_cons; right; exact Hg1|reflexivity].
        -- right. split; [reflexivity|]. right. split; [|reflexivity].
           intros H. apply elem_of_cons in H as [H|H]; [congruence|contradiction].
Qed.

(** X19.  The requests of step 5: the map has one entry per tile key that
    occurs among the selected pixels and no other; the entry of a key
    lists the colour ids of the pixels with that key, in selection order,
    and their coordinate pairs flattened in the same order, so [coords]
    is twice as long as [colors] and neither is empty. *)
Theorem tilesToPaint_groups (selected : list pixelData) :
  NoDup (tilesToPaint selected).*1 /\
  (forall k, k ∈ (tilesToPaint selected).*1 <->
             exists p, p ∈ selected /\ tileKey p = k) /\
  (forall k g, (k, g) ∈ tilesToPaint selected ->
     colors g = colorId <$> filter (fun p => tileKey p = k) selected /\
     coords g = filter (fun p => tileKey p = k) selected ≫= pixelPair /\
     length (coords g) = (2 * length (colors g))%nat /\
     colors g <> []).
Proof.
  induction selected as [|p l IH] using rev_ind.
  - split; [constructor|]. split.
    + intros k. split; [intros H; inversion H|intros (p & H & _); inversion H].
    + intros k g H. inversion H.
  - destruct IH as (Hnd & Hkeys & Hgroups).
    rewrite tilesToPaint_snoc.
    assert (Hnd' : NoDup (pushToGroup (tileKey p) p (tilesToPaint l)).*1).
    { rewrite pushToGroup_keys. case_decide as Hin; [exact Hnd|].
      apply NoDup_app. split; [exact Hnd|]. split; [|apply NoDup_singleton].
      intros x Hx Hx'. apply list_elem_of_singleton in Hx'. subst. contradiction. }
    split; [exact Hnd'|]. split.
    + intros k. rewrite pushToGroup_keys. split.
      * intros Hk.
        assert (Hk' : k ∈ (tilesToPaint l).*1 \/ k = tileKey p).
        { case_decide; [left; exact Hk|].
          apply elem_of_app in Hk as [Hk|Hk]; [left; exact Hk|].
          apply list_elem_of_singleton in Hk. right. exact Hk. }
        destruct Hk' as [Hk' | ->].
        -- apply Hkeys in Hk' as (q & Hq & <-). exists q.
           split; [apply elem_of_app; left; exact Hq|reflexivity].
        -- exists p. split; [|reflexivity].
           apply elem_of_app. right. apply list_elem_of_singleton. reflexivity.
      * intros (q & Hq & <-). apply elem_of_app in Hq as [Hq|Hq].
        -- assert (tileKey q ∈ (tilesToPaint l).*1)
             by (apply Hkeys; exists q; split; [exact Hq|reflexivity]).
           case_decide; [assumption|]. apply elem_of_app. left. assumption.
        -- apply list_elem_of_singleton in Hq. subst q.
           case_decide; [assumption|].
           apply elem_of_app. right. apply list_elem_of_singleton. reflexivity.
    + intros k g Hin.
      rewrite filter_app, fmap_app, bind_app.
      apply pushToGroup_elem in Hin; [|exact Hnd].
      destruct Hin as [[Hk Hg]|[-> [(g0 & Hg0 & ->)|[Hout ->]]]].
      * destruct (Hgroups k g Hg) as (Hc & Hx & Hlen & Hne).
        rewrite (filter_cons_False _ p []) by congruence.
        rewrite filter_nil. simpl. rewrite !app_nil_r.
        repeat split; assumption.
      * destruct (Hgroups _ g0 Hg0) as (Hc & Hx & Hlen & Hne).
        rewrite (filter_cons_True _ p []) by reflexivity.
        rewrite filter_nil. cbn [colors coords].
        rewrite Hc, Hx. repeat split.
        -- rewrite !length_app, <- Hx, Hlen, <- Hc. simpl. lia.
        -- intros E. apply app_eq_nil in E as [_ E]. discriminate.
      * assert (Hnone : filter (fun q => tileKey q = tileKey p) l = []).
        { destruct (filter (fun q => tileKey q = tileKey p) l) as [|q l'] eqn:E;
            [reflexivity|].
          exfalso. apply Hout, Hkeys. exists q.
          assert (Hq : q ∈ filter (fun q => tileKey q = tileKey p) l)
            by (rewrite E; apply elem_of_cons; left; reflexivity).
          apply list_elem_of_filter in Hq as [Hq1 Hq2]. split; assumption. }
        rewrite Hnone. rewrite (filter_cons_True _ p []) by reflexivity.
        rewrite filter_nil. cbn. repeat split; discriminate.
Qed.

End Grouping.

Section Burn.
Import ApiManager.

Lemma Math_floor_pixel (u : R) :
  (0 <= u < 1)%R -> 0 <= Math_floor (u * 1000) <= 999.
Proof.
  intros Hu. unfold Math_floor.
  destruct (base_Int_part (u * 1000)) as [Hle Hgt].
  assert (H1 : (IZR (-1) < IZR (Int_part (u * 1000)))%R) by lra.
  assert (H2 : (IZR (Int_part (u * 1000)) < IZR 1000)%R) by lra.
  apply lt_IZR in H1, H2. lia.
Qed.

(** X22.  The request that burns charges paints ten pixels, all with colour id
    0, at coordinates that are valid inside a tile (integers from 0 to
    999), whatever the draws. *)
Theorem burnPayload_valid (random : nat -> R) :
  (forall k, (0 <= random k < 1)%R) ->
  colors (burnPayload random) = replicate 10 0 /\
  length (coords (burnPayload random)) = 20%nat /\
  Forall (fun c => 0 <= c <= 999) (coords (burnPayload random)).
Proof.
  intros Hr. unfold burnPayload. cbn [fold_left seq colors coords app].
  split; [reflexivity|]. split; [reflexivity|].
  repeat (apply Forall_cons; split; [apply Math_floor_pixel, Hr|]).
  apply Forall_nil. exact I.
Qed.

End Burn.

(** ** Queue keys *)

Section KeyStrings.

Definition isDigit (c : ascii) : bool :=
  let n := nat_of_ascii c in (48 <=? n)%nat && (n <=? 57)%nat.

Fixpoint allDigits (s : string) : bool :=
  match s with
  | EmptyString => true
  | String c s' => isDigit c && allDigits s'
  end.

Lemma pretty_N_char_digit (x : N) : isDigit (pretty_N_char x) = true.
Proof. unfold pretty_N_char. repeat case_match; reflexivity. Qed.

Lemma append_assoc (a b c : string) : (a +:+ b) +:+ c = a +:+ (b +:+ c).
Proof.
  induction a as [|x a IH]; [reflexivity|].
  change (String x ((a +:+ b) +:+ c) = String x (a +:+ (b +:+ c))).
  rewrite IH. reflexivity.
Qed.

Lemma append_empty (a : string) : a +:+ EmptyString = a.
Proof.
  induction a as [|x a IH]; [reflexivity|].
  change (String x (a +:+ EmptyString) = String x a). rewrite IH. reflexivity.
Qed.

Lemma allDigits_app (a b : string) :
  allDigits (a +:+ b) = allDigits a && allDigits b.
Proof.
  induction a as [|x a IH]; [reflexivity|].
  change (isDigit x && allDigits (a +:+ b)
          = isDigit x && allDigits a && allDigits b).
  rewrite IH. apply andb_assoc.
Qed.

(** The digits that [pretty_N_go] puts before its accumulator. *)
Lemma pretty_N_go_digits (x : N) : forall s : string,
  exists d, pretty_N_go x s = d +:+ s /\ allDigits d = true /\
            ((0 < x)%N -> d <> EmptyString).
Proof.
  induction (N.lt_wf_0 x) as [x _ IH]. intros s.
  destruct (decide (x = 0%N)) as [->|Hx].
  - exists EmptyString. rewrite pretty_N_go_0. split; [reflexivity|].
    split; [reflexivity|]. lia.
  - rewrite pretty_N_go_step by lia.
    destruct (IH (x `div` 10)%N ltac:(apply N.div_lt; lia)
                 (String (pretty_N_char (x `mod` 10)) s)) as (d & -> & Hd & _).
    exists (d +:+ String (pretty_N_char (x `mod` 10)) EmptyString).
    split; [|split].
    + rewrite append_assoc. reflexivity.
    + rewrite allDigits_app, Hd. cbn. rewrite pretty_N_char_digit. reflexivity.
    + intros _. destruct d; discriminate.
Qed.

(** A printed integer: digits, after a minus sign if it is negative. *)
Definition numeral (s : string) : Prop :=
  exists d, allDigits d = true /\ d <> EmptyString /\
            (s = d \/ s = String "-" d).

Lemma pretty_Z_numeral (z : Z) : numeral (pretty z).
Proof.
  assert (Hpos : forall p : positive,
            exists d, pretty (N.pos p) = d /\ allDigits d = true /\ d <> EmptyString).
  { intros p. unfold pretty, pretty_N.
    rewrite decide_False by discriminate.
    destruct (pretty_N_go_digits (N.pos p) EmptyString) as (d & -> & Hd & Hne).
    exists (d +:+ EmptyString). split; [reflexivity|].
    rewrite append_empty. split; [exact Hd|apply Hne; lia]. }
  destruct z as [|p|p].
  - exists "0"%string. split; [reflexivity|]. split; [discriminate|].
    left. reflexivity.
  - destruct (Hpos p) as (d & E & Hd & Hne). exists d.
    split; [exact Hd|]. split; [exact Hne|]. left. exact E.
  - destruct (Hpos p) as (d & E & Hd & Hne). exists d.
    split; [exact Hd|]. split; [exact Hne|]. right.
    change (pretty (Z.neg p)) with ("-" +:+ pretty (N.pos p)).
    rewrite E. reflexivity.
Qed.

Lemma digits_split (d1 : string) : forall (d2 : string) (c1 c2 : ascii)
    (r1 r2 : string),
  allDigits d1 = true -> allDigits d2 = true ->
  isDigit c1 = false -> isDigit c2 = false ->
  d1 +:+ String c1 r1 = d2 +:+ String c2 r2 ->
  d1 = d2 /\ c1 = c2 /\ r1 = r2.
Proof.
  induction d1 as [|a d1 IH]; intros [|b d2] c1 c2 r1 r2 H1 H2 Hc1 Hc2 E;
    cbn in *.
  - injection E as -> ->. auto.
  - injection E as -> _. apply andb_prop in H2 as [Hb _]. congruence.
  - injection E as -> _. apply andb_prop in H1 as [Ha _]. congruence.
  - injection E as -> E. apply andb_prop in H1 as [_ H1].
    apply andb_prop in H2 as [_ H2].
    destruct (IH d2 c1 c2 r1 r2 H1 H2 Hc1 Hc2 E) as (-> & -> & ->). auto.
Qed.

Lemma numeral_split (n1 n2 : string) (c : ascii) (r1 r2 : string) :
  numeral n1 -> numeral n2 -> isDigit c = false ->
  n1 +:+ String c r1 = n2 +:+ String c r2 ->
  n1 = n2 /\ r1 = r2.
Proof.
  intros (d1 & H1 & Hne1 & E1) (d2 & H2 & Hne2 & E2) Hc E.
  assert (Hminus : isDigit "-" = false) by reflexivity.
  destruct E1 as [-> | ->], E2 as [-> | ->].
  - destruct (digits_split d1 d2 c c r1 r2 H1 H2 Hc Hc E) as (-> & _ & ->). auto.
  - destruct d1 as [|a d1]; [contradiction|]. cbn in E, H1.
    injection E as -> _. apply andb_prop in H1 as [Ha _]. discriminate.
  - destruct d2 as [|a d2]; [contradiction|]. cbn in E, H2.
    injection E as <- _. apply andb_prop in H2 as [Ha _]. discriminate.
  - cbn in E. injection E as E.
    destruct (digits_split d1 d2 c c r1 r2 H1 H2 Hc Hc E) as (-> & _ & ->). auto.
Qed.

End KeyStrings.

Section KeysInjective.
Import TemplateManager ApiManager.

Lemma pixelKey_coords (p q : pixelData) :
  pixelKey p = pixelKey q ->
  tileCoords p = tileCoords q /\ pixelCoords p = pixelCoords q.
Proof.
  unfold pixelKey.
  destruct (tileCoords p) as [tx ty], (tileCoords q) as [tx' ty'],
           (pixelCoords p) as [px py], (pixelCoords q) as [px' py'].
  cbn [fst snd]. intros E.
  change ("," +:+ ?s)%string with (String "," s) in E.
  apply numeral_split in E as [Etx E];
    [|apply pretty_Z_numeral..|reflexivity].
  cbn [String.append] in E.
  apply numeral_split in E as [Ety E];
    [|apply pretty_Z_numeral..|reflexivity].
  cbn [String.append] in E.
  apply numeral_split in E as [Epx Epy];
    [|apply pretty_Z_numeral..|reflexivity].
  apply (inj pretty) in Etx, Ety, Epx, Epy. subst. auto.
Qed.

Lemma tileKey_coords (p q : pixelData) :
  tileKey p = tileKey q -> tileCoords p = tileCoords q.
Proof.
  unfold tileKey.
  destruct (tileCoords p) as [tx ty], (tileCoords q) as [tx' ty'].
  cbn [fst snd]. intros E.
  change ("," +:+ ?s)%string with (String "," s) in E.
  apply numeral_split in E as [Etx Ety];
    [|apply pretty_Z_numeral..|reflexivity].
  apply (inj pretty) in Etx, Ety. subst. reflexivity.
Qed.

(** X20.  The key of a queue entry determines its tile and pixel coordinates,
    and the other way round: two entries have the same key exactly when
    they are at the same place.  Likewise the key of a request group
    stands for one tile. *)
Theorem pixelKey_injective (p q : pixelData) :
  (pixelKey p = pixelKey q <->
   tileCoords p = tileCoords q /\ pixelCoords p = pixelCoords q) /\
  (tileKey p = tileKey q <-> tileCoords p = tileCoords q).
Proof.
  split; split.
  - apply pixelKey_coords.
  - intros [Ht Hp]. unfold pixelKey. rewrite Ht, Hp. reflexivity.
  - apply tileKey_coords.
  - intros Ht. unfold tileKey. rewrite Ht. reflexivity.
Qed.

(** X21.  Step 6 removes the entries at the places that were painted and no
    other: an entry is in the queue afterwards exactly when it was in the
    queue and no painted pixel has its tile and pixel coordinates. *)
Theorem removePainted_exact (painted queue : list pixelData) (q : pixelData) :
  q ∈ removePainted painted queue <->
  q ∈ queue /\
  forall p, p ∈ painted ->
    ~ (tileCoords p = tileCoords q /\ pixelCoords p = pixelCoords q).
Proof.
  unfold removePainted. cbv zeta. rewrite elem_of_removeKeys.
  rewrite elem_of_list_to_set, list_elem_of_fmap. split.
  - intros [Hk Hq]. split; [exact Hq|]. intros p Hp [Ht Hx].
    apply Hk. exists p. split; [|exact Hp].
    unfold pixelKey. rewrite Ht, Hx. reflexivity.
  - intros [Hq Hn]. split; [|exact Hq].
    intros (p & Hk & Hp). apply (Hn p Hp). apply pixelKey_coords.
    symmetry. exact Hk.
Qed.

End KeysInjective.

(** ** More on the controller *)

Section ControllerInvariants.
Import AutoPainter.

(** The value of the 'bm-network-paused' flag after the actions of a
    trace, from its value before them. *)
Definition networkPaused (before : bool) (t : list action) : bool :=
  fold_left (fun flag a =>
               match a with
               | SetNetworkPaused => true
               | ClearNetworkPaused => false
               | _ => flag
               end) t before.

Lemma networkPaused_app (before : bool) (t1 t2 : list action) :
  networkPaused before (t1 ++ t2) = networkPaused (networkPaused before t1) t2.
Proof. apply fold_left_app. Qed.

Lemma cycle_unpaused (a : attempt) (s : painter) (before : bool) :
  networkPaused before (trace s) = false ->
  networkPaused before (trace (cycle a s).2) = false.
Proof.
  intros H.
  destruct a as [w|still w|ms w]; cbn -[networkPaused].
  - destruct w as [still|]; cbn -[networkPaused];
      rewrite networkPaused_app, H; reflexivity.
  - destruct still; cbn -[networkPaused]; [|exact H].
    destruct (failureThreshold s <=? failureCount s + 1); cbn -[networkPaused].
    + rewrite networkPaused_app, H. reflexivity.
    + destruct w as [still|]; cbn -[networkPaused];
        rewrite !networkPaused_app; reflexivity.
  - destruct (0 <? ms); cbn -[networkPaused]; [|exact H].
    destruct w as [still|]; cbn -[networkPaused];
      rewrite !networkPaused_app; reflexivity.
Qed.

(** X24.  The loop never leaves the network paused: if the flag is clear when
    [paintCycle] starts, it is clear when the loop is left, and also
    between any two iterations. *)
Theorem paintCycle_network_unpaused (attempts : list attempt) (s : painter)
    (before : bool) :
  networkPaused before (trace s) = false ->
  networkPaused before (trace (paintCycle attempts s).2) = false /\
  networkPaused before (trace (run attempts s).2) = false.
Proof.
  assert (Hloop : forall attempts s,
            networkPaused before (trace s) = false ->
            networkPaused before (trace (paintCycle attempts s).2) = false).
  { clear. induction attempts as [|a rest IH]; intros s H; cbn -[networkPaused].
    - destruct (isPainting s); exact H.
    - destruct (isPainting s); [|exact H].
      pose proof (cycle_unpaused a s before H) as Hc.
      destruct (cycle a s) as [[|] s']; cbn -[networkPaused] in *;
        [apply IH, Hc|exact Hc]. }
  intros H. split; [apply Hloop, H|].
  unfold run. destruct (isPainting s) eqn:E; [exact H|].
  apply Hloop. unfold start. rewrite E. exact H.
Qed.

Lemma cycle_reload_last (a : attempt) (s : painter) :
  exists acts,
    trace (cycle a s).2 = trace s ++ acts /\
    (Reload ∉ acts \/
     ((cycle a s).1 = Break /\ exists pre, acts = pre ++ [Reload] /\ Reload ∉ pre)).
Proof.
  assert (Hnil : forall t : list action, t = t ++ []) by (intros; rewrite app_nil_r; reflexivity).
  destruct a as [w|still w|ms w]; cbn.
  - destruct w as [still|]; cbn; eexists; (split; [reflexivity|]); left;
      intros H; apply list_elem_of_singleton in H; discriminate.
  - destruct still; cbn.
    2:{ exists []. split; [apply Hnil|]. left. intros H. inversion H. }
    destruct (failureThreshold s <=? failureCount s + 1); cbn.
    + eexists. split; [reflexivity|]. right. split; [reflexivity|].
      exists []. split; [reflexivity|]. intros H. inversion H.
    + destruct w as [still|]; cbn; rewrite <- !app_assoc; eexists;
        (split; [reflexivity|]); left; cbn; intros H;
        repeat (apply elem_of_cons in H as [H|H]; [discriminate|]);
        inversion H.
  - destruct (0 <? ms); cbn.
    2:{ exists []. split; [apply Hnil|]. left. intros H. inversion H. }
    destruct w as [still|]; cbn; rewrite <- !app_assoc; eexists;
      (split; [reflexivity|]).
    + right. split; [reflexivity|].
      exists [SetNetworkPaused; Wait ms; ClearNetworkPaused].
      split; [reflexivity|]. intros H.
      repeat (apply elem_of_cons in H as [H|H]; [discriminate|]). inversion H.
    + left. cbn. intros H.
      repeat (apply elem_of_cons in H as [H|H]; [discriminate|]). inversion H.
Qed.

Lemma paintCycle_shape (attempts : list attempt) : forall s : painter,
  exists acts,
    trace (paintCycle attempts s).2 = trace s ++ acts /\
    ((paintCycle attempts s).1 = Break -> isPainting (paintCycle attempts s).2 = false) /\
    ((paintCycle attempts s).1 = Continue ->
     isPainting (paintCycle attempts s).2 = true /\ Reload ∉ acts) /\
    (Reload ∈ acts -> exists pre, acts = pre ++ [Reload] /\ Reload ∉ pre).
Proof.
  induction attempts as [|a rest IH]; intros s; cbn.
  - destruct (isPainting s) eqn:E; cbn; exists [];
      (split; [rewrite app_nil_r; reflexivity|]).
    + split; [discriminate|]. split; [|intros Hin; inversion Hin].
      intros _. split; [exact E|intros Hin; inversion Hin].
    + split; [reflexivity|]. split; [discriminate|intros Hin; inversion Hin].
  - destruct (isPainting s) eqn:E; cbn.
    2:{ exists []. split; [rewrite app_nil_r; reflexivity|].
        split; [reflexivity|]. split; [discriminate|]. intros H; inversion H. }
    destruct (cycle_reload_last a s) as (acts & Ht & Hr).
    destruct (cycle a s) as [[|] s'] eqn:Ec; cbn in *.
    + destruct Hr as [Hr|[Hr _]]; [|discriminate].
      destruct (IH s') as (acts' & Ht' & Hb & Hc & Hl).
      exists (acts ++ acts'). rewrite Ht', Ht, app_assoc.
      split; [reflexivity|]. split; [exact Hb|]. split.
      * intros Hcont. destruct (Hc Hcont) as [Hp Hn]. split; [exact Hp|].
        intros H. apply elem_of_app in H as [H|H]; contradiction.
      * intros H. apply elem_of_app in H as [H|H]; [contradiction|].
        destruct (Hl H) as (pre & -> & Hpre).
        exists (acts ++ pre). rewrite app_assoc. split; [reflexivity|].
        intros H'. apply elem_of_app in H' as [H'|H']; contradiction.
    + exists acts. split; [exact Ht|]. split; [reflexivity|].
      split; [discriminate|]. intros H.
      destruct Hr as [Hr|[_ Hr]]; [contradiction|exact Hr].
Qed.

(** X25.  How the loop ends.  When it is left the painter is not painting (so
    [start()] can launch it again); while it runs the painter is painting
    and the page has not been reloaded.  A reload, if any, is the last
    thing the loop does. *)
Theorem paintCycle_exit (attempts : list attempt) (s : painter) :
  exists acts,
    trace (paintCycle attempts s).2 = trace s ++ acts /\
    ((paintCycle attempts s).1 = Break ->
     isPainting (paintCycle attempts s).2 = false) /\
    ((paintCycle attempts s).1 = Continue ->
     isPainting (paintCycle attempts s).2 = true /\ Reload ∉ acts) /\
    (Reload ∈ acts -> exists pre, acts = pre ++ [Reload] /\ Reload ∉ pre).
Proof. apply paintCycle_shape. Qed.

End ControllerInvariants.

Lemma paintCycle_network_unpaused_witness :
  networkPaused false
    (AutoPainter.trace
       (AutoPainter.paintCycle
          [AutoPainter.StepFailed true AutoPainter.Aborted]
          (AutoPainter.start AutoPainter.constructor)).2) = false /\
  networkPaused false
    (AutoPainter.trace
       (AutoPainter.run
          [AutoPainter.StepFailed true AutoPainter.Aborted]
          (AutoPainter.start AutoPainter.constructor)).2) = false.
Proof.
  apply (paintCycle_network_unpaused
           [AutoPainter.StepFailed true AutoPainter.Aborted]
           (AutoPainter.start AutoPainter.constructor) false).
  reflexivity.
Defined.

(** ** Instances *)

(** A chunk of two pixels side by side, both opaque black in the template,
    over an empty tile. *)
Definition twoPixelChunk : list TemplateManager.chunk :=
  [TemplateManager.mkChunk 0 0 6 3].

Definition twoPixelRaster : Z -> Z :=
  fun i => if (i =? 12007) || (i =? 12019) then 255 else 0.

Lemma twoPixelRaster_bytes : forall i, isByte (twoPixelRaster i).
Proof.
  intros i. unfold twoPixelRaster, isByte.
  destruct ((i =? 12007) || (i =? 12019)); lia.
Qed.

Lemma analyzeTile_one_per_pixel_witness :
  TemplateManager.pixelCoords <$>
    fst (TemplateManager.analyzeTile (TemplateManager.constructor [])
           emptyRaster (rasterOf 255 0 0 255) onePixelChunk (7, 9))
    `sublist_of` coordsOf (TemplateManager.boundingRect onePixelChunk) /\
  NoDup (TemplateManager.pixelCoords <$>
           fst (TemplateManager.analyzeTile (TemplateManager.constructor [])
                  emptyRaster (rasterOf 255 0 0 255) onePixelChunk (7, 9))) /\
  forall c,
    c ∈ fst (TemplateManager.analyzeTile (TemplateManager.constructor [])
               emptyRaster (rasterOf 255 0 0 255) onePixelChunk (7, 9)) ->
    TemplateManager.tileCoords c = (7, 9) /\
    TemplateManager.minX (TemplateManager.boundingRect onePixelChunk)
      <= (TemplateManager.pixelCoords c).1
      < TemplateManager.maxX (TemplateManager.boundingRect onePixelChunk) /\
    TemplateManager.minY (TemplateManager.boundingRect onePixelChunk)
      <= (TemplateManager.pixelCoords c).2
      < TemplateManager.maxY (TemplateManager.boundingRect onePixelChunk).
Proof.
  apply (analyzeTile_one_per_pixel (TemplateManager.constructor [])
           emptyRaster (rasterOf 255 0 0 255) onePixelChunk (7, 9)).
  - apply rasterOf_bytes; unfold isByte; lia.
  - exact cache_ok_empty.
Defined.

Lemma analyzeTile_color_ids_witness :
  (TemplateManager.colorId (TemplateManager.mkPixelData (7, 9) (0, 0) 0 2000000) = 0 /\
   TemplateManager.analyzeTransparentPixels
     (TemplateManager.setAnalyzeTransparentPixels true
        (TemplateManager.constructor [])) = true /\
   templateAlpha emptyRaster 0 0 < 128) \/
  (1 <= TemplateManager.colorId
          (TemplateManager.mkPixelData (7, 9) (0, 0) 0 2000000) <= 63 /\
   TemplateManager.colorId (TemplateManager.mkPixelData (7, 9) (0, 0) 0 2000000)
   = Utils.findClosestColor (templateRGB emptyRaster 0 0) /\
   128 < templateAlpha emptyRaster 0 0).
Proof.
  apply (analyzeTile_color_ids
           (TemplateManager.setAnalyzeTransparentPixels true
              (TemplateManager.constructor []))
           (rasterOf 0 0 0 255) emptyRaster onePixelChunk (7, 9)
           emptyRaster_bytes cache_ok_empty
           (TemplateManager.mkPixelData (7, 9) (0, 0) 0 2000000)).
  vm_compute. left.
Defined.

Lemma analyzeTile_no_candidate_iff_witness :
  filter (fun c => TemplateManager.pixelCoords c = (0, 0))
    (fst (TemplateManager.analyzeTile (TemplateManager.constructor [])
            (rasterOf 255 0 0 255) (rasterOf 255 0 0 255) onePixelChunk (7, 9)))
  = []
  <->
  (templateAlpha (rasterOf 255 0 0 255) 0 0 = 128 \/
   (templateAlpha (rasterOf 255 0 0 255) 0 0 < 128 /\
    (TemplateManager.analyzeTransparentPixels (TemplateManager.constructor [])
     = false \/ gameAlpha (rasterOf 255 0 0 255) 0 0 <= 0)) \/
   (128 < templateAlpha (rasterOf 255 0 0 255) 0 0 /\
    128 <= gameAlpha (rasterOf 255 0 0 255) 0 0 /\
    Utils.findClosestColor (gameRGB (rasterOf 255 0 0 255) 0 0)
    = Utils.findClosestColor (templateRGB (rasterOf 255 0 0 255) 0 0))).
Proof.
  apply (analyzeTile_no_candidate_iff (TemplateManager.constructor [])
           (rasterOf 255 0 0 255) (rasterOf 255 0 0 255) onePixelChunk (7, 9)).
  - apply rasterOf_bytes; unfold isByte; lia.
  - exact cache_ok_empty.
  - vm_compute. split; [discriminate|reflexivity].
  - vm_compute. split; [discriminate|reflexivity].
Defined.

(** A fresh manager and the manager a first pass leaves behind, with the
    conversion of red in its cache. *)
Lemma analyzeTile_cache_transparent_witness :
  fst (TemplateManager.analyzeTile (TemplateManager.constructor [])
         emptyRaster (rasterOf 255 0 0 255) onePixelChunk (7, 9))
  = fst (TemplateManager.analyzeTile
           (snd (TemplateManager.analyzeTile (TemplateManager.constructor [])
                   emptyRaster (rasterOf 255 0 0 255) onePixelChunk (7, 9)))
           emptyRaster (rasterOf 255 0 0 255) onePixelChunk (7, 9)).
Proof.
  apply analyzeTile_cache_transparent.
  - apply rasterOf_bytes; unfold isByte; lia.
  - exact cache_ok_empty.
  - apply analyzeTile_candidates;
      [apply rasterOf_bytes; unfold isByte; lia|exact cache_ok_empty].
  - reflexivity.
Defined.

Lemma boundingRect_covers_witness :
  (0, 0) ∈ coordsOf (TemplateManager.boundingRect onePixelChunk) /\
  TemplateManager.minX (TemplateManager.boundingRect onePixelChunk)
    <= TemplateManager.tileSize /\
  TemplateManager.minY (TemplateManager.boundingRect onePixelChunk)
    <= TemplateManager.tileSize /\
  0 <= TemplateManager.maxX (TemplateManager.boundingRect onePixelChunk) /\
  0 <= TemplateManager.maxY (TemplateManager.boundingRect onePixelChunk).
Proof.
  apply (boundingRect_covers onePixelChunk (TemplateManager.mkChunk 0 0 3 3) 0 0).
  - apply list_elem_of_singleton. reflexivity.
  - vm_compute. split; [discriminate|reflexivity].
  - vm_compute. split; [discriminate|reflexivity].
Defined.

Lemma templateColorKey_injective_witness :
  (TemplateManager.templateColorKey 255 255 0 0
   = TemplateManager.templateColorKey 255 255 0 0 ->
   (255, 255, 0, 0) = (255, 255, 0, 0)) /\
  - 2 ^ 31 <= TemplateManager.templateColorKey 255 255 0 0 < 2 ^ 31 /\
  (TemplateManager.templateColorKey 255 255 0 0 < 0 <-> 128 <= 255).
Proof.
  apply (templateColorKey_injective 255 255 0 0 255 255 0 0);
    unfold isByte; lia.
Defined.

Lemma analyzeTile_center_first_witness :
  exists c1 c2,
    filter (fun c => TemplateManager.pixelCoords c = (1, 0))
      (fst (TemplateManager.analyzeTile (TemplateManager.constructor [])
              emptyRaster twoPixelRaster twoPixelChunk (7, 9)))
    = [c1] /\
    filter (fun c => TemplateManager.pixelCoords c = (0, 0))
      (fst (TemplateManager.analyzeTile (TemplateManager.constructor [])
              emptyRaster twoPixelRaster twoPixelChunk (7, 9)))
    = [c2] /\
    Rlt (TemplateManager.priority c2) (TemplateManager.priority c1).
Proof.
  apply (analyzeTile_center_first (TemplateManager.constructor [])
           emptyRaster twoPixelRaster twoPixelChunk (7, 9)
           twoPixelRaster_bytes cache_ok_empty 1 0 0 0).
  - vm_compute. split; [discriminate|reflexivity].
  - vm_compute. split; [discriminate|reflexivity].
  - vm_compute. split; [discriminate|reflexivity].
  - vm_compute. split; [discriminate|reflexivity].
  - vm_compute. reflexivity.
  - vm_compute. reflexivity.
  - vm_compute. reflexivity.
  - vm_compute. reflexivity.
  - change (TemplateManager.boundingRect twoPixelChunk)
      with (TemplateManager.mkRect 0 0 2 1).
    unfold distFromCenterSq, TemplateManager.centerX, TemplateManager.centerY.
    cbn [TemplateManager.minX TemplateManager.minY TemplateManager.maxX
         TemplateManager.maxY].
    lra.
Defined.

Lemma burnPayload_valid_witness :
  ApiManager.colors (ApiManager.burnPayload zeroDraws) = replicate 10 0 /\
  length (ApiManager.coords (ApiManager.burnPayload zeroDraws)) = 20%nat /\
  Forall (fun c => 0 <= c <= 999)
         (ApiManager.coords (ApiManager.burnPayload zeroDraws)).
Proof.
  apply (burnPayload_valid zeroDraws).
  intros k. unfold zeroDraws. lra.
Defined.

(** The example of the function's documentation: tile (12, 123), pixel
    (34, 567). *)
Lemma serverTPtoDisplayTP_decode_witness :
  let d := Utils.serverTPtoDisplayTP (12, 123) (34, 567) in
  0 <= d.1 < 4000 /\ 0 <= d.2 < 4000 /\
  d.1 / 1000 = 12 mod 4 /\ d.1 mod 1000 = 34 /\
  d.2 / 1000 = 123 mod 4 /\ d.2 mod 1000 = 567 /\
  Utils.serverTPtoDisplayTP (12 + 4, 123 + 4) (34, 567) = d.
Proof.
  apply (serverTPtoDisplayTP_decode (12, 123) (34, 567)); cbn; lia.
Defined.

Example serverTPtoDisplayTP_doc :
  Utils.serverTPtoDisplayTP (12, 123) (34, 567) = (34, 3567).
Proof. reflexivity. Qed.

Lemma findClosestColor_palette_witness :
  Utils.findClosestColor (Utils.rgb (Utils.mkColor "Red" (237, 28, 36))) = 7.
Proof.
  apply (findClosestColor_palette 7 (Utils.mkColor "Red" (237, 28, 36)));
    [lia|reflexivity].
Defined.
